(** * r128: 128-bit (64.64) signed fixed-point arithmetic

    A shallow embedding of [r128.h] (version 1.0) and the properties of
    its operations.

    Build configuration.  The header selects its wide primitives with the
    preprocessor.  The embedding follows the GCC/Clang x86-64 configuration
    ([__x86_64__], hence [R128_INTEL] and [R128_64BIT]): [r128__umul128]
    and [r128__umul] use [unsigned __int128], [r128__udiv128] is the
    [divq] instruction, [r128Add], [r128Sub] and [r128Neg] use
    [_addcarry_u64] / [_subborrow_u64], and the shifts use the portable
    C branch.  [size_t] is 64 bits wide and [int] is 32 bits wide.
    (The branch of [r128Neg] for other processors names an undeclared
    variable and does not compile.)

    Data.  [R128_U64] values are integers of [Z] in [0, 2^64); every
    operation writes out its wrap-around with [u64].  A C [int] used as a
    truth value is a [bool]; a C [int] used as a number is a [Z]. *)

From Stdlib Require Import ZArith List Ascii String Bool Lia.
Import ListNotations.

Local Open Scope Z_scope.

(** ** Machine integers *)

Definition two64 : Z := 2 ^ 64.
Definition two63 : Z := 2 ^ 63.
Definition two128 : Z := 2 ^ 128.

(** Conversion to [R128_U64]. *)
Definition u64 (x : Z) : Z := x mod two64.

(** Conversion to [R128_S64]: the two's-complement reading of the low
    64 bits. *)
Definition s64 (x : Z) : Z :=
  if u64 x <? two63 then u64 x else u64 x - two64.

(** Conversion to [int] (32-bit two's complement). *)
Definition s32 (x : Z) : Z :=
  if x mod 2 ^ 32 <? 2 ^ 31 then x mod 2 ^ 32 else x mod 2 ^ 32 - 2 ^ 32.

(** [~x] on an [R128_U64]. *)
Definition not64 (x : Z) : Z := u64 (Z.lnot x).

(** [_addcarry_u64 (c, a, b, &out)]: the pair (carry out, [out]). *)
Definition addcarry_u64 (c a b : Z) : Z * Z :=
  let s := a + b + c in (s / two64, u64 s).

(** [_subborrow_u64 (bw, a, b, &out)]: the pair (borrow out, [out]). *)
Definition subborrow_u64 (bw a b : Z) : Z * Z :=
  let d := a - b - bw in ((if d <? 0 then 1 else 0), u64 d).

(** ** The value type *)

Record R128 : Type := mkR128 { lo : Z; hi : Z }.

(** [R128_SET2 (x, l, h)]. *)
Definition R128_SET2 (l h : Z) : R128 := {| lo := u64 l; hi := u64 h |}.

(** Both halves are 64-bit words. *)
Definition wf (v : R128) : Prop :=
  0 <= lo v < two64 /\ 0 <= hi v < two64.

(** The 128-bit unsigned integer [hi:lo]. *)
Definition to_u128 (v : R128) : Z := hi v * two64 + lo v.

(** The 128-bit two's-complement integer [hi:lo]; the value denoted is
    this integer divided by [2^64]. *)
Definition to_s128 (v : R128) : Z := s64 (hi v) * two64 + lo v.

Definition R128_min : R128 := {| lo := 0; hi := 0x8000000000000000 |}.
Definition R128_max : R128 :=
  {| lo := 0xffffffffffffffff; hi := 0x7fffffffffffffff |}.
Definition R128_smallest : R128 := {| lo := 1; hi := 0 |}.
Definition R128_zero : R128 := {| lo := 0; hi := 0 |}.
Definition R128_one : R128 := {| lo := 0; hi := 1 |}.

(** ** Conversion from and to integers *)

Definition r128FromInt (v : Z) : R128 := {| lo := 0; hi := u64 v |}.

Definition r128ToInt (v : R128) : Z := s64 (hi v).

(** ** Copy, negation, bitwise operations *)

Definition r128Copy (src : R128) : R128 := {| lo := lo src; hi := hi src |}.

Definition r128Not (src : R128) : R128 :=
  {| lo := not64 (lo src); hi := not64 (hi src) |}.

Definition r128Neg (src : R128) : R128 :=
  let '(carry, l) := addcarry_u64 0 (not64 (lo src)) 1 in
  let '(_, h) := addcarry_u64 carry (not64 (hi src)) 0 in
  {| lo := l; hi := h |}.

Definition r128Add (a b : R128) : R128 :=
  let '(carry, l) := addcarry_u64 0 (lo a) (lo b) in
  let '(_, h) := addcarry_u64 carry (hi a) (hi b) in
  {| lo := l; hi := h |}.

Definition r128Sub (a b : R128) : R128 :=
  let '(borrow, l) := subborrow_u64 0 (lo a) (lo b) in
  let '(_, h) := subborrow_u64 borrow (hi a) (hi b) in
  {| lo := l; hi := h |}.

(** ** Shifts

    [amount &= 127] on a two's-complement [int] keeps its low seven
    bits, which is what [Z.land] does on [Z]. *)

Definition r128Shl (src : R128) (amount : Z) : R128 :=
  let r0 := lo src in
  let r1 := hi src in
  let amount := Z.land amount 127 in
  if amount >=? 64 then
    {| lo := 0; hi := u64 (Z.shiftl r0 (amount - 64)) |}
  else if negb (amount =? 0) then
    {| lo := u64 (Z.shiftl r0 amount);
       hi := Z.lor (u64 (Z.shiftl r1 amount)) (Z.shiftr r0 (64 - amount)) |}
  else {| lo := r0; hi := r1 |}.

Definition r128Shr (src : R128) (amount : Z) : R128 :=
  let r2 := lo src in
  let r3 := hi src in
  let amount := Z.land amount 127 in
  if amount >=? 64 then
    {| lo := Z.shiftr r3 (amount - 64); hi := 0 |}
  else if negb (amount =? 0) then
    {| lo := Z.lor (Z.shiftr r2 amount) (u64 (Z.shiftl r3 (64 - amount)));
       hi := Z.shiftr r3 amount |}
  else {| lo := r2; hi := r3 |}.

(** ** Comparison, sign, floor and ceiling *)

Definition r128Cmp (a b : R128) : Z :=
  if hi a =? hi b then
    if lo a =? lo b then 0
    else if lo a >? lo b then 1
    else -1
  else if s64 (hi a) >? s64 (hi b) then 1
  else -1.

Definition r128IsNeg (v : R128) : bool := s64 (hi v) <? 0.

Definition r128Floor (v : R128) : R128 :=
  if s64 (hi v) <? 0 then
    {| lo := 0; hi := u64 (hi v - (if negb (lo v =? 0) then 1 else 0)) |}
  else {| lo := 0; hi := hi v |}.

Definition r128Ceil (v : R128) : R128 :=
  if s64 (hi v) >? 0 then
    {| lo := 0; hi := u64 (hi v + (if negb (lo v =? 0) then 1 else 0)) |}
  else {| lo := 0; hi := hi v |}.

(** ** Wide primitives *)

(** [x ? __builtin_clzll (x) : 64]. *)
Definition r128__clz64 (x : Z) : Z :=
  if x =? 0 then 64 else 63 - Z.log2 x.

(** 64*64->128 through [unsigned __int128]. *)
Definition r128__umul128 (a b : Z) : R128 :=
  let p0 := (a * b) mod two128 in
  {| lo := u64 p0; hi := u64 (Z.shiftr p0 64) |}.

(** 128/64->64 through [divq]: the pair (quotient, remainder).  The
    instruction raises a divide error when the divisor is zero or when the
    quotient does not fit 64 bits, which is when [nhi >= d]; that is
    [None]. *)
Definition r128__udiv128 (nlo nhi d : Z) : option (Z * Z) :=
  if (d =? 0) || (nhi >=? d) then None
  else
    let n := nhi * two64 + nlo in
    Some (n / d, n mod d).

(** The unsigned comparison of the division kernels, as the source has
    it: the outer test is on [hi], and the branch taken when the [hi]
    halves are equal compares [hi] again. *)
Definition r128__ucmp (a b : R128) : Z :=
  if hi a =? hi b then
    if hi a >? hi b then 1 else -1
  else if lo a =? lo b then 0
  else if lo a >? lo b then 1
  else -1.

(** 128*128->128 fixed-point multiply of magnitudes, through
    [unsigned __int128]. *)
Definition r128__umul (a b : R128) : R128 :=
  let p0 := (lo a * lo b) mod two128 in
  let p1 := (lo a * hi b) mod two128 in
  let p2 := (hi a * lo b) mod two128 in
  let p3 := (hi a * hi b) mod two128 in
  let p0 :=
    (Z.shiftl p3 64 + p2 + p1 + Z.shiftr p0 64 + Z.shiftr (u64 p0) 63)
      mod two128 in
  {| lo := u64 p0; hi := u64 (Z.shiftr p0 64) |}.

Definition r128Mul (a b : R128) : R128 :=
  let ta := r128Copy a in
  let tb := r128Copy b in
  let '(ta, sign) :=
    if r128IsNeg ta then (r128Neg ta, true) else (ta, false) in
  let '(tb, sign) :=
    if r128IsNeg tb then (r128Neg tb, negb sign) else (tb, sign) in
  let tc := r128__umul ta tb in
  let tc := if sign then r128Neg tc else tc in
  r128Copy tc.

(** ** Bounded iteration of a [goto] loop

    A loop body is a function [step] from the loop state to either the
    next state ([inl]) or the value the loop leaves with ([inr]).
    [run d] performs at most [2^d] iterations and stops at the first
    exit, so it evaluates in time proportional to the iterations taken. *)

Section Loop.
Context {S R : Type}.
Variable step : S -> S + R.

Fixpoint run (d : nat) (s : S) : S + R :=
  match d with
  | O => step s
  | Datatypes.S d' =>
      match run d' s with
      | inl s' => run d' s'
      | inr r => inr r
      end
  end.

(** The loop as a relation: [loops_to s r] when the loop entered in
    state [s] leaves with [r]. *)
Inductive loops_to : S -> R -> Prop :=
| loops_exit : forall s r, step s = inr r -> loops_to s r
| loops_next : forall s s' r,
    step s = inl s' -> loops_to s' r -> loops_to s r.
End Loop.

(** ** Fixed-point division *)

Inductive norm_result : Type :=
| NormOverflow                        (* [return 1] *)
| NormOk (n d : R128) (n2 : Z).       (* [return 0], with the updated operands *)

(** Shift [d] left until the high bit is set, and shift [n] left by the
    same amount. *)
Definition r128__norm (n d : R128) : norm_result :=
  let d1 := hi d in
  let d0 := lo d in
  let n1 := hi n in
  let n0 := lo n in
  if negb (d1 =? 0) then
    let shift := r128__clz64 d1 in
    if negb (shift =? 0) then
      let d1' := Z.lor (u64 (Z.shiftl d1 shift)) (Z.shiftr d0 (64 - shift)) in
      let d0' := u64 (Z.shiftl d0 shift) in
      let n2 := Z.shiftr n1 (64 - shift) in
      let n1' := Z.lor (u64 (Z.shiftl n1 shift)) (Z.shiftr n0 (64 - shift)) in
      let n0' := u64 (Z.shiftl n0 shift) in
      NormOk (R128_SET2 n0' n1') (R128_SET2 d0' d1') n2
    else
      NormOk (R128_SET2 n0 n1) (R128_SET2 d0 d1) 0
  else
    let shift := r128__clz64 d0 in
    if r128__clz64 n1 >=? shift then NormOverflow
    else if negb (shift =? 0) then
      let d1' := u64 (Z.shiftl d0 shift) in
      let n2 := Z.lor (u64 (Z.shiftl n1 shift)) (Z.shiftr n0 (64 - shift)) in
      let n1' := u64 (Z.shiftl n0 shift) in
      NormOk (R128_SET2 0 n1') (R128_SET2 0 d1') n2
    else
      NormOk (R128_SET2 0 n0) (R128_SET2 0 d0) n1.

(** One pass through the [refine1] / [refine0] label of [r128__udiv].
    The state is the pair ([q], [t0.hi]); [d0], [n1] and [t0.lo] do not
    change in the loop.  The partial remainder is advanced by [n1]. *)
Definition refine_step (d0 n1 t0lo : Z) (s : Z * Z) : (Z * Z) + Z :=
  let '(q, t0hi) := s in
  let t1 := r128__umul128 q d0 in
  if r128__ucmp t1 {| lo := t0lo; hi := t0hi |} >? 0 then
    let q := u64 (q - 1) in
    if t0hi <? u64 (not64 n1 + 1) then inl (q, u64 (t0hi + n1))
    else inr q
  else inr q.

(** The refinement loop: the quotient digit it leaves with.  Each pass
    that loops back strictly increases [t0.hi] below [2^64], so [2^66]
    passes are never exhausted (see [refine_unfold]). *)
Definition refine (d0 n1 t0lo q t0hi : Z) : Z :=
  match run (refine_step d0 n1 t0lo) 66 (q, t0hi) with
  | inr q' => q'
  | inl (q', _) => q'
  end.

(** The block "first digit" (and, with [t0.lo = 0], the block "second
    digit") of [r128__udiv]: assertion, trial digit, refinement. *)
Definition udiv_digit (nlo nhi d1 d0 n1 t0lo : Z) : option Z :=
  if negb (nhi <? d1) then None          (* R128_ASSERT *)
  else
    match r128__udiv128 nlo nhi d1 with
    | None => None
    | Some (q, t0hi) => Some (refine d0 n1 t0lo q t0hi)
    end.

(** The distance of [t0.hi] from [2^64]; [t0.hi] is a 64-bit word in
    the source, the two other cases make the measure total on [Z]. *)
Definition refine_measure (s : Z * Z) : Z :=
  let r := snd s in
  if r <? 0 then two64 + 1 else if r <? two64 then two64 - r else 0.

(** [None] is a failed assertion or a divide error. *)
Definition r128__udiv (dividend divisor : R128) : option R128 :=
  if (hi divisor =? 0) && (lo divisor =? 0) then None   (* R128_ASSERT *)
  else
    match r128__norm (r128Copy dividend) (r128Copy divisor) with
    | NormOverflow => Some (r128Copy R128_max)
    | NormOk n d n3 =>
        let d1 := hi d in
        let d0 := lo d in
        let n2 := hi n in
        let n1 := lo n in
        (* first digit *)
        match udiv_digit n2 n3 d1 d0 n1 n1 with
        | None => None
        | Some qhi =>
            let t0 := {| lo := n1; hi := n2 |} in
            let t1 := r128__umul128 qhi d0 in
            let t2 := r128__umul128 qhi d1 in
            let t2 := {| lo := 0; hi := lo t2 |} in
            let tmp := r128Add t1 t2 in
            let tmp := r128Sub t0 tmp in
            let n2 := hi tmp in
            let n1 := lo tmp in
            (* second digit *)
            match udiv_digit n1 n2 d1 d0 n1 0 with
            | None => None
            | Some qlo => Some (r128Copy {| lo := qlo; hi := qhi |})
            end
        end
    end.

Definition r128Div (a b : R128) : option R128 :=
  let tn := r128Copy a in
  let td := r128Copy b in
  let '(tn, sign) :=
    if r128IsNeg tn then (r128Neg tn, true) else (tn, false) in
  if (lo td =? 0) && (hi td =? 0) then
    (* divide by zero *)
    if sign then Some (r128Copy R128_min) else Some (r128Copy R128_max)
  else
    let '(td, sign) :=
      if r128IsNeg td then (r128Neg td, negb sign) else (td, sign) in
    match r128__udiv tn td with
    | None => None
    | Some tq =>
        let tq := if sign then r128Neg tq else tq in
        Some (r128Copy tq)
    end.

(** The quotient digit that long division of the three-limb numerator
    [n3:n2:n1] by the two-limb divisor [d1:d0] calls for. *)
Definition true_digit (n3 n2 n1 d1 d0 : Z) : Z :=
  (n3 * two128 + n2 * two64 + n1) / (d1 * two64 + d0).

(** ** Characters and C strings *)

Definition ord (c : ascii) : Z := Z.of_N (N_of_ascii c).
Definition chr (z : Z) : ascii := ascii_of_N (Z.to_N (z mod 256)).

(** [*s]: the character a C string pointer points at; the terminating
    NUL at the end of the string. *)
Definition peek (s : string) : ascii :=
  match s with
  | EmptyString => zero
  | String c _ => c
  end.

(** [s + 1], for a pointer [s] that is not at the terminating NUL: every
    use below is under a test that the character at [s] is not NUL (the
    second operand of [&&] counts only when the first is true, as in C). *)
Definition advance (s : string) : string :=
  match s with
  | EmptyString => EmptyString
  | String _ s' => s'
  end.

(** The C string held by a byte buffer: the characters before the first
    NUL. *)
Fixpoint c_string (bytes : list ascii) : string :=
  match bytes with
  | [] => EmptyString
  | c :: rest => if (ord c =? 0) then EmptyString else String c (c_string rest)
  end.

Definition is_digit (c : ascii) : bool :=
  (ord "0"%char <=? ord c) && (ord c <=? ord "9"%char).
Definition is_lower_hex (c : ascii) : bool :=
  (ord "a"%char <=? ord c) && (ord c <=? ord "f"%char).
Definition is_upper_hex (c : ascii) : bool :=
  (ord "A"%char <=? ord c) && (ord c <=? ord "F"%char).

(** ** Parser *)

Section Decimal.
(** The global [R128_decimal]. *)
Variable R128_decimal : ascii.

(** consume whitespace *)
Fixpoint skip_space (s : string) : string :=
  match s with
  | String c s' =>
      if (ord c =? ord " "%char) || (ord c =? 9) || (ord c =? 13)
         || (ord c =? 10) || (ord c =? 11)
      then skip_space s' else s
  | EmptyString => s
  end.

(** whole part: [hi = hi * base + digit] for each digit *)
Fixpoint parse_whole (base hi : Z) (s : string) : Z * string :=
  match s with
  | String c s' =>
      if is_digit c then
        parse_whole base (u64 (hi * base + (ord c - ord "0"%char))) s'
      else if (base =? 16) && is_lower_hex c then
        parse_whole base (u64 (hi * base + (ord c - ord "a"%char + 10))) s'
      else if (base =? 16) && is_upper_hex c then
        parse_whole base (u64 (hi * base + (ord c - ord "A"%char + 10))) s'
      else (hi, s)
  | EmptyString => (hi, s)
  end.

(** find the last digit: the run of digits at [s], first to last, and
    the string after it *)
Fixpoint scan_fraction (base : Z) (s : string) : list ascii * string :=
  match s with
  | String c s' =>
      if is_digit c || ((base =? 16) && is_lower_hex c)
         || ((base =? 16) && is_upper_hex c)
      then let '(run, rest) := scan_fraction base s' in (c :: run, rest)
      else ([], s)
  | EmptyString => ([], s)
  end.

(** and work backwards: [rdigits] is the run from last to first *)
Fixpoint parse_fraction (base lo : Z) (rdigits : list ascii) : option Z :=
  match rdigits with
  | [] => Some lo
  | c :: rest =>
      let digit :=
        if is_digit c then ord c - ord "0"%char
        else if is_lower_hex c then ord c - ord "a"%char + 10
        else ord c - ord "A"%char + 10 in
      match r128__udiv128 lo (u64 digit) base with
      | None => None
      | Some (q, _) => parse_fraction base q rest
      end
  end.

(** The value and the end pointer, as the string from the end pointer
    on.  [None] is undefined behaviour: a divide error, or a read outside
    the string.  The source steps over the character at [s] when it equals
    [R128_decimal]; when that character is the terminating NUL (which
    takes [R128_decimal] to be NUL), [++s] leaves the string.  After the
    fraction digits the backward loop [for (--s; s >= exp; --s)] ends
    with [s = exp - 1], so the end pointer that is stored is at the
    decimal point. *)
Definition r128FromString (s : string) : option (R128 * string) :=
  let s := skip_space s in
  (* sign *)
  let '(sign, s) :=
    if (ord (peek s) =? ord "-"%char) then (true, advance s)
    else if (ord (peek s) =? ord "+"%char) then (false, advance s)
    else (false, s) in
  (* parse base prefix *)
  let '(base, s) :=
    if (ord (peek s) =? ord "0"%char)
       && ((ord (peek (advance s)) =? ord "x"%char)
           || (ord (peek (advance s)) =? ord "X"%char))
    then (16, advance (advance s)) else (10, s) in
  let '(hi, s) := parse_whole base 0 s in
  (* fractional part *)
  let frac :=
    if (ord (peek s) =? ord R128_decimal) then
      if (ord (peek s) =? 0) then None
      else
        let '(run, _) := scan_fraction base (advance s) in
        match parse_fraction base 0 (rev run) with
        | None => None
        | Some lo => Some (lo, s)
        end
    else Some (0, s) in
  match frac with
  | None => None
  | Some (lo, s) =>
      let dst := R128_SET2 lo hi in
      let dst := if sign then r128Neg dst else dst in
      Some (dst, s)
  end.
End Decimal.

(** *** The value of a digit string

    The unbounded integer a run of digits denotes, for stating what the
    64-bit accumulator of the parser holds. *)

Definition digit_value (c : ascii) : Z :=
  if is_digit c then ord c - ord "0"%char
  else if is_lower_hex c then ord c - ord "a"%char + 10
  else ord c - ord "A"%char + 10.

(** The characters the whole-part loop accepts in base [base]. *)
Definition is_base_digit (base : Z) (c : ascii) : bool :=
  is_digit c || ((base =? 16) && (is_lower_hex c || is_upper_hex c)).

Fixpoint all_base_digits (base : Z) (s : string) : bool :=
  match s with
  | EmptyString => true
  | String c s' => is_base_digit base c && all_base_digits base s'
  end.

Fixpoint string_value (base acc : Z) (s : string) : Z :=
  match s with
  | EmptyString => acc
  | String c s' => string_value base (acc * base + digit_value c) s'
  end.

(** ** Formatter *)

Inductive R128ToStringSign : Type :=
| R128ToStringSign_Default
| R128ToStringSign_Space
| R128ToStringSign_Plus.

Record R128ToStringFormat : Type := mkFormat {
  sign : R128ToStringSign;
  width : Z;
  precision : Z;
  zeroPad : Z;
  decimal : Z;
  leftAlign : Z
}.

Definition R128__defaultFormat : R128ToStringFormat :=
  {| sign := R128ToStringSign_Default; width := 0; precision := -1;
     zeroPad := 0; decimal := 0; leftAlign := 0 |}.

(** *** Writing to the destination buffer

    The state of the output is the remaining [dstSize] and the
    characters stored through [dstp] so far.  A computation either goes
    on ([Next]) or has jumped to the label [finish] ([Finish]), after
    which nothing more is written. *)

Record wstate : Type := mkW { dstSize : Z; dst : list ascii }.

Inductive flow (A : Type) : Type :=
| Next (a : A)
| Finish.
Arguments Next {A} a.
Arguments Finish {A}.

Definition W (A : Type) : Type := wstate -> flow A * wstate.

Definition ret {A : Type} (a : A) : W A := fun st => (Next a, st).

Definition bind {A B : Type} (m : W A) (f : A -> W B) : W B :=
  fun st =>
    match m st with
    | (Next a, st') => f a st'
    | (Finish, st') => (Finish, st')
    end.

Notation "x <- m ;; f" := (bind m (fun x => f))
  (at level 61, m at next level, right associativity).
Notation "m ;;; f" := (bind m (fun _ => f))
  (at level 61, right associativity).

(** [if (dstSize-- == 1) goto finish; *dstp++ = c;] *)
Definition R128__WRITE (c : ascii) : W unit :=
  fun st =>
    if dstSize st =? 1 then
      (Finish, {| dstSize := u64 (dstSize st - 1); dst := dst st |})
    else
      (Next tt, {| dstSize := u64 (dstSize st - 1); dst := dst st ++ [c] |}).

(** [for (; padCnt > 0; --padCnt) R128__WRITE (padChar)]: the value of
    [padCnt] after the loop. *)
Fixpoint pad_loop (fuel : nat) (padChar : ascii) (padCnt : Z) : W Z :=
  match fuel with
  | O => ret padCnt
  | S fuel' =>
      if padCnt >? 0 then
        R128__WRITE padChar ;;; pad_loop fuel' padChar (padCnt - 1)
      else ret padCnt
  end.

Definition pad (padChar : ascii) (padCnt : Z) : W Z :=
  pad_loop (Z.to_nat padCnt) padChar padCnt.

(** [while (trail--) R128__WRITE ('0')], for [trail >= 0]. *)
Fixpoint trail_loop (trail : nat) : W unit :=
  match trail with
  | O => ret tt
  | S trail' => R128__WRITE "0"%char ;;; trail_loop trail'
  end.

(** A loop that writes the characters of [l] in order. *)
Fixpoint write_chars (l : list ascii) : W unit :=
  match l with
  | [] => ret tt
  | c :: l' => R128__WRITE c ;;; write_chars l'
  end.

(** The sign character, or [++padCnt] when there is none: the value of
    [padCnt] afterwards. *)
Definition write_sign (sgn : bool) (format : R128ToStringFormat)
    (padCnt : Z) : W Z :=
  if sgn then R128__WRITE "-"%char ;;; ret padCnt
  else
    match sign format with
    | R128ToStringSign_Plus => R128__WRITE "+"%char ;;; ret padCnt
    | R128ToStringSign_Space => R128__WRITE " "%char ;;; ret padCnt
    | R128ToStringSign_Default => ret (padCnt + 1)
    end.

(** *** Digit generation *)

(** round up, propagate carry backwards: [rdigits] is the fractional
    buffer from [cursor - 1] down to [buf]; the flag tells that the carry
    left the buffer. *)
Fixpoint carry_back (rdigits : list ascii) : list ascii * bool :=
  match rdigits with
  | [] => ([], true)
  | c :: rest =>
      let d := chr (ord c + 1) in
      if ord d <=? ord "9"%char then (d :: rest, false)
      else
        let '(rest', out) := carry_back rest in
        ("0"%char :: rest', out)
  end.

(** The loop over the fractional digits.  [k] is
    [precision - (cursor - buf)], zero exactly when the source finds
    [(int)(cursor - buf) == precision]; [buf] is the buffer up to
    [cursor].  Returns the buffer and [whole]. *)
Fixpoint frac_loop (k : nat) (fullPrecision : bool) (precision : Z)
    (tlo : Z) (buf : list ascii) (whole : Z) : list ascii * Z :=
  if negb (tlo =? 0) || (fullPrecision && negb (precision =? 0)) then
    match k with
    | O =>
        if s64 tlo <? 0 then
          let '(r, out) := carry_back (rev buf) in
          (rev r, if out then u64 (whole + 1) else whole)
        else (buf, whole)
    | S k' =>
        let tmp := r128__umul128 tlo 10 in
        frac_loop k' fullPrecision precision (lo tmp)
          (buf ++ [chr (hi tmp + ord "0"%char)]) whole
    end
  else (buf, whole).

(** [do { ... } while (whole)]: a 64-bit [whole] has at most twenty
    decimal digits. *)
Fixpoint whole_loop (fuel : nat) (whole : Z) (buf : list ascii)
    : list ascii :=
  match fuel with
  | O => buf
  | S fuel' =>
      let digit := whole mod 10 in
      let whole := whole / 10 in
      let buf := buf ++ [chr (digit + ord "0"%char)] in
      if negb (whole =? 0) then whole_loop fuel' whole buf else buf
  end.

Section Format.
(** The global [R128_decimal]. *)
Variable R128_decimal : ascii.

(** Everything up to the definition of [R128__WRITE]: the scratch
    buffer [buf] up to [cursor], the index of [decimal] in it, [sign],
    [width] and [trail]. *)
Definition format_digits (v : R128) (format : R128ToStringFormat)
    : list ascii * nat * bool * Z * Z :=
  let tmp := r128Copy v in
  let '(tmp, sgn) :=
    if r128IsNeg tmp then (r128Neg tmp, true) else (tmp, false) in
  let width := if width format <? 0 then 0 else width format in
  let '(fullPrecision, precision, trail) :=
    if precision format <? 0 then (false, 20, 0)
    else if precision format >? 128 - 21 then
      let trail := precision format - (128 - 21) in
      (true, precision format - trail, trail)
    else (true, precision format, 0) in
  let whole := hi tmp in
  let '(buf, decimal_ix, whole) :=
    if negb (lo tmp =? 0) || negb (decimal format =? 0) then
      let '(buf, whole) :=
        frac_loop (Z.to_nat precision) fullPrecision precision
          (lo tmp) [] whole in
      if negb (decimal format =? 0) || negb (precision =? 0) then
        (buf ++ [R128_decimal], List.length buf, whole)
      else (buf, O, whole)
    else ([], O, whole) in
  let buf := whole_loop 20 whole buf in
  (buf, decimal_ix, sgn, width, trail).

(** From the definition of [R128__WRITE] to the label [finish]. *)
Definition format_emit (format : R128ToStringFormat) (buf : list ascii)
    (decimal_ix : nat) (sgn : bool) (width trail : Z) : W unit :=
  let padCnt := width - Z.of_nat (List.length buf) - 1 in
  (* left padding *)
  padCnt <-
    (if negb (negb (leftAlign format =? 0)) then
       let padChar :=
         if negb (zeroPad format =? 0) then "0"%char else " "%char in
       padCnt <-
         (if negb (zeroPad format =? 0) then write_sign sgn format padCnt
          else ret padCnt) ;;
       pad padChar padCnt
     else ret padCnt) ;;
  padCnt <-
    (if negb (leftAlign format =? 0) || negb (negb (zeroPad format =? 0))
     then write_sign sgn format padCnt
     else ret padCnt) ;;
  (* reverse the whole part *)
  write_chars (rev (skipn decimal_ix buf)) ;;;
  (* copy the fractional part *)
  write_chars (firstn decimal_ix buf) ;;;
  (* right padding *)
  (if negb (leftAlign format =? 0) then
     let padChar :=
       if negb (zeroPad format =? 0) then "0"%char else " "%char in
     pad padChar padCnt
   else ret padCnt) ;;;
  (* trailing zeroes for very large precision *)
  trail_loop (Z.to_nat trail).

(** The bytes stored in [dst], the terminating NUL included, and the
    returned [int].  Precondition (an assertion of the source):
    [dstSize > 0]. *)
Definition r128__format (dstSize : Z) (v : R128)
    (format : R128ToStringFormat) : list ascii * Z :=
  let '(buf, decimal_ix, sgn, width, trail) := format_digits v format in
  let '(_, st) :=
    format_emit format buf decimal_ix sgn width trail
      {| dstSize := dstSize; dst := [] |} in
  (dst st ++ [zero], s32 (Z.of_nat (List.length (dst st)))).

Definition r128ToStringOpt (dstSize : Z) (v : R128)
    (opt : R128ToStringFormat) : list ascii * Z :=
  r128__format dstSize v opt.

Definition r128ToString (dstSize : Z) (v : R128) : list ascii * Z :=
  r128__format dstSize v R128__defaultFormat.
End Format.

(** Formatting with the default format into a buffer of the documented
    43 bytes, then parsing the C string left in the buffer. *)
Definition round_trip (R128_decimal : ascii) (v : R128)
    : option (R128 * string) :=
  r128FromString R128_decimal
    (c_string (fst (r128ToString R128_decimal 43 v))).

(** *** What the formatter is to write

    The text the emission phase produces when the destination is large
    enough, stated apart from the code, and the meaning of "a computation
    writes the text [l] and yields [a]": with room for [l] it stores all
    of [l]; otherwise it stores what fits before the terminator and jumps
    to [finish]. *)

Definition sign_chars (sgn : bool) (format : R128ToStringFormat)
    : list ascii :=
  if sgn then ["-"%char]
  else
    match sign format with
    | R128ToStringSign_Plus => ["+"%char]
    | R128ToStringSign_Space => [" "%char]
    | R128ToStringSign_Default => []
    end.

Definition sign_pad (sgn : bool) (format : R128ToStringFormat)
    (padCnt : Z) : Z :=
  match sign_chars sgn format with
  | [] => padCnt + 1
  | _ => padCnt
  end.

Definition format_text (format : R128ToStringFormat) (buf : list ascii)
    (decimal_ix : nat) (sgn : bool) (width trail : Z) : list ascii :=
  let padCnt := width - Z.of_nat (List.length buf) - 1 in
  let padChar := if negb (zeroPad format =? 0) then "0"%char else " "%char in
  let digits := rev (skipn decimal_ix buf) ++ firstn decimal_ix buf in
  let zeros := repeat "0"%char (Z.to_nat trail) in
  if negb (leftAlign format =? 0) then
    sign_chars sgn format ++ digits
      ++ repeat padChar (Z.to_nat (sign_pad sgn format padCnt)) ++ zeros
  else if negb (zeroPad format =? 0) then
    sign_chars sgn format
      ++ repeat "0"%char (Z.to_nat (sign_pad sgn format padCnt))
      ++ digits ++ zeros
  else
    repeat " "%char (Z.to_nat padCnt) ++ sign_chars sgn format
      ++ digits ++ zeros.

Definition writes {A : Type} (m : W A) (l : list ascii) (a : A) : Prop :=
  forall st : wstate,
    1 <= dstSize st < two64 ->
    m st =
      if Z.of_nat (List.length l) <? dstSize st then
        (Next a,
         {| dstSize := dstSize st - Z.of_nat (List.length l);
            dst := dst st ++ l |})
      else
        (Finish,
         {| dstSize := 0;
            dst := dst st ++ firstn (Z.to_nat (dstSize st - 1)) l |}).

(** ** Further operations

    [r128Or], [r128And], [r128Xor], the arithmetic shift, [r128Min] and
    [r128Max], the modulo and the printf-style front end of the
    formatter. *)

Definition r128Or (a b : R128) : R128 :=
  {| lo := Z.lor (lo a) (lo b); hi := Z.lor (hi a) (hi b) |}.

Definition r128And (a b : R128) : R128 :=
  {| lo := Z.land (lo a) (lo b); hi := Z.land (hi a) (hi b) |}.

Definition r128Xor (a b : R128) : R128 :=
  {| lo := Z.lxor (lo a) (lo b); hi := Z.lxor (hi a) (hi b) |}.

(** The portable C branch.  [>>] on an [R128_S64] is the arithmetic
    shift and [<<] on an [R128_S64] keeps the low 64 bits of the shifted
    bit pattern, as GCC and Clang define them. *)
Definition r128Sar (src : R128) (amount : Z) : R128 :=
  let r2 := lo src in
  let r3 := hi src in
  let amount := Z.land amount 127 in
  if amount >=? 64 then
    {| lo := u64 (Z.shiftr (s64 r3) (amount - 64));
       hi := u64 (Z.shiftr (s64 r3) 63) |}
  else if negb (amount =? 0) then
    {| lo := Z.lor (Z.shiftr r2 amount)
               (u64 (s64 (Z.shiftl (s64 r3) (64 - amount))));
       hi := u64 (Z.shiftr (s64 r3) amount) |}
  else {| lo := r2; hi := r3 |}.

Definition r128Min (a b : R128) : R128 :=
  if r128Cmp a b <? 0 then r128Copy a else r128Copy b.

Definition r128Max (a b : R128) : R128 :=
  if r128Cmp a b >? 0 then r128Copy a else r128Copy b.

(** The integer part of the quotient of magnitudes: the first digit of
    the long division.  [None] is a failed assertion or a divide
    error. *)
Definition r128__umod (n d : R128) : option Z :=
  if (hi d =? 0) && (lo d =? 0) then None   (* R128_ASSERT *)
  else
    match r128__norm n d with
    | NormOverflow => Some 0xffffffffffffffff
    | NormOk n d n3 =>
        let d1 := hi d in
        let d0 := lo d in
        let n2 := hi n in
        let n1 := lo n in
        udiv_digit n2 n3 d1 d0 n1 n1
    end.

Definition r128Mod (a b : R128) : option R128 :=
  let tn := r128Copy a in
  let td := r128Copy b in
  let '(tn, sign) :=
    if r128IsNeg tn then (r128Neg tn, true) else (tn, false) in
  if (lo td =? 0) && (hi td =? 0) then
    (* divide by zero *)
    if sign then Some (r128Copy R128_min) else Some (r128Copy R128_max)
  else
    let '(td, sign) :=
      if r128IsNeg td then (r128Neg td, negb sign) else (td, sign) in
    match r128__umod tn td with
    | None => None
    | Some q =>
        let tq := {| lo := 0; hi := q |} in
        let tq :=
          if sign then {| lo := lo tq; hi := u64 (not64 (hi tq) + 1) |}
          else tq in
        let tq := r128Mul tq b in
        Some (r128Sub a tq)
    end.

(** ** Numerals

    The strings the parser is meant for, and the value each denotes:
    an optional minus sign, ["0x"] in base 16, a run of digits, and
    optionally the separator ["."] and a second run of digits, followed by
    any text [rest].  The whole part is taken modulo [2^64] and the
    fraction is rounded down to a multiple of [2^-64]. *)

Definition is_space (c : ascii) : bool :=
  (ord c =? ord " "%char) || (ord c =? 9) || (ord c =? 13)
  || (ord c =? 10) || (ord c =? 11).

Definition numeral (neg : bool) (base : Z) (whole : string)
    (frac : option string) (rest : string) : string :=
  ((if neg then "-" else "") ++ (if (base =? 16)%Z then "0x" else "")
   ++ whole
   ++ match frac with
      | Some digits => String "."%char (digits ++ rest)
      | None => rest
      end)%string.

(** Where the parser leaves the end pointer on a numeral: at the
    decimal point when there is one, at the text after the digits
    otherwise. *)
Definition numeral_tail (frac : option string) (rest : string) : string :=
  match frac with
  | Some digits => String "."%char (digits ++ rest)
  | None => rest
  end.

Definition numeral_value (neg : bool) (base : Z) (whole : string)
    (frac : option string) : R128 :=
  let v :=
    {| lo :=
         match frac with
         | Some digits =>
             string_value base 0 digits * two64
             / base ^ Z.of_nat (String.length digits)
         | None => 0
         end;
       hi := string_value base 0 whole mod two64 |} in
  if neg then r128Neg v else v.

(** The end pointer [rest] lies in the string [s]: [s] is some consumed
    text followed by [rest]. *)
Definition ends_with (s rest : string) : Prop :=
  exists consumed : string, s = (consumed ++ rest)%string.

Definition all_spaces (s : string) : bool :=
  forallb is_space (list_ascii_of_string s).

(** The number of characters the formatter needs at most: the digits
    kept in the scratch buffer (the fraction digits, at most 107 of them
    and 20 without a precision, the decimal point and 20 digits of the
    whole part) with the sign, or the width when that is more, and the
    zeros the formatter appends for a precision above 107. *)
Definition text_bound (format : R128ToStringFormat) : Z :=
  let p := if precision format <? 0 then 20
           else Z.min (precision format) 107 in
  Z.max (width format) (p + 22) + Z.max 0 (precision format - 107).

(** ** The printf-style front end

    [r128ToStringf] reads the flags, the width and the precision from the
    format string and calls [r128__format].  The fields are [int]s:
    [opts.width * 10 + *format++ - '0'] is evaluated in [int], and a step
    that leaves the range of [int] is undefined; that is [None]. *)

Definition int_ok (x : Z) : bool := (- 2 ^ 31 <=? x) && (x <? 2 ^ 31).

(** flags field *)
Fixpoint flags_field (s : string) (opts : R128ToStringFormat)
    : R128ToStringFormat * string :=
  match s with
  | String c s' =>
      if (ord c =? ord " "%char)
         && match sign opts with
            | R128ToStringSign_Plus => false
            | _ => true
            end
      then flags_field s'
             (mkFormat R128ToStringSign_Space (width opts) (precision opts)
                (zeroPad opts) (decimal opts) (leftAlign opts))
      else if ord c =? ord "+"%char then
        flags_field s'
          (mkFormat R128ToStringSign_Plus (width opts) (precision opts)
             (zeroPad opts) (decimal opts) (leftAlign opts))
      else if ord c =? ord "0"%char then
        flags_field s'
          (mkFormat (sign opts) (width opts) (precision opts)
             1 (decimal opts) (leftAlign opts))
      else if ord c =? ord "-"%char then
        flags_field s'
          (mkFormat (sign opts) (width opts) (precision opts)
             (zeroPad opts) (decimal opts) 1)
      else if ord c =? ord "#"%char then
        flags_field s'
          (mkFormat (sign opts) (width opts) (precision opts)
             (zeroPad opts) 1 (leftAlign opts))
      else (opts, s)
  | EmptyString => (opts, s)
  end.

(** width field, precision field: the value and the rest of the
    string *)
Fixpoint int_field (s : string) (n : Z) : option (Z * string) :=
  match s with
  | String c s' =>
      if (ord "0"%char <=? ord c) && (ord c <=? ord "9"%char) then
        if int_ok (n * 10) && int_ok (n * 10 + ord c)
           && int_ok (n * 10 + ord c - ord "0"%char)
        then int_field s' (n * 10 + ord c - ord "0"%char)
        else None
      else Some (n, s)
  | EmptyString => Some (n, s)
  end.

Definition r128ToStringf (R128_decimal : ascii) (dstSize : Z)
    (format : string) (v : R128) : option (list ascii * Z) :=
  let opts := R128__defaultFormat in
  let format :=
    if ord (peek format) =? ord "%"%char then advance format else format in
  let '(opts, format) := flags_field format opts in
  match int_field format 0 with
  | None => None
  | Some (w, format) =>
      let opts := (mkFormat (sign opts) w (precision opts) (zeroPad opts)
                    (decimal opts) (leftAlign opts)) in
      if ord (peek format) =? ord "."%char then
        match int_field (advance format) 0 with
        | None => None
        | Some (p, _) =>
            Some (r128__format R128_decimal dstSize v
                    (mkFormat (sign opts) (width opts) p (zeroPad opts)
                       (decimal opts) (leftAlign opts)))
        end
      else Some (r128__format R128_decimal dstSize v opts)
  end.

(** A directive in the usual order of its parts: ["%"], the flags, the
    width, the precision after a point, and what follows it (the
    conversion character and the rest of the format string). *)
Definition directive (sg : R128ToStringSign) (zero left alt : bool)
    (w : string) (p : option string) (rest : string) : string :=
  ("%" ++ match sg with
          | R128ToStringSign_Default => ""
          | R128ToStringSign_Space => " "
          | R128ToStringSign_Plus => "+"
          end
   ++ (if zero then "0" else "") ++ (if left then "-" else "")
   ++ (if alt then "#" else "") ++ w
   ++ match p with
      | Some digits => String "."%char (digits ++ rest)
      | None => rest
      end)%string.

Definition directive_format (sg : R128ToStringSign) (zero left alt : bool)
    (w : string) (p : option string) : R128ToStringFormat :=
  mkFormat sg (string_value 10 0 w)
    match p with
    | Some digits => string_value 10 0 digits
    | None => -1
    end
    (if zero then 1 else 0) (if alt then 1 else 0) (if left then 1 else 0).

(** The format with another [width]. *)
Definition with_width (w : Z) (format : R128ToStringFormat)
    : R128ToStringFormat :=
  mkFormat (sign format) w (precision format) (zeroPad format)
    (decimal format) (leftAlign format).

(** * Properties *)

(** ** Machine arithmetic *)

Ltac consts :=
  unfold two128, two64, two63 in *;
  change (2 ^ 128) with 340282366920938463463374607431768211456 in *;
  change (2 ^ 64) with 18446744073709551616 in *;
  change (2 ^ 63) with 9223372036854775808 in *.

Ltac zarith := consts; Z.div_mod_to_equations; lia.

Lemma u64_range (x : Z) : 0 <= u64 x < two64.
Proof. unfold u64. zarith. Qed.

Lemma u64_small (x : Z) : 0 <= x < two64 -> u64 x = x.
Proof. unfold u64. intros. apply Z.mod_small. assumption. Qed.

Lemma not64_eq (x : Z) : 0 <= x < two64 -> not64 x = two64 - 1 - x.
Proof. unfold not64, u64, Z.lnot. intros. zarith. Qed.

Lemma s64_small (x : Z) : 0 <= x < two63 -> s64 x = x.
Proof.
  intros H. unfold s64.
  rewrite u64_small by (consts; lia).
  destruct (x <? two63) eqn:E; [reflexivity | apply Z.ltb_ge in E; lia].
Qed.

Lemma s64_large (x : Z) : two63 <= x < two64 -> s64 x = x - two64.
Proof.
  intros H. unfold s64.
  rewrite u64_small by (consts; lia).
  destruct (x <? two63) eqn:E; [apply Z.ltb_lt in E; lia | reflexivity].
Qed.

Lemma r128Copy_id (v : R128) : r128Copy v = v.
Proof. destruct v. reflexivity. Qed.

Lemma r128Neg_wf (v : R128) : wf (r128Neg v).
Proof. unfold r128Neg, addcarry_u64, wf. simpl. split; apply u64_range. Qed.

(** Two's-complement negation is an involution on well-formed values. *)
Lemma r128Neg_involutive (v : R128) : wf v -> r128Neg (r128Neg v) = v.
Proof.
  destruct v as [l h]. unfold wf. simpl. intros [Hl Hh].
  unfold r128Neg, addcarry_u64, not64, u64, Z.lnot. cbn [lo hi].
  f_equal; zarith.
Qed.

(** ** Multiplication *)

Lemma r128__umul_one (a : R128) : wf a -> r128__umul a R128_one = a.
Proof.
  destruct a as [l h]. unfold wf, r128__umul, R128_one. cbn [lo hi].
  intros [Hl Hh].
  rewrite !Z.mul_0_r, !Z.mul_1_r.
  rewrite (Z.mod_small l two128), (Z.mod_small h two128) by (consts; lia).
  rewrite Z.mod_0_l by (consts; lia).
  change (u64 0) with 0. change (Z.shiftr 0 64) with 0.
  change (Z.shiftr 0 63) with 0.
  rewrite Z.shiftl_mul_pow2 by lia. fold two64.
  rewrite !Z.add_0_r.
  assert (E : (h * two64 + l) mod two128 = h * two64 + l).
  { apply Z.mod_small. consts. lia. }
  rewrite E. rewrite Z.shiftr_div_pow2 by lia. fold two64.
  f_equal; unfold u64; zarith.
Qed.

(** C7.  [R128_one] is a multiplicative identity: [r128Mul v R128_one]
    is [v] for every value [v] whose halves are 64-bit words, the
    extremes [R128_min] and [R128_max] included. *)
Theorem r128Mul_one_r (v : R128) : wf v -> r128Mul v R128_one = v.
Proof.
  intros Hv. unfold r128Mul. rewrite !r128Copy_id.
  change (r128IsNeg R128_one) with false.
  destruct (r128IsNeg v).
  - cbv iota beta. simpl negb.
    rewrite r128__umul_one by apply r128Neg_wf.
    rewrite r128Copy_id. apply r128Neg_involutive. assumption.
  - cbv iota beta.
    rewrite r128__umul_one by assumption.
    apply r128Copy_id.
Qed.

Lemma r128Mul_one_r_witness :
  wf R128_min /\ r128Mul R128_min R128_one = R128_min.
Proof.
  assert (H : wf R128_min) by (unfold wf, R128_min; simpl; consts; lia).
  split; [exact H | exact (r128Mul_one_r R128_min H)].
Defined.

(** ** Unsigned comparison *)

(** C2.  The unsigned comparison of the division kernels is not the
    lexicographic order on ([hi], [lo]): it answers [-1] for every pair
    of equal operands, where the order answers [0]; and it answers [-1]
    for [(1, 0)] against [(0, 1)], where the order answers a positive
    number. *)
Theorem r128__ucmp_not_lexicographic :
  (forall a : R128, r128__ucmp a a = -1) /\
  r128__ucmp {| lo := 0; hi := 1 |} {| lo := 1; hi := 0 |} = -1.
Proof.
  split.
  - intros a. unfold r128__ucmp.
    rewrite Z.eqb_refl.
    destruct (hi a >? hi a) eqn:E; [| reflexivity].
    rewrite Z.gtb_ltb, Z.ltb_irrefl in E. discriminate.
  - reflexivity.
Qed.

(** What the source computes: with equal [hi] halves the answer is
    [-1]; otherwise it is the comparison of the [lo] halves. *)
Lemma r128__ucmp_spec (a b : R128) :
  r128__ucmp a b =
    if hi a =? hi b then -1
    else match lo a ?= lo b with Eq => 0 | Gt => 1 | Lt => -1 end.
Proof.
  unfold r128__ucmp.
  destruct (hi a =? hi b) eqn:E.
  - apply Z.eqb_eq in E. rewrite E.
    rewrite Z.gtb_ltb, Z.ltb_irrefl. reflexivity.
  - destruct (Z.eqb_spec (lo a) (lo b)) as [El | El].
    + rewrite El, Z.compare_refl. reflexivity.
    + unfold Z.gtb. destruct (lo a ?= lo b) eqn:C; try reflexivity.
      apply Z.compare_eq in C. contradiction.
Qed.

(** ** Floor, ceiling and integer conversion *)

(** C4.  [r128Ceil] does not round toward plus infinity: every value
    [v] with [0 < v < 1] (that is, [hi = 0] and [lo <> 0]) is sent to
    [R128_zero] and not to [R128_one]; and minus one and a half is sent to
    minus two. *)
Theorem r128Ceil_below_one :
  (forall l : Z, r128Ceil {| lo := l; hi := 0 |} = R128_zero) /\
  r128Ceil {| lo := two63; hi := 0xfffffffffffffffe |} =
    {| lo := 0; hi := 0xfffffffffffffffe |}.
Proof. split; [intros l |]; reflexivity. Qed.

(** [r128ToInt] is the floor of the value denoted: the signed 128-bit
    integer divided by [2^64], rounded toward minus infinity. *)
Lemma r128ToInt_floor (v : R128) :
  wf v -> r128ToInt v = to_s128 v / two64.
Proof.
  unfold wf, r128ToInt, to_s128. intros [Hl Hh].
  generalize (s64 (hi v)). intros s. zarith.
Qed.

(** [r128FromInt] after [r128ToInt] keeps [hi] and clears [lo]. *)
Lemma r128FromInt_ToInt (v : R128) :
  wf v -> r128FromInt (r128ToInt v) = {| lo := 0; hi := hi v |}.
Proof.
  unfold wf, r128FromInt, r128ToInt, s64, u64. intros [Hl Hh].
  f_equal. destruct (hi v mod two64 <? two63); zarith.
Qed.

(** C8.  At minus one and a half, [hi = 0xfffffffffffffffe] and
    [lo = 2^63], [r128ToInt] is [-2], the floor, and converting back
    gives minus two; [r128Floor] gives minus three.  So
    [r128FromInt (r128ToInt v)] and [r128Floor v] differ. *)
Theorem r128Floor_negative_fraction :
  let v := {| lo := two63; hi := 0xfffffffffffffffe |} in
  r128ToInt v = -2 /\
  to_s128 v / two64 = -2 /\
  r128FromInt (r128ToInt v) = {| lo := 0; hi := 0xfffffffffffffffe |} /\
  r128Floor v = {| lo := 0; hi := 0xfffffffffffffffd |}.
Proof. repeat split; reflexivity. Qed.

(** What [r128Floor] computes on a negative value with a fraction
    (above [R128_min]'s integer part): one less than the floor. *)
Lemma r128Floor_negative (v : R128) :
  wf v -> two63 < hi v -> lo v <> 0 ->
  to_s128 (r128Floor v) = (to_s128 v / two64 - 1) * two64.
Proof.
  unfold wf, r128Floor, to_s128. intros [Hl Hh] Hs Hlo.
  rewrite (s64_large (hi v)) by lia.
  assert (E : (hi v - two64 <? 0) = true) by (apply Z.ltb_lt; lia).
  rewrite E.
  destruct (Z.eqb_spec (lo v) 0) as [? | _]; [contradiction |].
  cbn [negb lo hi].
  rewrite u64_small by (consts; lia).
  rewrite s64_large by (consts; lia). zarith.
Qed.

(** ** Division by zero *)

(** The sign test is the sign of the value denoted. *)
Lemma r128IsNeg_spec (v : R128) :
  wf v -> r128IsNeg v = (to_s128 v <? 0).
Proof.
  unfold wf, r128IsNeg, to_s128. intros [Hl Hh].
  generalize (s64 (hi v)). intros s.
  destruct (Z.ltb_spec s 0); destruct (Z.ltb_spec (s * two64 + lo v) 0);
    try reflexivity; consts; nia.
Qed.

(** C6.  Division by [R128_zero] saturates: the result is [R128_min]
    when the dividend is negative and [R128_max] otherwise, a zero
    dividend included; [R128_one] divided by zero is [R128_max], minus one
    divided by zero is [R128_min]. *)
Theorem r128Div_by_zero :
  (forall a : R128,
     r128Div a R128_zero =
       Some (if r128IsNeg a then R128_min else R128_max)) /\
  r128Div R128_zero R128_zero = Some R128_max /\
  r128Div R128_one R128_zero = Some R128_max /\
  r128Div (r128Neg R128_one) R128_zero = Some R128_min.
Proof.
  split; [| repeat split; reflexivity].
  intros a. unfold r128Div. rewrite !r128Copy_id.
  destruct (r128IsNeg a); reflexivity.
Qed.

(** ** Shifts *)

(** An "or" of a multiple of [2^a] with a number below [2^a] is their
    sum. *)
Lemma lor_disjoint (x y a : Z) :
  0 <= a -> 0 <= y < 2 ^ a -> Z.lor (x * 2 ^ a) y = x * 2 ^ a + y.
Proof.
  intros Ha Hy.
  assert (D : Z.land (x * 2 ^ a) y = 0).
  { apply Z.bits_inj'. intros n Hn.
    rewrite Z.land_spec, Z.bits_0.
    destruct (Z_lt_ge_dec n a) as [Hlt | Hge].
    - rewrite Z.mul_pow2_bits_low by lia. reflexivity.
    - assert (T : Z.testbit y n = false).
      { destruct (Z.eq_dec y 0) as [-> | Hy0]; [apply Z.bits_0 |].
        apply Z.bits_above_log2; [lia |].
        apply Z.log2_lt_pow2; [lia |].
        apply Z.lt_le_trans with (2 ^ a); [lia |].
        apply Z.pow_le_mono_r; lia. }
      rewrite T. apply andb_false_r. }
  rewrite <- Z.lxor_lor by assumption.
  symmetry. apply Z.add_nocarry_lxor. assumption.
Qed.

Lemma land_127 (k : Z) : Z.land k 127 = k mod 128.
Proof. change 127 with (Z.ones 7). rewrite Z.land_ones by lia. reflexivity. Qed.

Lemma pow2_split (a : Z) :
  0 < a < 64 -> 2 ^ a * 2 ^ (64 - a) = two64 /\ 0 < 2 ^ a /\ 0 < 2 ^ (64 - a).
Proof.
  intros H. rewrite <- Z.pow_add_r by lia.
  replace (a + (64 - a)) with 64 by lia.
  repeat split; try reflexivity; apply Z.pow_pos_nonneg; lia.
Qed.

(** A word shifted left by [a] and cut to 64 bits. *)
Lemma u64_shiftl (x a : Z) :
  0 < a < 64 -> u64 (Z.shiftl x a) = (x mod 2 ^ (64 - a)) * 2 ^ a.
Proof.
  intros H. destruct (pow2_split a H) as (E & HA & HB).
  unfold u64. rewrite Z.shiftl_mul_pow2 by lia.
  rewrite <- E, (Z.mul_comm (2 ^ a)).
  apply Z.mul_mod_distr_r; lia.
Qed.

(** [r128Shl] is multiplication by [2^(amount mod 128)] modulo [2^128]. *)
Lemma r128Shl_value (v : R128) (k : Z) :
  wf v ->
  to_u128 (r128Shl v k) = (to_u128 v * 2 ^ (k mod 128)) mod two128.
Proof.
  destruct v as [l h]. unfold wf, to_u128, r128Shl. cbn [lo hi].
  intros [Hl Hh]. rewrite land_127.
  assert (Ha : 0 <= k mod 128 < 128) by (apply Z.mod_pos_bound; lia).
  set (a := k mod 128) in *.
  assert (E128 : two128 = two64 * two64) by reflexivity.
  destruct (Z.geb_spec a 64) as [Hge | Hlt].
  - cbn [lo hi]. rewrite Z.shiftl_mul_pow2 by lia.
    set (P := 2 ^ (a - 64)).
    assert (HP : 0 < P) by (apply Z.pow_pos_nonneg; lia).
    replace (2 ^ a) with (P * two64).
    2:{ unfold P, two64. rewrite <- Z.pow_add_r by lia. f_equal. lia. }
    rewrite E128, Z.mul_assoc.
    rewrite Z.mul_mod_distr_r by (consts; lia).
    replace ((h * two64 + l) * P) with (l * P + h * P * two64) by ring.
    rewrite Z.mod_add by (consts; lia).
    unfold u64. ring.
  - destruct (Z.eqb_spec a 0) as [H0 | Hn0]; cbn [negb lo hi].
    + rewrite H0, Z.pow_0_r, Z.mul_1_r.
      symmetry. apply Z.mod_small. consts. lia.
    + assert (H : 0 < a < 64) by lia.
      destruct (pow2_split a H) as (E & HA & HB).
      rewrite !u64_shiftl by assumption.
      rewrite Z.shiftr_div_pow2 by lia.
      assert (Hlq : 0 <= l / 2 ^ (64 - a) < 2 ^ a).
      { split; [apply Z.div_pos; lia |].
        apply Z.div_lt_upper_bound; lia. }
      rewrite lor_disjoint by lia.
      set (A := 2 ^ a) in *. set (B := 2 ^ (64 - a)) in *.
      pose proof (Z.mod_pos_bound l B HB) as Hlr.
      pose proof (Z.mod_pos_bound h B HB) as Hhr.
      pose proof (Z.div_mod l B ltac:(lia)) as Dl.
      pose proof (Z.div_mod h B ltac:(lia)) as Dh.
      replace ((h * two64 + l) * A)
        with (((h mod B * A + l / B) * two64 + l mod B * A)
              + h / B * two128).
      2:{ rewrite E128, <- E.
          rewrite Dl at 3. rewrite Dh at 3. ring. }
      rewrite Z.mod_add by (consts; lia).
      symmetry. apply Z.mod_small.
      assert (0 <= h mod B * A + l / B < two64) by nia.
      assert (0 <= l mod B * A < two64) by nia.
      rewrite E128. nia.
Qed.

(** [r128Shr] is division by [2^(amount mod 128)]. *)
Lemma r128Shr_value (v : R128) (k : Z) :
  wf v ->
  to_u128 (r128Shr v k) = to_u128 v / 2 ^ (k mod 128).
Proof.
  destruct v as [l h]. unfold wf, to_u128, r128Shr. cbn [lo hi].
  intros [Hl Hh]. rewrite land_127.
  assert (Ha : 0 <= k mod 128 < 128) by (apply Z.mod_pos_bound; lia).
  set (a := k mod 128) in *.
  assert (H64 : 0 < two64) by (consts; lia).
  destruct (Z.geb_spec a 64) as [Hge | Hlt].
  - cbn [lo hi]. rewrite Z.shiftr_div_pow2 by lia.
    set (P := 2 ^ (a - 64)).
    assert (HP : 0 < P) by (apply Z.pow_pos_nonneg; lia).
    replace (2 ^ a) with (two64 * P).
    2:{ unfold P, two64. rewrite <- Z.pow_add_r by lia. f_equal. lia. }
    rewrite <- Z.div_div by lia.
    rewrite Z.div_add_l by lia.
    rewrite (Z.div_small l two64) by lia.
    rewrite Z.add_0_r. ring.
  - destruct (Z.eqb_spec a 0) as [H0 | Hn0]; cbn [negb lo hi].
    + rewrite H0, Z.pow_0_r, Z.div_1_r. reflexivity.
    + assert (H : 0 < a < 64) by lia.
      assert (H' : 0 < 64 - a < 64) by lia.
      destruct (pow2_split a H) as (E & HA & HB).
      rewrite u64_shiftl by assumption.
      replace (64 - (64 - a)) with a by lia.
      rewrite !Z.shiftr_div_pow2 by lia.
      assert (Hlq : 0 <= l / 2 ^ a < 2 ^ (64 - a)).
      { split; [apply Z.div_pos; lia |].
        apply Z.div_lt_upper_bound; lia. }
      rewrite Z.lor_comm, lor_disjoint by lia.
      set (A := 2 ^ a) in *. set (B := 2 ^ (64 - a)) in *.
      pose proof (Z.div_mod h A ltac:(lia)) as Dh.
      replace (h * two64 + l) with (h * B * A + l) by (rewrite <- E; ring).
      rewrite Z.div_add_l by lia.
      rewrite <- E. rewrite Dh at 3. ring.
Qed.

Lemma r128Shl_wf (v : R128) (k : Z) : wf v -> wf (r128Shl v k).
Proof.
  destruct v as [l h]. unfold wf, r128Shl. cbn [lo hi].
  intros [Hl Hh]. rewrite land_127.
  assert (Ha : 0 <= k mod 128 < 128) by (apply Z.mod_pos_bound; lia).
  set (a := k mod 128) in *.
  destruct (Z.geb_spec a 64) as [Hge | Hlt]; cbn [lo hi].
  - split; [consts; lia | apply u64_range].
  - destruct (Z.eqb_spec a 0) as [H0 | Hn0]; cbn [negb lo hi].
    + split; assumption.
    + split; [apply u64_range |].
      assert (H : 0 < a < 64) by lia.
      destruct (pow2_split a H) as (E & HA & HB).
      rewrite u64_shiftl by assumption.
      rewrite Z.shiftr_div_pow2 by lia.
      assert (Hlq : 0 <= l / 2 ^ (64 - a) < 2 ^ a).
      { split; [apply Z.div_pos; lia |].
        apply Z.div_lt_upper_bound; lia. }
      rewrite lor_disjoint by lia.
      set (A := 2 ^ a) in *. set (B := 2 ^ (64 - a)) in *.
      pose proof (Z.mod_pos_bound h B HB). nia.
Qed.

(** C5.  A negative amount does not turn one shift into the other:
    both functions reduce the amount modulo 128 and keep their
    direction.  For a well-formed [v] and [-127 <= k <= 127],
    [r128Shl v k] is [v * 2^(k mod 128)] modulo [2^128] and
    [r128Shr v (-k)] is [v / 2^((-k) mod 128)] on the unsigned 128-bit
    integer [hi:lo]; the two agree for [k = 0], where both are [v]. *)
Theorem shift_amount_mod_128 (v : R128) (k : Z) :
  wf v -> -127 <= k <= 127 ->
  to_u128 (r128Shl v k) = (to_u128 v * 2 ^ (k mod 128)) mod two128 /\
  to_u128 (r128Shr v (- k)) = to_u128 v / 2 ^ ((- k) mod 128) /\
  (k = 0 -> r128Shl v k = v /\ r128Shr v (- k) = v).
Proof.
  intros Hv Hk. split; [| split].
  - apply r128Shl_value. assumption.
  - apply r128Shr_value. assumption.
  - intros ->. destruct v. split; reflexivity.
Qed.

Lemma shift_amount_mod_128_witness :
  wf R128_one /\ -127 <= 1 <= 127 /\
  to_u128 (r128Shl R128_one 1)
    = (to_u128 R128_one * 2 ^ (1 mod 128)) mod two128 /\
  to_u128 (r128Shr R128_one (- (1)))
    = to_u128 R128_one / 2 ^ ((- (1)) mod 128) /\
  (1 = 0 ->
   r128Shl R128_one 1 = R128_one /\ r128Shr R128_one (- (1)) = R128_one).
Proof.
  assert (Hv : wf R128_one) by (unfold wf, R128_one; simpl; consts; lia).
  assert (Hk : -127 <= 1 <= 127) by lia.
  split; [exact Hv |]. split; [exact Hk |].
  exact (shift_amount_mod_128 R128_one 1 Hv Hk).
Defined.

(** At [v = R128_one] and [k = 1] the left shift by [k] is two and the
    right shift by [-k], a right shift by 127, is zero. *)
Lemma shl_shr_negated_differ :
  wf R128_one /\ -127 <= 1 <= 127 /\
  r128Shl R128_one 1 = {| lo := 0; hi := 2 |} /\
  r128Shr R128_one (- (1)) = R128_zero /\
  r128Shl R128_one 1 <> r128Shr R128_one (- (1)).
Proof.
  split; [unfold wf, R128_one; simpl; consts; lia |].
  split; [lia |].
  split; [reflexivity |].
  split; [reflexivity |].
  vm_compute. discriminate.
Qed.

(** ** The refinement loop of the division *)

Section LoopFacts.
Context {S R : Type}.
Variable step : S -> S + R.
Variable measure : S -> Z.
Hypothesis measure_nonneg : forall s, 0 <= measure s.
Hypothesis measure_decreases :
  forall s s', step s = inl s' -> measure s' < measure s.

Lemma loops_to_deterministic (s : S) (r r' : R) :
  loops_to step s r -> loops_to step s r' -> r = r'.
Proof.
  intros H. revert r'.
  induction H as [s r E | s s1 r E _ IH]; intros r' H'.
  - inversion H' as [s0 r0 E' | s0 s1 r0 E' _]; subst; congruence.
  - inversion H' as [s0 r0 E' | s0 s2 r0 E' H2]; subst.
    + congruence.
    + apply IH. replace s1 with s2 by congruence. assumption.
Qed.

Lemma run_inl_loops (d : nat) :
  forall s s', run step d s = inl s' ->
    measure s' + 2 ^ Z.of_nat d <= measure s /\
    forall r, loops_to step s' r -> loops_to step s r.
Proof.
  induction d as [| d IH]; intros s s' E.
  - simpl in E. split.
    + apply measure_decreases in E. simpl. lia.
    + intros r Hr. eapply loops_next; eassumption.
  - simpl in E. destruct (run step d s) as [s1 | r1] eqn:E1; [| discriminate].
    destruct (IH _ _ E1) as [M1 L1]. destruct (IH _ _ E) as [M2 L2].
    split.
    + rewrite Nat2Z.inj_succ, Z.pow_succ_r by lia. lia.
    + intros r Hr. apply L1, L2, Hr.
Qed.

Lemma run_inr_loops (d : nat) :
  forall s r, run step d s = inr r -> loops_to step s r.
Proof.
  induction d as [| d IH]; intros s r E.
  - apply loops_exit. exact E.
  - simpl in E. destruct (run step d s) as [s1 | r1] eqn:E1.
    + destruct (run_inl_loops _ _ _ E1) as [_ L]. apply L, IH, E.
    + inversion E; subst. apply IH, E1.
Qed.

(** Enough iterations: the loop leaves, with the value the relation
    gives. *)
Lemma run_total (d : nat) (s : S) :
  measure s < 2 ^ Z.of_nat d ->
  exists r, run step d s = inr r /\ loops_to step s r.
Proof.
  intros Hm. destruct (run step d s) as [s' | r] eqn:E.
  - destruct (run_inl_loops _ _ _ E) as [M _].
    pose proof (measure_nonneg s'). lia.
  - exists r. split; [reflexivity | apply run_inr_loops with d; exact E].
Qed.
End LoopFacts.

Lemma refine_measure_bound (s : Z * Z) :
  0 <= refine_measure s < 2 ^ Z.of_nat 66.
Proof.
  unfold refine_measure.
  change (2 ^ Z.of_nat 66) with (4 * two64).
  destruct (snd s <? 0) eqn:E1; [consts; lia |].
  destruct (snd s <? two64) eqn:E2; [| consts; lia].
  apply Z.ltb_ge in E1. apply Z.ltb_lt in E2. consts. lia.
Qed.

(** A pass that loops back has decremented [q] and added [n1] to
    [t0.hi] without leaving 64 bits. *)
Lemma refine_step_inl (d0 n1 t0lo q r q' r' : Z) :
  refine_step d0 n1 t0lo (q, r) = inl (q', r') ->
  q' = u64 (q - 1) /\ r' = u64 (r + n1) /\ r < u64 (not64 n1 + 1).
Proof.
  unfold refine_step.
  destruct (r128__ucmp _ _ >? 0); [| discriminate].
  destruct (Z.ltb_spec r (u64 (not64 n1 + 1))); [| discriminate].
  intros E. inversion E. auto.
Qed.

Lemma refine_measure_decreases (d0 n1 t0lo : Z) (s s' : Z * Z) :
  refine_step d0 n1 t0lo s = inl s' -> refine_measure s' < refine_measure s.
Proof.
  destruct s as [q r], s' as [q' r']. intros E.
  apply refine_step_inl in E. destruct E as (_ & -> & Hlt).
  unfold refine_measure. cbn [snd].
  pose proof (u64_range (r + n1)) as B.
  destruct (Z.ltb_spec (u64 (r + n1)) 0); [lia |].
  destruct (Z.ltb_spec (u64 (r + n1)) two64); [| lia].
  pose proof (u64_range (not64 n1 + 1)) as C.
  destruct (Z.ltb_spec r 0) as [| Hr0]; [lia |].
  destruct (Z.ltb_spec r two64); [| lia].
  assert (r < u64 (r + n1)); [| lia].
  revert Hlt. unfold not64, u64, Z.lnot. clear - Hr0. intros. zarith.
Qed.

(** The loop always leaves: [refine] is the value the [goto] loop
    leaves with. *)
Lemma refine_loops (d0 n1 t0lo q r : Z) :
  loops_to (refine_step d0 n1 t0lo) (q, r) (refine d0 n1 t0lo q r).
Proof.
  unfold refine.
  destruct (run_total (refine_step d0 n1 t0lo) refine_measure
              (fun s => proj1 (refine_measure_bound s))
              (refine_measure_decreases d0 n1 t0lo) 66 (q, r)
              (proj2 (refine_measure_bound (q, r)))) as (x & E & L).
  rewrite E. exact L.
Qed.

(** The unfolding of the loop, as the source reads. *)
Lemma refine_unfold (d0 n1 t0lo q r : Z) :
  refine d0 n1 t0lo q r =
    match refine_step d0 n1 t0lo (q, r) with
    | inl (q', r') => refine d0 n1 t0lo q' r'
    | inr q' => q'
    end.
Proof.
  pose proof (refine_loops d0 n1 t0lo q r) as L.
  destruct (refine_step d0 n1 t0lo (q, r)) as [[q' r'] | q'] eqn:E.
  - eapply loops_to_deterministic; [exact L |].
    eapply loops_next; [exact E | apply refine_loops].
  - eapply loops_to_deterministic; [exact L |].
    apply loops_exit. exact E.
Qed.

(** C3.  The high quotient digit is not the true digit, in both
    directions.

    Two divided by [{hi = 1, lo = 2^64 - 1}], the value below two.
    After normalisation [n3:n2:n1] is [1 : 0 : 0] and [d1:d0] is
    [2^64 - 1 : 2^63].  The trial digit is 1 with [r = 1], and
    [q1 * d0 = 2^63] does not exceed [(r:n1) = 2^64], so 1 is the true
    digit; [r128__ucmp] compares the [lo] halves because the [hi] halves
    differ and answers 1, the loop decrements, and the division returns
    [R128_zero] for a quotient just above one.

    [R128_one] divided by [{hi = 1, lo = 1}].  After normalisation
    [n3:n2:n1] is [0 : 2^63 : 0] and [d1:d0] is [2^63 : 2^63].  The
    trial digit is 1 with [r = 0], and [q1 * d0 = 2^63] exceeds
    [(r:n1) = 0], so the true digit is 0; [r128__ucmp] answers [-1]
    because the [hi] halves agree, and the loop leaves with 1.  The
    second digit then starts from a partial remainder above the divisor
    and the division stops on the assertion [n2 < d1] (a divide error
    without assertions). *)
Theorem udiv_high_digit_wrong :
  (r128__norm {| lo := 0; hi := 2 |} {| lo := two64 - 1; hi := 1 |}
     = NormOk {| lo := 0; hi := 0 |} {| lo := two63; hi := two64 - 1 |} 1 /\
   r128__udiv128 0 1 (two64 - 1) = Some (1, 1) /\
   r128__ucmp (r128__umul128 1 two63) {| lo := 0; hi := 1 |} = 1 /\
   udiv_digit 0 1 (two64 - 1) two63 0 0 = Some 0 /\
   true_digit 1 0 0 (two64 - 1) two63 = 1 /\
   r128Div {| lo := 0; hi := 2 |} {| lo := two64 - 1; hi := 1 |}
     = Some R128_zero) /\
  (r128__norm R128_one {| lo := 1; hi := 1 |}
     = NormOk {| lo := 0; hi := two63 |} {| lo := two63; hi := two63 |} 0 /\
   r128__udiv128 two63 0 two63 = Some (1, 0) /\
   r128__ucmp (r128__umul128 1 two63) {| lo := 0; hi := 0 |} = -1 /\
   udiv_digit two63 0 two63 two63 0 0 = Some 1 /\
   true_digit 0 two63 0 two63 two63 = 0 /\
   r128Div R128_one {| lo := 1; hi := 1 |} = None).
Proof. repeat split; vm_compute; reflexivity. Qed.

(** ** Parser: the whole part *)

Lemma u64_mul_add (acc base d : Z) :
  u64 (u64 acc * base + d) = u64 (acc * base + d).
Proof.
  unfold u64.
  rewrite Z.add_mod, Z.mul_mod_idemp_l by (consts; lia).
  rewrite <- Z.add_mod by (consts; lia). reflexivity.
Qed.

(** The whole-part loop on a run of digits followed by a character that
    is not a digit: the accumulator ends as the value of the run modulo
    [2^64], and the loop stops at the end of the run. *)
Lemma parse_whole_run (base : Z) (ds rest : string) :
  all_base_digits base ds = true ->
  is_base_digit base (peek rest) = false ->
  forall acc : Z,
    parse_whole base (u64 acc) (ds ++ rest)
      = (u64 (string_value base acc ds), rest).
Proof.
  intros Hds Hrest. induction ds as [| c ds IH]; intros acc.
  - cbn [append string_value]. destruct rest as [| c rest].
    + reflexivity.
    + cbn [peek] in Hrest. unfold is_base_digit in Hrest.
      apply orb_false_elim in Hrest. destruct Hrest as [Hd Hx].
      cbn [parse_whole]. rewrite Hd.
      destruct (base =? 16); [| reflexivity].
      cbn [andb] in *. apply orb_false_elim in Hx. destruct Hx as [-> ->].
      reflexivity.
  - cbn [all_base_digits] in Hds. apply andb_prop in Hds.
    destruct Hds as [Hc Hds]. specialize (IH Hds).
    cbn [append parse_whole string_value]. unfold digit_value.
    unfold is_base_digit in Hc.
    destruct (is_digit c).
    + rewrite u64_mul_add. apply IH.
    + cbn [orb] in Hc. apply andb_prop in Hc. destruct Hc as [-> Hc].
      cbn [andb]. destruct (is_lower_hex c).
      * rewrite u64_mul_add. apply IH.
      * cbn [orb] in Hc. rewrite Hc. rewrite u64_mul_add. apply IH.
Qed.

Lemma is_digit_ord (c : ascii) : is_digit c = true -> 48 <= ord c <= 57.
Proof.
  unfold is_digit. change (ord "0"%char) with 48. change (ord "9"%char) with 57.
  intros H. apply andb_prop in H. destruct H as [H1 H2].
  apply Z.leb_le in H1. apply Z.leb_le in H2. lia.
Qed.

(** A string of decimal digits, parsed from its start to its end. *)
Lemma r128FromString_digits (dec : ascii) (ds : string) :
  ord dec <> 0 ->
  all_base_digits 10 ds = true ->
  r128FromString dec ds
    = Some ({| lo := 0; hi := string_value 10 0 ds mod two64 |},
            EmptyString).
Proof.
  intros Hdec Hds. unfold r128FromString.
  assert (Hskip : skip_space ds = ds).
  { destruct ds as [| c ds]; [reflexivity |].
    cbn [all_base_digits] in Hds. apply andb_prop in Hds.
    destruct Hds as [Hc _]. unfold is_base_digit in Hc.
    cbn [Z.eqb andb orb] in Hc. rewrite orb_false_r in Hc.
    apply is_digit_ord in Hc. cbn [skip_space].
    change (ord " "%char) with 32.
    repeat match goal with
           | |- context [ord c =? ?n] =>
               destruct (Z.eqb_spec (ord c) n); [lia |]
           end.
    reflexivity. }
  rewrite Hskip.
  assert (Hpeek : ord (peek ds) = 0 \/ 48 <= ord (peek ds) <= 57).
  { destruct ds as [| c ds]; [left; reflexivity | right].
    cbn [all_base_digits] in Hds. apply andb_prop in Hds.
    destruct Hds as [Hc _]. unfold is_base_digit in Hc.
    cbn [Z.eqb andb orb] in Hc. rewrite orb_false_r in Hc.
    apply is_digit_ord in Hc. exact Hc. }
  assert (Hpeek2 : ord (peek (advance ds)) = 0
                   \/ 48 <= ord (peek (advance ds)) <= 57).
  { destruct ds as [| c [| c' ds]];
      [left; reflexivity | left; reflexivity | right].
    cbn [all_base_digits] in Hds.
    apply andb_prop in Hds. destruct Hds as [_ Hds].
    apply andb_prop in Hds. destruct Hds as [Hc _].
    unfold is_base_digit in Hc.
    cbn [Z.eqb andb orb] in Hc. rewrite orb_false_r in Hc.
    apply is_digit_ord in Hc. exact Hc. }
  change (ord "-"%char) with 45. change (ord "+"%char) with 43.
  change (ord "x"%char) with 120. change (ord "X"%char) with 88.
  destruct (Z.eqb_spec (ord (peek ds)) 45); [lia |].
  destruct (Z.eqb_spec (ord (peek ds)) 43); [lia |].
  destruct (Z.eqb_spec (ord (peek (advance ds))) 120); [lia |].
  destruct (Z.eqb_spec (ord (peek (advance ds))) 88); [lia |].
  rewrite andb_false_r.
  pose proof (parse_whole_run 10 ds EmptyString Hds eq_refl 0) as P.
  assert (A : (ds ++ "")%string = ds).
  { clear. induction ds as [| c ds IH]; [reflexivity |].
    cbn [append]. rewrite IH. reflexivity. }
  rewrite A in P. change (u64 0) with 0 in P. rewrite P.
  cbn [peek]. change (ord zero) with 0.
  destruct (Z.eqb_spec 0 (ord dec)); [lia |].
  unfold R128_SET2. f_equal. f_equal. f_equal.
  unfold u64. apply Z.mod_mod. consts. lia.
Qed.

(** C10.  The whole part is accumulated in a 64-bit word without an
    overflow check.  On a run of digits of the active base (10 or 16)
    followed by anything that is not such a digit, the loop leaves the
    value of the run modulo [2^64]; a whole string of decimal digits
    parses to that residue with a zero fraction; and
    ["18446744073709551616"], which is [2^64], parses to [R128_zero]. *)
Theorem parse_whole_wraps (base : Z) (ds rest : string) :
  all_base_digits base ds = true ->
  is_base_digit base (peek rest) = false ->
  parse_whole base 0 (ds ++ rest) = (string_value base 0 ds mod two64, rest)
  /\ (base = 10 -> rest = EmptyString ->
      r128FromString "."%char ds
        = Some ({| lo := 0; hi := string_value 10 0 ds mod two64 |},
                EmptyString))
  /\ string_value 10 0 "18446744073709551616" = two64
  /\ r128FromString "."%char "18446744073709551616"
       = Some (R128_zero, EmptyString).
Proof.
  intros Hds Hrest. split; [| split; [| split]].
  - exact (parse_whole_run base ds rest Hds Hrest 0).
  - intros -> _. apply r128FromString_digits; [discriminate | exact Hds].
  - reflexivity.
  - reflexivity.
Qed.

Lemma parse_whole_wraps_witness :
  all_base_digits 16 "123456789abcdefABCDEF" = true /\
  is_base_digit 16 (peek ".8") = false /\
  parse_whole 16 0 ("123456789abcdefABCDEF" ++ ".8")
    = (0x6789abcdefABCDEF, ".8"%string).
Proof.
  assert (H1 : all_base_digits 16 "123456789abcdefABCDEF" = true)
    by reflexivity.
  assert (H2 : is_base_digit 16 (peek ".8") = false) by reflexivity.
  split; [exact H1 |]. split; [exact H2 |].
  exact (proj1 (parse_whole_wraps 16 "123456789abcdefABCDEF" ".8" H1 H2)).
Defined.

(** ** Formatting, then parsing *)

(** C1.  The round trip at [R128_smallest], [2^-64].  Its decimal
    expansion starts [0.0000000000000000000542...]; the default format
    stops after twenty places and rounds down, giving
    ["0.00000000000000000005"].  The parser truncates:
    [floor (5 * 2^64 / 10^20)] is zero, so the string parses to
    [R128_zero], not to the value that was formatted.  (The end pointer
    the parser stores is at the decimal point.) *)
Theorem round_trip_smallest :
  c_string (fst (r128ToString "."%char 43 R128_smallest))
    = "0.00000000000000000005"%string /\
  r128FromString "."%char "0.00000000000000000005"
    = Some (R128_zero, ".00000000000000000005"%string) /\
  round_trip "."%char R128_smallest
    = Some (R128_zero, ".00000000000000000005"%string) /\
  R128_zero <> R128_smallest.
Proof.
  split; [vm_compute; reflexivity |].
  split; [vm_compute; reflexivity |].
  split; [vm_compute; reflexivity |].
  discriminate.
Qed.

(** ** Formatter: writing into the destination *)

Lemma writes_ret {A : Type} (a : A) : writes (ret a) [] a.
Proof.
  intros [d out] H. cbn [dstSize] in H. destruct H as [H1 H2].
  unfold ret. cbn [dstSize dst List.length Z.of_nat].
  destruct (Z.ltb_spec 0 d); [| lia].
  rewrite Z.sub_0_r, app_nil_r. reflexivity.
Qed.

Lemma writes_WRITE (c : ascii) : writes (R128__WRITE c) [c] tt.
Proof.
  intros [d out] H. cbn [dstSize] in H. destruct H as [H1 H2].
  unfold R128__WRITE.
  cbn [dstSize dst List.length Z.of_nat Pos.of_succ_nat].
  destruct (Z.eqb_spec d 1) as [-> | Hd].
  - cbn. rewrite app_nil_r. reflexivity.
  - destruct (Z.ltb_spec 1 d); [| lia].
    rewrite u64_small by lia. reflexivity.
Qed.

Lemma firstn_app_short {A : Type} (n : nat) (l l' : list A) :
  (n <= List.length l)%nat -> firstn n (l ++ l') = firstn n l.
Proof.
  intros H. rewrite firstn_app.
  replace (n - List.length l)%nat with O by lia.
  cbn [firstn]. apply app_nil_r.
Qed.

Lemma firstn_app_long {A : Type} (n : nat) (l l' : list A) :
  (List.length l <= n)%nat ->
  firstn n (l ++ l') = l ++ firstn (n - List.length l) l'.
Proof.
  intros H. rewrite firstn_app, firstn_all2 by lia. reflexivity.
Qed.

Lemma writes_bind {A B : Type} (m : W A) (f : A -> W B)
    (l l' : list ascii) (a : A) (b : B) :
  writes m l a -> writes (f a) l' b -> writes (bind m f) (l ++ l') b.
Proof.
  intros Hm Hf [d out] H. unfold bind.
  rewrite (Hm _ H). cbn [dstSize dst] in *. destruct H as [H1 H2].
  rewrite length_app, Nat2Z.inj_add.
  destruct (Z.ltb_spec (Z.of_nat (List.length l)) d) as [Hl | Hl].
  - rewrite Hf by (cbn [dstSize]; lia). cbn [dstSize dst].
    destruct (Z.ltb_spec (Z.of_nat (List.length l'))
                (d - Z.of_nat (List.length l))) as [Hl' | Hl'].
    + destruct (Z.ltb_spec (Z.of_nat (List.length l)
                            + Z.of_nat (List.length l')) d); [| lia].
      rewrite app_assoc. do 2 f_equal. lia.
    + destruct (Z.ltb_spec (Z.of_nat (List.length l)
                            + Z.of_nat (List.length l')) d); [lia |].
      rewrite firstn_app_long by lia. rewrite app_assoc.
      do 4 f_equal. lia.
  - destruct (Z.ltb_spec (Z.of_nat (List.length l)
                          + Z.of_nat (List.length l')) d); [lia |].
    rewrite firstn_app_short by lia. reflexivity.
Qed.

Lemma writes_eq {A : Type} (m : W A) (l l' : list ascii) (a a' : A) :
  writes m l a -> l = l' -> a = a' -> writes m l' a'.
Proof. intros H <- <-. exact H. Qed.

Lemma writes_pad_loop (c : ascii) (fuel : nat) :
  forall padCnt : Z,
    (Z.to_nat padCnt <= fuel)%nat ->
    writes (pad_loop fuel c padCnt) (repeat c (Z.to_nat padCnt))
      (Z.min padCnt 0).
Proof.
  induction fuel as [| fuel IH]; intros padCnt Hf.
  - cbn [pad_loop]. replace (Z.to_nat padCnt) with O by lia.
    eapply writes_eq; [apply writes_ret | reflexivity | lia].
  - cbn [pad_loop]. destruct (Z.gtb_spec padCnt 0) as [Hp | Hp].
    + eapply writes_eq.
      * eapply writes_bind; [apply writes_WRITE |].
        apply (IH (padCnt - 1)). lia.
      * replace (Z.to_nat padCnt) with (S (Z.to_nat (padCnt - 1))) by lia.
        reflexivity.
      * lia.
    + replace (Z.to_nat padCnt) with O by lia.
      eapply writes_eq; [apply writes_ret | reflexivity | lia].
Qed.

Lemma writes_pad (c : ascii) (padCnt : Z) :
  writes (pad c padCnt) (repeat c (Z.to_nat padCnt)) (Z.min padCnt 0).
Proof. apply writes_pad_loop. lia. Qed.

Lemma writes_trail_loop (n : nat) :
  writes (trail_loop n) (repeat "0"%char n) tt.
Proof.
  induction n as [| n IH]; cbn [trail_loop repeat].
  - apply writes_ret.
  - eapply (writes_bind _ _ ["0"%char]); [apply writes_WRITE | exact IH].
Qed.

Lemma writes_write_chars (l : list ascii) : writes (write_chars l) l tt.
Proof.
  induction l as [| c l IH]; cbn [write_chars].
  - apply writes_ret.
  - eapply (writes_bind _ _ [c]); [apply writes_WRITE | exact IH].
Qed.

Lemma writes_write_sign (sgn : bool) (format : R128ToStringFormat)
    (padCnt : Z) :
  writes (write_sign sgn format padCnt) (sign_chars sgn format)
    (sign_pad sgn format padCnt).
Proof.
  unfold write_sign, sign_pad, sign_chars.
  destruct sgn; [| destruct (sign format)].
  - eapply (writes_bind _ _ ["-"%char] []); [apply writes_WRITE | apply writes_ret].
  - apply writes_ret.
  - eapply (writes_bind _ _ [" "%char] []); [apply writes_WRITE | apply writes_ret].
  - eapply (writes_bind _ _ ["+"%char] []); [apply writes_WRITE | apply writes_ret].
Qed.

(** The emission phase writes [format_text]. *)
Lemma format_emit_writes (format : R128ToStringFormat) (buf : list ascii)
    (decimal_ix : nat) (sgn : bool) (width trail : Z) :
  writes (format_emit format buf decimal_ix sgn width trail)
    (format_text format buf decimal_ix sgn width trail) tt.
Proof.
  unfold format_emit, format_text.
  set (padCnt := width - Z.of_nat (List.length buf) - 1).
  destruct (leftAlign format =? 0); cbn [negb orb];
    destruct (zeroPad format =? 0); cbn [negb orb].
  - (* right aligned, padded with spaces *)
    eapply writes_eq;
      [ eapply writes_bind;
        [ eapply writes_bind; [apply writes_ret | apply writes_pad] |];
        eapply writes_bind; [apply writes_write_sign |];
        eapply writes_bind; [apply writes_write_chars |];
        eapply writes_bind; [apply writes_write_chars |];
        eapply writes_bind; [apply writes_ret | apply writes_trail_loop]
      | | reflexivity ].
    cbn [app]. rewrite <- !app_assoc. reflexivity.
  - (* right aligned, padded with zeroes *)
    eapply writes_eq;
      [ eapply writes_bind;
        [ eapply writes_bind; [apply writes_write_sign | apply writes_pad] |];
        eapply writes_bind; [apply writes_ret |];
        eapply writes_bind; [apply writes_write_chars |];
        eapply writes_bind; [apply writes_write_chars |];
        eapply writes_bind; [apply writes_ret | apply writes_trail_loop]
      | | reflexivity ].
    cbn [app]. rewrite <- !app_assoc. reflexivity.
  - (* left aligned, spaces on the right *)
    eapply writes_eq;
      [ eapply writes_bind; [apply writes_ret |];
        eapply writes_bind; [apply writes_write_sign |];
        eapply writes_bind; [apply writes_write_chars |];
        eapply writes_bind; [apply writes_write_chars |];
        eapply writes_bind; [apply writes_pad | apply writes_trail_loop]
      | | reflexivity ].
    cbn [app]. rewrite <- !app_assoc. reflexivity.
  - (* left aligned, zeroes on the right *)
    eapply writes_eq;
      [ eapply writes_bind; [apply writes_ret |];
        eapply writes_bind; [apply writes_write_sign |];
        eapply writes_bind; [apply writes_write_chars |];
        eapply writes_bind; [apply writes_write_chars |];
        eapply writes_bind; [apply writes_pad | apply writes_trail_loop]
      | | reflexivity ].
    cbn [app]. rewrite <- !app_assoc. reflexivity.
Qed.

Lemma s32_small (x : Z) : 0 <= x < 2 ^ 31 -> s32 x = x.
Proof.
  intros H. unfold s32.
  assert (E : x mod 2 ^ 32 = x) by (apply Z.mod_small; lia).
  rewrite E. destruct (Z.ltb_spec x (2 ^ 31)); [reflexivity | lia].
Qed.

(** Silent truncation: the destination receives the first
    [dstSize - 1] characters of the text and a NUL, and the function
    returns the number of characters stored, converted to [int]. *)
Lemma r128__format_prefix (dec : ascii) (size : Z) (v : R128)
    (format : R128ToStringFormat) :
  1 <= size < two64 ->
  exists text : list ascii,
    (forall buf ix sgn width trail,
       format_digits dec v format = (buf, ix, sgn, width, trail) ->
       text = format_text format buf ix sgn width trail) /\
    r128__format dec size v format
      = (firstn (Z.to_nat (size - 1)) text ++ [zero],
         s32 (Z.of_nat (List.length (firstn (Z.to_nat (size - 1)) text)))).
Proof.
  intros Hd. unfold r128__format.
  destruct (format_digits dec v format) as [[[[buf ix] sgn] width] trail].
  exists (format_text format buf ix sgn width trail). split.
  - intros buf' ix' sgn' width' trail' E. inversion E. reflexivity.
  - rewrite (format_emit_writes format buf ix sgn width trail)
      by (cbn [dstSize]; exact Hd).
    cbn [dstSize dst app].
    destruct (Z.ltb_spec
                (Z.of_nat (List.length
                             (format_text format buf ix sgn width trail)))
                size) as [Hl | Hl].
    + rewrite firstn_all2 by lia. reflexivity.
    + reflexivity.
Qed.

(** X30.  For a destination of [dstSize >= 1] bytes ([dstSize] a
    [size_t]), the formatter stores some characters followed by a NUL, at
    most [dstSize] bytes in all; the characters are the first
    [dstSize - 1] of the text, so truncation is silent.  The value
    returned is the number of characters stored converted to [int]: it is
    that number whenever the number is below [2^31], in particular
    whenever [dstSize <= 2^31], and is then at most [dstSize - 1]. *)
Theorem r128__format_buffer (dec : ascii) (size : Z) (v : R128)
    (format : R128ToStringFormat) :
  1 <= size < two64 ->
  exists chars : list ascii,
    fst (r128__format dec size v format) = chars ++ [zero] /\
    Z.of_nat (List.length (fst (r128__format dec size v format)))
      <= size /\
    snd (r128__format dec size v format)
      = s32 (Z.of_nat (List.length chars)) /\
    (Z.of_nat (List.length chars) < 2 ^ 31 ->
     snd (r128__format dec size v format)
       = Z.of_nat (List.length chars)) /\
    (size <= 2 ^ 31 ->
     snd (r128__format dec size v format) = Z.of_nat (List.length chars)
     /\ snd (r128__format dec size v format) <= size - 1).
Proof.
  intros Hd.
  destruct (r128__format_prefix dec size v format Hd) as (text & _ & E).
  rewrite E. cbn [fst snd].
  set (chars := firstn (Z.to_nat (size - 1)) text).
  assert (Hlen : Z.of_nat (List.length chars) <= size - 1).
  { unfold chars. rewrite length_firstn. lia. }
  exists chars. split; [reflexivity |].
  split; [rewrite length_app; cbn [List.length]; lia |].
  split; [reflexivity |].
  split.
  - intros Hs. apply s32_small. lia.
  - intros Hs. rewrite s32_small by lia. split; [reflexivity | exact Hlen].
Qed.

Lemma r128__format_buffer_witness :
  1 <= 5 < two64 /\
  exists chars : list ascii,
    fst (r128__format "."%char 5 R128_max R128__defaultFormat)
      = chars ++ [zero] /\
    Z.of_nat (List.length
                (fst (r128__format "."%char 5 R128_max R128__defaultFormat)))
      <= 5 /\
    snd (r128__format "."%char 5 R128_max R128__defaultFormat)
      = s32 (Z.of_nat (List.length chars)) /\
    (Z.of_nat (List.length chars) < 2 ^ 31 ->
     snd (r128__format "."%char 5 R128_max R128__defaultFormat)
       = Z.of_nat (List.length chars)) /\
    (5 <= 2 ^ 31 ->
     snd (r128__format "."%char 5 R128_max R128__defaultFormat)
       = Z.of_nat (List.length chars)
     /\ snd (r128__format "."%char 5 R128_max R128__defaultFormat) <= 5 - 1).
Proof.
  assert (H : 1 <= 5 < two64) by (consts; lia).
  split; [exact H |].
  exact (r128__format_buffer "."%char 5 R128_max R128__defaultFormat H).
Defined.

(** The text for a non-negative value, right aligned, padded with
    spaces, no sign character. *)
Lemma format_text_plain (w p : Z) (buf : list ascii) (width trail : Z) :
  format_text (mkFormat R128ToStringSign_Default w p 0 0 0) buf O false
    width trail
  = repeat " "%char (Z.to_nat (width - Z.of_nat (List.length buf) - 1))
      ++ rev buf ++ repeat "0"%char (Z.to_nat trail).
Proof.
  unfold format_text, sign_chars.
  cbn [leftAlign zeroPad sign Z.eqb negb skipn firstn app].
  rewrite app_nil_r. reflexivity.
Qed.

(** C9.  The returned count is not always the number of characters
    written.  A destination of [2^32] bytes, zero formatted with width and
    precision [INT_MAX]: 2147483645 spaces, the digit, and 2147483540
    trailing zeroes are stored, 4294967186 characters and the NUL, and the
    value returned, [(int)(dstp - dst)], is [-110]. *)
Lemma format_count_exceeds_int :
  let format :=
    mkFormat R128ToStringSign_Default 2147483647 2147483647 0 0 0 in
  1 <= 4294967296 < two64 /\
  Z.of_nat (List.length
              (fst (r128__format "."%char 4294967296 R128_zero format)))
    = 4294967186 + 1 /\
  snd (r128__format "."%char 4294967296 R128_zero format) = -110 /\
  snd (r128__format "."%char 4294967296 R128_zero format) <> 4294967186.
Proof.
  intros format.
  assert (Hd : 1 <= 4294967296 < two64) by (consts; lia).
  split; [exact Hd |].
  destruct (r128__format_prefix "."%char 4294967296 R128_zero format Hd)
    as (text & Ht & E).
  assert (Hdigits :
            format_digits "."%char R128_zero format
            = (["0"%char], O, false, 2147483647, 2147483540))
    by (vm_compute; reflexivity).
  specialize (Ht _ _ _ _ _ Hdigits).
  unfold format in Ht. rewrite format_text_plain in Ht.
  assert (Hlen : Z.of_nat (List.length text) = 4294967186).
  { rewrite Ht. rewrite !length_app, !repeat_length, length_rev.
    cbn [List.length]. lia. }
  assert (Hall : firstn (Z.to_nat (4294967296 - 1)) text = text).
  { apply firstn_all2. lia. }
  rewrite E, Hall. cbn [fst snd].
  rewrite length_app, Nat2Z.inj_add, Hlen. cbn [List.length].
  split; [reflexivity |].
  split; [reflexivity | discriminate].
Qed.

(** ** Formatter: the scratch buffer *)

(** Twenty passes are enough for the digits of a 64-bit [whole]: more
    fuel does not change the result. *)
Lemma whole_loop_fuel (n : nat) :
  forall (k : nat) (w : Z) (buf : list ascii),
    0 <= w < 10 ^ Z.of_nat (S n) ->
    whole_loop (S n + k) w buf = whole_loop (S n) w buf.
Proof.
  induction n as [| n IH]; intros k w buf Hw.
  - change (10 ^ Z.of_nat 1) with 10 in Hw.
    cbn [whole_loop Nat.add].
    replace (w / 10) with 0 by (symmetry; apply Z.div_small; lia).
    reflexivity.
  - change (S (S n) + k)%nat with (S (S n + k)).
    cbn [whole_loop].
    destruct (w / 10 =? 0); cbn [negb]; [reflexivity |].
    apply IH.
    rewrite Nat2Z.inj_succ, Z.pow_succ_r in Hw by lia.
    split; [apply Z.div_pos; lia | apply Z.div_lt_upper_bound; lia].
Qed.

Lemma whole_loop_enough (k : nat) (w : Z) (buf : list ascii) :
  0 <= w < two64 -> whole_loop (20 + k) w buf = whole_loop 20 w buf.
Proof.
  intros Hw. apply (whole_loop_fuel 19).
  change (10 ^ Z.of_nat 20) with 100000000000000000000. consts. lia.
Qed.

Lemma whole_loop_length (fuel : nat) :
  forall (w : Z) (buf : list ascii),
    (List.length (whole_loop fuel w buf) <= List.length buf + fuel)%nat.
Proof.
  induction fuel as [| fuel IH]; intros w buf; cbn [whole_loop].
  - lia.
  - destruct (negb (w / 10 =? 0)).
    + etransitivity; [apply IH |]. rewrite length_app. cbn [List.length]. lia.
    + rewrite length_app. cbn [List.length]. lia.
Qed.

Lemma carry_back_length (r : list ascii) :
  List.length (fst (carry_back r)) = List.length r.
Proof.
  induction r as [| c r IH]; cbn [carry_back]; [reflexivity |].
  destruct (ord (chr (ord c + 1)) <=? ord "9"%char); [reflexivity |].
  destruct (carry_back r) as [r' out]. cbn [fst List.length] in *.
  rewrite IH. reflexivity.
Qed.

Lemma frac_loop_length (k : nat) :
  forall (full : bool) (p tlo : Z) (buf : list ascii) (whole : Z),
    (List.length (fst (frac_loop k full p tlo buf whole))
     <= List.length buf + k)%nat.
Proof.
  induction k as [| k IH]; intros full p tlo buf whole; cbn [frac_loop].
  - destruct (negb (tlo =? 0) || full && negb (p =? 0)); [| cbn [fst]; lia].
    destruct (s64 tlo <? 0); [| cbn [fst]; lia].
    pose proof (carry_back_length (rev buf)) as L.
    destruct (carry_back (rev buf)) as [r out]. cbn [fst] in *.
    rewrite length_rev in *. lia.
  - destruct (negb (tlo =? 0) || full && negb (p =? 0)); [| cbn [fst]; lia].
    etransitivity; [apply IH |]. rewrite length_app. cbn [List.length]. lia.
Qed.

(** The scratch buffer [char buf[128]] is never overrun. *)
Lemma format_digits_buf (dec : ascii) (v : R128)
    (format : R128ToStringFormat) :
  forall buf ix sgn width trail,
    format_digits dec v format = (buf, ix, sgn, width, trail) ->
    (List.length buf <= 128)%nat /\ (ix < 128)%nat /\ 0 <= trail.
Proof.
  intros buf ix sgn width trail. unfold format_digits.
  rewrite r128Copy_id.
  pose proof (whole_loop_length 20) as W.
  set (wl := whole_loop 20) in *. clearbody wl.
  destruct (if r128IsNeg v then (r128Neg v, true) else (v, false))
    as [tmp s].
  assert (P : exists full p t,
             (if precision format <? 0 then (false, 20, 0)
              else if precision format >? 128 - 21 then
                (true, precision format - (precision format - (128 - 21)),
                 precision format - (128 - 21))
              else (true, precision format, 0)) = (full, p, t)
             /\ 0 <= p <= 107 /\ 0 <= t).
  { destruct (Z.ltb_spec (precision format) 0).
    - exists false, 20, 0. split; [reflexivity | lia].
    - destruct (Z.gtb_spec (precision format) (128 - 21)).
      + eexists _, _, _. split; [reflexivity | lia].
      + eexists _, _, _. split; [reflexivity | lia]. }
  destruct P as (full & p & t & -> & Hp & Ht).
  destruct (negb (lo tmp =? 0) || negb (decimal format =? 0)).
  - pose proof (frac_loop_length (Z.to_nat p) full p (lo tmp) [] (hi tmp))
      as L.
    destruct (frac_loop (Z.to_nat p) full p (lo tmp) [] (hi tmp))
      as [fb w]. cbn [fst List.length] in L.
    destruct (negb (decimal format =? 0) || negb (p =? 0)).
    + intros E. injection E as <- <- _ _ <-.
      specialize (W w (fb ++ [dec])).
      rewrite length_app in W. cbn [List.length] in W. lia.
    + intros E. injection E as <- <- _ _ <-.
      specialize (W w fb). lia.
  - intros E. injection E as <- <- _ _ <-.
    specialize (W (hi tmp) []).
    cbn [List.length] in W. lia.
Qed.

(** * Further properties *)

Ltac zarith127 :=
  change (2 ^ 127) with 170141183460469231731687303715884105728 in *;
  zarith.

(** ** The 128-bit integer of a value *)

Lemma to_u128_range (v : R128) : wf v -> 0 <= to_u128 v < two128.
Proof. unfold wf, to_u128. intros [Hl Hh]. consts. lia. Qed.

Lemma to_u128_inj (a b : R128) :
  wf a -> wf b -> to_u128 a = to_u128 b -> a = b.
Proof.
  destruct a as [la ha], b as [lb hb]. unfold wf, to_u128. cbn [lo hi].
  intros [Hla Hha] [Hlb Hhb] E.
  assert (ha = hb) by (consts; lia).
  assert (la = lb) by (consts; lia).
  subst. reflexivity.
Qed.

(** The signed reading is the unsigned one, less [2^128] from [2^127]
    on. *)
Lemma to_s128_to_u128 (v : R128) :
  wf v ->
  to_s128 v = if to_u128 v <? 2 ^ 127 then to_u128 v else to_u128 v - two128.
Proof.
  unfold wf, to_s128, to_u128. intros [Hl Hh].
  destruct (Z_lt_ge_dec (hi v) two63) as [H | H].
  - rewrite s64_small by lia.
    destruct (Z.ltb_spec (hi v * two64 + lo v) (2 ^ 127));
      [reflexivity | consts; lia].
  - rewrite s64_large by lia.
    destruct (Z.ltb_spec (hi v * two64 + lo v) (2 ^ 127));
      consts; lia.
Qed.

Lemma to_s128_range (v : R128) : wf v -> - 2 ^ 127 <= to_s128 v < 2 ^ 127.
Proof.
  intros Hv. rewrite to_s128_to_u128 by assumption.
  pose proof (to_u128_range v Hv).
  destruct (Z.ltb_spec (to_u128 v) (2 ^ 127)); consts; lia.
Qed.

Lemma to_s128_mod (v : R128) : wf v -> to_s128 v mod two128 = to_u128 v.
Proof.
  intros Hv. rewrite to_s128_to_u128 by assumption.
  pose proof (to_u128_range v Hv).
  destruct (Z.ltb_spec (to_u128 v) (2 ^ 127)).
  - apply Z.mod_small. lia.
  - rewrite <- (Z.mod_add _ 1) by (consts; lia).
    replace (to_u128 v - two128 + 1 * two128) with (to_u128 v) by ring.
    apply Z.mod_small. lia.
Qed.

(** A signed 128-bit integer is determined by its residue. *)
Lemma s128_unique (x y : Z) :
  - 2 ^ 127 <= x < 2 ^ 127 -> - 2 ^ 127 <= y < 2 ^ 127 ->
  x mod two128 = y mod two128 -> x = y.
Proof. intros Hx Hy E. revert E. zarith. Qed.

(** ** Addition, subtraction, negation *)

Lemma r128Add_wf (a b : R128) : wf (r128Add a b).
Proof. unfold r128Add, addcarry_u64, wf. cbn [lo hi]. split; apply u64_range. Qed.

Lemma r128Sub_wf (a b : R128) : wf (r128Sub a b).
Proof. unfold r128Sub, subborrow_u64, wf. cbn [lo hi]. split; apply u64_range. Qed.

Lemma r128Add_to_u128 (a b : R128) :
  wf a -> wf b ->
  to_u128 (r128Add a b) = (to_u128 a + to_u128 b) mod two128.
Proof.
  destruct a as [la ha], b as [lb hb].
  unfold wf, to_u128, r128Add, addcarry_u64, u64. cbn [lo hi].
  intros [Hla Hha] [Hlb Hhb]. zarith.
Qed.

Lemma r128Sub_to_u128 (a b : R128) :
  wf a -> wf b ->
  to_u128 (r128Sub a b) = (to_u128 a - to_u128 b) mod two128.
Proof.
  destruct a as [la ha], b as [lb hb].
  unfold wf, to_u128, r128Sub, subborrow_u64, u64. cbn [lo hi].
  intros [Hla Hha] [Hlb Hhb].
  destruct (Z.ltb_spec (la - lb - 0) 0); zarith.
Qed.

Lemma r128Neg_to_u128 (v : R128) :
  wf v -> to_u128 (r128Neg v) = (- to_u128 v) mod two128.
Proof.
  destruct v as [l h].
  unfold wf, to_u128, r128Neg, addcarry_u64, not64, u64, Z.lnot. cbn [lo hi].
  intros [Hl Hh]. zarith.
Qed.

Lemma to_s128_of_residue (r : R128) (x : Z) :
  wf r -> to_u128 r = x mod two128 -> - 2 ^ 127 <= x < 2 ^ 127 ->
  to_s128 r = x.
Proof.
  intros Hr E Hx. apply s128_unique; [apply to_s128_range, Hr | exact Hx |].
  rewrite to_s128_mod by assumption. exact E.
Qed.

Lemma wf_min : wf R128_min.
Proof. unfold wf, R128_min; cbn [lo hi]; consts; lia. Qed.
Lemma wf_max : wf R128_max.
Proof. unfold wf, R128_max; cbn [lo hi]; consts; lia. Qed.
Lemma wf_one : wf R128_one.
Proof. unfold wf, R128_one; cbn [lo hi]; consts; lia. Qed.
Lemma wf_zero : wf R128_zero.
Proof. unfold wf, R128_zero; cbn [lo hi]; consts; lia. Qed.
Lemma wf_smallest : wf R128_smallest.
Proof. unfold wf, R128_smallest; cbn [lo hi]; consts; lia. Qed.

(** X1.  Addition is addition of the 128-bit integers modulo [2^128]; it
    is exact on the signed values whenever their sum is representable. *)
Theorem r128Add_wraps (a b : R128) :
  wf a -> wf b ->
  to_u128 (r128Add a b) = (to_u128 a + to_u128 b) mod two128 /\
  (- 2 ^ 127 <= to_s128 a + to_s128 b < 2 ^ 127 ->
   to_s128 (r128Add a b) = to_s128 a + to_s128 b).
Proof.
  intros Ha Hb. split; [apply r128Add_to_u128; assumption |].
  intros Hr. apply to_s128_of_residue; [apply r128Add_wf | | exact Hr].
  rewrite r128Add_to_u128 by assumption.
  rewrite <- (to_s128_mod a Ha), <- (to_s128_mod b Hb).
  rewrite <- Z.add_mod by (consts; lia). reflexivity.
Qed.

Lemma r128Add_wraps_witness :
  wf R128_max /\ wf R128_smallest /\
  to_u128 (r128Add R128_max R128_smallest)
    = (to_u128 R128_max + to_u128 R128_smallest) mod two128.
Proof.
  split; [exact wf_max |]. split; [exact wf_smallest |].
  exact (proj1 (r128Add_wraps R128_max R128_smallest wf_max wf_smallest)).
Defined.

(** X2.  Subtraction is subtraction of the 128-bit integers modulo [2^128];
    it is exact on the signed values whenever their difference is
    representable. *)
Theorem r128Sub_wraps (a b : R128) :
  wf a -> wf b ->
  to_u128 (r128Sub a b) = (to_u128 a - to_u128 b) mod two128 /\
  (- 2 ^ 127 <= to_s128 a - to_s128 b < 2 ^ 127 ->
   to_s128 (r128Sub a b) = to_s128 a - to_s128 b).
Proof.
  intros Ha Hb. split; [apply r128Sub_to_u128; assumption |].
  intros Hr. apply to_s128_of_residue; [apply r128Sub_wf | | exact Hr].
  rewrite r128Sub_to_u128 by assumption.
  rewrite <- (to_s128_mod a Ha), <- (to_s128_mod b Hb).
  rewrite <- Zminus_mod. reflexivity.
Qed.

Lemma r128Sub_wraps_witness :
  wf R128_min /\ wf R128_smallest /\
  to_u128 (r128Sub R128_min R128_smallest)
    = (to_u128 R128_min - to_u128 R128_smallest) mod two128.
Proof.
  split; [exact wf_min |]. split; [exact wf_smallest |].
  exact (proj1 (r128Sub_wraps R128_min R128_smallest wf_min wf_smallest)).
Defined.

(** X3.  Negation is two's-complement negation: the opposite modulo
    [2^128], which is [~v + R128_smallest]; it is the opposite of the
    signed value for every value but [R128_min], which it leaves as it
    is. *)
Theorem r128Neg_value (v : R128) :
  wf v ->
  to_u128 (r128Neg v) = (- to_u128 v) mod two128 /\
  r128Neg v = r128Add (r128Not v) R128_smallest /\
  (v <> R128_min -> to_s128 (r128Neg v) = - to_s128 v) /\
  (v = R128_min -> r128Neg v = v).
Proof.
  intros Hv. split; [apply r128Neg_to_u128; assumption |].
  split; [reflexivity |]. split.
  - intros Hne. apply to_s128_of_residue; [apply r128Neg_wf | |].
    + rewrite r128Neg_to_u128 by assumption.
      rewrite <- (to_s128_mod v Hv).
      pose proof (to_s128_range v Hv).
      set (x := to_s128 v) in *. clearbody x. zarith.
    + pose proof (to_s128_range v Hv) as R.
      assert (to_s128 v <> - 2 ^ 127); [| lia].
      intros E. apply Hne. apply to_u128_inj; [assumption | exact wf_min |].
      rewrite <- (to_s128_mod v Hv), E. reflexivity.
  - intros ->. reflexivity.
Qed.

Lemma r128Neg_value_witness :
  wf R128_one /\ to_u128 (r128Neg R128_one) = (- to_u128 R128_one) mod two128.
Proof.
  split; [exact wf_one |].
  exact (proj1 (r128Neg_value R128_one wf_one)).
Defined.

(** X4.  The additive laws, modulo wrap-around: addition is commutative and
    associative, [R128_zero] is neutral, subtraction is addition of the
    negation, a value plus its negation is zero, and subtracting what was
    added gives the value back. *)
Theorem r128_additive_laws (a b c : R128) :
  wf a -> wf b -> wf c ->
  r128Add a b = r128Add b a /\
  r128Add (r128Add a b) c = r128Add a (r128Add b c) /\
  r128Add a R128_zero = a /\
  r128Sub a b = r128Add a (r128Neg b) /\
  r128Add a (r128Sub R128_zero a) = R128_zero /\
  r128Sub (r128Add a b) b = a.
Proof.
  intros Ha Hb Hc.
  pose proof (to_u128_range a Ha) as Ra.
  pose proof (to_u128_range b Hb) as Rb.
  pose proof (to_u128_range c Hc) as Rc.
  assert (Z0 : to_u128 R128_zero = 0) by reflexivity.
  repeat split;
    (apply to_u128_inj;
     [ first [apply r128Add_wf | apply r128Sub_wf | assumption]
     | first [apply r128Add_wf | apply r128Sub_wf | assumption
              | exact wf_zero]
     | ]);
    rewrite ?r128Add_to_u128, ?r128Sub_to_u128, ?r128Neg_to_u128,
      ?r128Add_to_u128, ?r128Sub_to_u128, ?Z0
      by first [assumption | apply r128Add_wf | apply r128Sub_wf
                | apply r128Neg_wf | exact wf_zero];
    set (x := to_u128 a) in *; set (y := to_u128 b) in *;
    set (z := to_u128 c) in *; clearbody x y z; zarith.
Qed.

Lemma r128_additive_laws_witness :
  wf R128_max /\ wf R128_one /\ wf R128_min /\
  r128Sub (r128Add R128_max R128_one) R128_one = R128_max.
Proof.
  split; [exact wf_max |]. split; [exact wf_one |]. split; [exact wf_min |].
  exact (proj2 (proj2 (proj2 (proj2 (proj2
    (r128_additive_laws R128_max R128_one R128_min
       wf_max wf_one wf_min)))))).
Defined.

(** ** Bitwise operations *)

Lemma word_high_bits (x n : Z) :
  0 <= x < two64 -> 64 <= n -> Z.testbit x n = false.
Proof.
  intros Hx Hn. destruct (Z.eq_dec x 0) as [-> | Hx0]; [apply Z.bits_0 |].
  apply Z.bits_above_log2; [lia |].
  apply Z.log2_lt_pow2; [lia |].
  apply Z.lt_le_trans with (2 ^ 64); [exact (proj2 Hx) |].
  apply Z.pow_le_mono_r; lia.
Qed.

Lemma word_of_high_bits (x : Z) :
  0 <= x -> (forall n, 64 <= n -> Z.testbit x n = false) -> 0 <= x < two64.
Proof.
  intros Hx Hb. split; [exact Hx |].
  destruct (Z_lt_ge_dec x two64) as [H | H]; [exact H | exfalso].
  assert (Hpos : 0 < x) by (consts; lia).
  pose proof (Z.bit_log2 x Hpos) as T.
  rewrite Hb in T; [discriminate |].
  apply Z.log2_le_pow2; [exact Hpos | fold two64; lia].
Qed.

(** The bits of the 128-bit integer: [lo] gives bits 0 to 63, [hi]
    bits 64 to 127. *)
Lemma to_u128_testbit (v : R128) (n : Z) :
  wf v -> 0 <= n ->
  Z.testbit (to_u128 v) n
    = if n <? 64 then Z.testbit (lo v) n else Z.testbit (hi v) (n - 64).
Proof.
  intros [Hl Hh] Hn. unfold to_u128, two64.
  rewrite <- lor_disjoint by (fold two64; lia).
  rewrite Z.lor_spec.
  destruct (Z.ltb_spec n 64).
  - rewrite Z.mul_pow2_bits_low by lia. reflexivity.
  - rewrite Z.mul_pow2_bits by lia.
    rewrite (word_high_bits (lo v) n) by (assumption || lia).
    apply orb_false_r.
Qed.

Lemma bitwise_wf (f : Z -> Z -> Z) (g : bool -> bool -> bool) (a b : R128) :
  (forall x y, 0 <= x -> 0 <= y -> 0 <= f x y) ->
  (forall x y n, Z.testbit (f x y) n = g (Z.testbit x n) (Z.testbit y n)) ->
  g false false = false ->
  wf a -> wf b ->
  wf {| lo := f (lo a) (lo b); hi := f (hi a) (hi b) |}.
Proof.
  intros Hpos Hspec Hg [Hla Hha] [Hlb Hhb]. unfold wf. cbn [lo hi].
  split; apply word_of_high_bits; try (apply Hpos; lia);
    intros n Hn; rewrite Hspec, !word_high_bits by (assumption || lia);
    exact Hg.
Qed.

Lemma bitwise_to_u128 (f : Z -> Z -> Z) (g : bool -> bool -> bool)
    (a b : R128) :
  (forall x y, 0 <= x -> 0 <= y -> 0 <= f x y) ->
  (forall x y n, Z.testbit (f x y) n = g (Z.testbit x n) (Z.testbit y n)) ->
  g false false = false ->
  wf a -> wf b ->
  to_u128 {| lo := f (lo a) (lo b); hi := f (hi a) (hi b) |}
    = f (to_u128 a) (to_u128 b).
Proof.
  intros Hpos Hspec Hg Ha Hb.
  pose proof (bitwise_wf f g a b Hpos Hspec Hg Ha Hb) as Hr.
  apply Z.bits_inj'. intros n Hn.
  rewrite Hspec, !to_u128_testbit by assumption. cbn [lo hi].
  destruct (n <? 64); rewrite Hspec; reflexivity.
Qed.

(** X5.  [r128And], [r128Or] and [r128Xor] are the bitwise operations on the
    128-bit integer, and [r128Not] is its complement; all four give
    64-bit halves. *)
Theorem r128_bitwise (a b : R128) :
  wf a -> wf b ->
  to_u128 (r128And a b) = Z.land (to_u128 a) (to_u128 b) /\
  to_u128 (r128Or a b) = Z.lor (to_u128 a) (to_u128 b) /\
  to_u128 (r128Xor a b) = Z.lxor (to_u128 a) (to_u128 b) /\
  to_u128 (r128Not a) = two128 - 1 - to_u128 a /\
  wf (r128And a b) /\ wf (r128Or a b) /\ wf (r128Xor a b) /\ wf (r128Not a).
Proof.
  intros Ha Hb.
  assert (Pand : forall x y, 0 <= x -> 0 <= y -> 0 <= Z.land x y)
    by (intros; apply Z.land_nonneg; auto).
  assert (Por : forall x y, 0 <= x -> 0 <= y -> 0 <= Z.lor x y)
    by (intros; apply Z.lor_nonneg; auto).
  assert (Pxor : forall x y, 0 <= x -> 0 <= y -> 0 <= Z.lxor x y)
    by (intros; apply Z.lxor_nonneg; lia).
  split; [exact (bitwise_to_u128 Z.land andb a b Pand Z.land_spec eq_refl Ha Hb) |].
  split; [exact (bitwise_to_u128 Z.lor orb a b Por Z.lor_spec eq_refl Ha Hb) |].
  split; [exact (bitwise_to_u128 Z.lxor xorb a b Pxor Z.lxor_spec eq_refl Ha Hb) |].
  split.
  { destruct Ha as [Hl Hh]. unfold to_u128, r128Not. cbn [lo hi].
    rewrite !not64_eq by assumption. consts. lia. }
  split; [exact (bitwise_wf Z.land andb a b Pand Z.land_spec eq_refl Ha Hb) |].
  split; [exact (bitwise_wf Z.lor orb a b Por Z.lor_spec eq_refl Ha Hb) |].
  split; [exact (bitwise_wf Z.lxor xorb a b Pxor Z.lxor_spec eq_refl Ha Hb) |].
  unfold wf, r128Not, not64. cbn [lo hi]. split; apply u64_range.
Qed.

Lemma r128_bitwise_witness :
  wf R128_max /\ wf R128_one /\
  to_u128 (r128And R128_max R128_one)
    = Z.land (to_u128 R128_max) (to_u128 R128_one).
Proof.
  split; [exact wf_max |]. split; [exact wf_one |].
  exact (proj1 (r128_bitwise R128_max R128_one wf_max wf_one)).
Defined.

(** ** Signed comparison, minimum and maximum *)

Lemma s64_range (x : Z) : - two63 <= s64 x < two63.
Proof.
  unfold s64. pose proof (u64_range x).
  destruct (Z.ltb_spec (u64 x) two63); consts; lia.
Qed.

Lemma s64_inj (x y : Z) :
  0 <= x < two64 -> 0 <= y < two64 -> s64 x = s64 y -> x = y.
Proof.
  intros Hx Hy. unfold s64. rewrite !u64_small by assumption.
  destruct (Z.ltb_spec x two63); destruct (Z.ltb_spec y two63); consts; lia.
Qed.

Lemma r128Cmp_compare (a b : R128) :
  wf a -> wf b ->
  r128Cmp a b =
    match to_s128 a ?= to_s128 b with Eq => 0 | Lt => -1 | Gt => 1 end.
Proof.
  intros [Hla Hha] [Hlb Hhb]. unfold r128Cmp, to_s128.
  pose proof (s64_range (hi a)) as Ra. pose proof (s64_range (hi b)) as Rb.
  destruct (Z.eqb_spec (hi a) (hi b)) as [E | E].
  - rewrite E.
    destruct (Z.eqb_spec (lo a) (lo b)) as [El | El].
    + rewrite El, Z.compare_refl. reflexivity.
    + destruct (Z.gtb_spec (lo a) (lo b)).
      * assert (C : (s64 (hi b) * two64 + lo a ?= s64 (hi b) * two64 + lo b) = Gt)
          by (apply Z.compare_gt_iff; lia).
        rewrite C. reflexivity.
      * assert (C : (s64 (hi b) * two64 + lo a ?= s64 (hi b) * two64 + lo b) = Lt)
          by (apply Z.compare_lt_iff; lia).
        rewrite C. reflexivity.
  - assert (N : s64 (hi a) <> s64 (hi b)).
    { intros H. apply E. apply s64_inj; assumption. }
    destruct (Z.gtb_spec (s64 (hi a)) (s64 (hi b))).
    + assert (C : (s64 (hi a) * two64 + lo a ?= s64 (hi b) * two64 + lo b) = Gt)
        by (apply Z.compare_gt_iff; consts; lia).
      rewrite C. reflexivity.
    + assert (C : (s64 (hi a) * two64 + lo a ?= s64 (hi b) * two64 + lo b) = Lt)
        by (apply Z.compare_lt_iff; consts; lia).
      rewrite C. reflexivity.
Qed.

(** X6.  [r128Cmp] is the three-way comparison of the signed values: [-1],
    [0] or [1] as the first is below, equal to or above the second.  So
    it is antisymmetric, and it answers [0] exactly on equal values. *)
Theorem r128Cmp_signed_order (a b : R128) :
  wf a -> wf b ->
  r128Cmp a b =
    match to_s128 a ?= to_s128 b with Eq => 0 | Lt => -1 | Gt => 1 end /\
  r128Cmp b a = - r128Cmp a b /\
  (r128Cmp a b = 0 <-> a = b).
Proof.
  intros Ha Hb.
  split; [apply r128Cmp_compare; assumption |].
  rewrite (r128Cmp_compare a b), (r128Cmp_compare b a) by assumption.
  rewrite (Z.compare_antisym (to_s128 a) (to_s128 b)).
  split.
  - destruct (to_s128 a ?= to_s128 b); reflexivity.
  - split.
    + intros H. apply to_u128_inj; try assumption.
      rewrite <- (to_s128_mod a Ha), <- (to_s128_mod b Hb). f_equal.
      destruct (to_s128 a ?= to_s128 b) eqn:C; try discriminate.
      apply Z.compare_eq, C.
    + intros ->. rewrite Z.compare_refl. reflexivity.
Qed.

Lemma r128Cmp_signed_order_witness :
  wf R128_min /\ wf R128_max /\ r128Cmp R128_max R128_min = - r128Cmp R128_min R128_max.
Proof.
  split; [exact wf_min |]. split; [exact wf_max |].
  exact (proj1 (proj2 (r128Cmp_signed_order R128_min R128_max wf_min wf_max))).
Defined.

(** X7.  [r128Min] and [r128Max] return one of their arguments, the one
    with the smaller, respectively larger, signed value. *)
Theorem r128Min_Max_value (a b : R128) :
  wf a -> wf b ->
  to_s128 (r128Min a b) = Z.min (to_s128 a) (to_s128 b) /\
  to_s128 (r128Max a b) = Z.max (to_s128 a) (to_s128 b) /\
  (r128Min a b = a \/ r128Min a b = b) /\
  (r128Max a b = a \/ r128Max a b = b).
Proof.
  intros Ha Hb. unfold r128Min, r128Max.
  rewrite !r128Copy_id, (r128Cmp_compare a b) by assumption.
  destruct (Z.compare_spec (to_s128 a) (to_s128 b)) as [C | C | C];
    cbn [Z.ltb Z.gtb Z.compare]; repeat split; try lia; auto.
Qed.

Lemma r128Min_Max_value_witness :
  wf R128_min /\ wf R128_one /\
  to_s128 (r128Min R128_min R128_one)
    = Z.min (to_s128 R128_min) (to_s128 R128_one).
Proof.
  split; [exact wf_min |]. split; [exact wf_one |].
  exact (proj1 (r128Min_Max_value R128_min R128_one wf_min wf_one)).
Defined.

(** X8.  [r128IsNeg] answers true exactly on the values below zero, which
    are those with the top bit of [hi] set. *)
Theorem r128IsNeg_sign (v : R128) :
  wf v ->
  (r128IsNeg v = true <-> to_s128 v < 0) /\
  (r128IsNeg v = true <-> two63 <= hi v).
Proof.
  intros Hv. split.
  - rewrite (r128IsNeg_spec v Hv). apply Z.ltb_lt.
  - destruct Hv as [_ Hh]. unfold r128IsNeg, s64.
    rewrite u64_small by exact Hh.
    destruct (Z.ltb_spec (hi v) two63);
      destruct (Z.ltb_spec (hi v) 0); destruct (Z.ltb_spec (hi v - two64) 0);
      split; intros; try discriminate; try reflexivity; consts; lia.
Qed.

Lemma r128IsNeg_sign_witness :
  r128IsNeg R128_min = true <-> to_s128 R128_min < 0.
Proof. exact (proj1 (r128IsNeg_sign R128_min wf_min)). Defined.

(** ** Integers *)

Lemma s64_u64 (x : Z) : - two63 <= x < two63 -> s64 (u64 x) = x.
Proof.
  intros H. unfold s64.
  assert (E : u64 (u64 x) = u64 x) by (unfold u64; apply Z.mod_mod; consts; lia).
  rewrite E. unfold u64.
  destruct (Z.ltb_spec (x mod two64) two63); zarith.
Qed.

(** X9.  A signed 64-bit integer embeds exactly: [r128FromInt n] denotes
    [n], [r128ToInt] gives [n] back, and the embedding keeps the order. *)
Theorem r128FromInt_exact (m n : Z) :
  - two63 <= m < two63 -> - two63 <= n < two63 ->
  to_s128 (r128FromInt n) = n * two64 /\
  r128ToInt (r128FromInt n) = n /\
  wf (r128FromInt n) /\
  r128Cmp (r128FromInt m) (r128FromInt n) =
    match m ?= n with Eq => 0 | Lt => -1 | Gt => 1 end.
Proof.
  intros Hm Hn.
  assert (W : forall k, wf (r128FromInt k)).
  { intros k. unfold wf, r128FromInt. cbn [lo hi].
    split; [consts; lia | apply u64_range]. }
  assert (V : forall k, - two63 <= k < two63 ->
                        to_s128 (r128FromInt k) = k * two64).
  { intros k Hk. unfold to_s128, r128FromInt. cbn [lo hi].
    rewrite s64_u64 by assumption. lia. }
  split; [apply V, Hn |].
  split; [unfold r128ToInt, r128FromInt; cbn [hi]; apply s64_u64, Hn |].
  split; [apply W |].
  rewrite r128Cmp_compare by apply W. rewrite (V m Hm), (V n Hn).
  destruct (Z.compare_spec m n);
    destruct (Z.compare_spec (m * two64) (n * two64));
    try reflexivity; consts; lia.
Qed.

Lemma r128FromInt_exact_witness :
  - two63 <= -5 < two63 /\ - two63 <= 7 < two63 /\
  r128ToInt (r128FromInt 7) = 7.
Proof.
  assert (H1 : - two63 <= -5 < two63) by (consts; lia).
  assert (H2 : - two63 <= 7 < two63) by (consts; lia).
  split; [exact H1 |]. split; [exact H2 |].
  exact (proj1 (proj2 (r128FromInt_exact (-5) 7 H1 H2))).
Defined.

(** X10.  [r128ToInt] rounds toward minus infinity, for negative values
    too: it is the largest integer that is not above the value, and
    [r128FromInt] of it is at most the value and within one of it. *)
Theorem r128ToInt_rounds_down (v : R128) :
  wf v ->
  r128ToInt v = to_s128 v / two64 /\
  to_s128 (r128FromInt (r128ToInt v)) <= to_s128 v
    < to_s128 (r128FromInt (r128ToInt v)) + two64.
Proof.
  intros Hv. split; [exact (r128ToInt_floor v Hv) |].
  rewrite (r128FromInt_ToInt v Hv). destruct Hv as [Hl Hh].
  unfold to_s128. cbn [lo hi]. lia.
Qed.

Lemma r128ToInt_rounds_down_witness :
  r128ToInt (r128Neg R128_smallest)
  = to_s128 (r128Neg R128_smallest) / two64.
Proof.
  apply (r128ToInt_rounds_down (r128Neg R128_smallest)).
  apply r128Neg_wf.
Defined.

(** X11.  [r128Floor] is the floor on every non-negative value and on every
    value without a fraction; [r128Ceil] is the ceiling on every value
    without a fraction and on every value whose integer part is at least
    one and below [2^63 - 1]. *)
Theorem r128Floor_Ceil_exact (v : R128) :
  wf v ->
  (hi v < two63 \/ lo v = 0 ->
   to_s128 (r128Floor v) = to_s128 v / two64 * two64) /\
  (lo v = 0 \/ 0 < hi v < two63 - 1 ->
   to_s128 (r128Ceil v) = (to_s128 v + two64 - 1) / two64 * two64).
Proof.
  intros [Hl Hh]. unfold to_s128, r128Floor, r128Ceil.
  pose proof (s64_range (hi v)) as R.
  split; intros H.
  - destruct (Z.ltb_spec (s64 (hi v)) 0) as [Hs | Hs]; cbn [lo hi].
    + destruct H as [H | H].
      * rewrite s64_small in Hs by lia. lia.
      * rewrite H. cbn [Z.eqb negb]. rewrite Z.sub_0_r.
        rewrite u64_small by assumption.
        set (s := s64 (hi v)) in *. clearbody s. zarith.
    + set (s := s64 (hi v)) in *. clearbody s. zarith.
  - destruct (Z.gtb_spec (s64 (hi v)) 0) as [Hs | Hs]; cbn [lo hi].
    + destruct H as [H | H].
      * rewrite H. cbn [Z.eqb negb]. rewrite !Z.add_0_r.
        rewrite u64_small by assumption.
        set (s := s64 (hi v)) in *. clearbody s. zarith.
      * rewrite (s64_small (hi v)) by lia.
        destruct (Z.eqb_spec (lo v) 0) as [E | E]; cbn [negb].
        -- rewrite Z.add_0_r, u64_small, s64_small by (consts; lia). zarith.
        -- rewrite u64_small, s64_small by (consts; lia). zarith.
    + destruct H as [H | H].
      * rewrite H. set (s := s64 (hi v)) in *. clearbody s. zarith.
      * rewrite s64_small in Hs by lia. lia.
Qed.

Lemma r128Floor_Ceil_exact_witness :
  wf {| lo := two63; hi := 3 |} /\
  to_s128 (r128Ceil {| lo := two63; hi := 3 |})
    = (to_s128 {| lo := two63; hi := 3 |} + two64 - 1) / two64 * two64.
Proof.
  assert (H : wf {| lo := two63; hi := 3 |})
    by (unfold wf; cbn [lo hi]; consts; lia).
  split; [exact H |].
  apply (proj2 (r128Floor_Ceil_exact {| lo := two63; hi := 3 |} H)).
  right. cbn [hi]. consts. lia.
Defined.

(** ** Arithmetic shift, and shifts in sequence *)

Lemma u64_s64 (x : Z) : u64 (s64 x) = u64 x.
Proof.
  unfold s64. destruct (u64 x <? two63).
  - unfold u64. apply Z.mod_mod. consts. lia.
  - unfold u64. zarith.
Qed.

Lemma div_pow2_signed (s P : Z) :
  - two63 <= s < two63 -> 0 < P ->
  - two63 <= s / P < two63 /\ (s < 0 -> s / P < 0) /\ (0 <= s -> 0 <= s / P).
Proof.
  intros Hs HP.
  pose proof (Z.div_mod s P ltac:(lia)) as D.
  pose proof (Z.mod_pos_bound s P HP) as B.
  assert (0 < two63) by (consts; lia).
  repeat split; try nia; intros; apply Z.div_pos; lia.
Qed.

Lemma r128Sar_value_wf (v : R128) (k : Z) :
  wf v ->
  to_s128 (r128Sar v k) = to_s128 v / 2 ^ (k mod 128) /\ wf (r128Sar v k).
Proof.
  destruct v as [l h]. unfold wf, to_s128, r128Sar. cbn [lo hi].
  intros [Hl Hh]. rewrite land_127.
  assert (Ha : 0 <= k mod 128 < 128) by (apply Z.mod_pos_bound; lia).
  set (a := k mod 128) in *.
  pose proof (s64_range h) as Rs. set (s := s64 h) in *.
  assert (H64 : 0 < two64) by (consts; lia).
  destruct (Z.geb_spec a 64) as [Hge | Hlt].
  - clearbody s. cbn [lo hi]. rewrite !Z.shiftr_div_pow2 by lia.
    set (P := 2 ^ (a - 64)).
    assert (HP : 0 < P) by (apply Z.pow_pos_nonneg; lia).
    destruct (div_pow2_signed s P Rs HP) as (Rq & Nq & Pq).
    assert (H63 : 0 < 2 ^ 63) by lia.
    destruct (div_pow2_signed s (2 ^ 63) Rs H63) as (Rt & Nt & Pt).
    split; [| split; apply u64_range].
    rewrite s64_u64 by assumption.
    replace (2 ^ a) with (two64 * P).
    2:{ unfold P, two64. rewrite <- Z.pow_add_r by lia. f_equal. lia. }
    rewrite <- Z.div_div by lia.
    rewrite Z.div_add_l by lia.
    rewrite (Z.div_small l two64) by lia. rewrite Z.add_0_r.
    set (q := s / P) in *. clearbody q.
    assert (T : s / 2 ^ 63 = if s <? 0 then -1 else 0).
    { destruct (Z.ltb_spec s 0); revert Rs; clear - H; zarith. }
    rewrite T. unfold u64.
    destruct (Z.ltb_spec s 0).
    + specialize (Nq ltac:(lia)). revert Rq Nq. clear. zarith.
    + specialize (Pq ltac:(lia)). revert Rq Pq. clear. zarith.
  - destruct (Z.eqb_spec a 0) as [H0 | Hn0]; cbn [negb lo hi].
    + rewrite H0, Z.pow_0_r, Z.div_1_r. split; [reflexivity | split; assumption].
    + clearbody s.
      assert (H : 0 < a < 64) by lia.
      assert (H' : 0 < 64 - a < 64) by lia.
      destruct (pow2_split a H) as (E & HA & HB).
      rewrite u64_s64, u64_shiftl by assumption.
      replace (64 - (64 - a)) with a by lia.
      rewrite !Z.shiftr_div_pow2 by lia.
      assert (Hlq : 0 <= l / 2 ^ a < 2 ^ (64 - a)).
      { split; [apply Z.div_pos; lia |].
        apply Z.div_lt_upper_bound; lia. }
      rewrite Z.lor_comm, lor_disjoint by lia.
      set (A := 2 ^ a) in *. set (B := 2 ^ (64 - a)) in *.
      destruct (div_pow2_signed s A Rs HA) as (Rq & _ & _).
      rewrite s64_u64 by assumption.
      pose proof (Z.div_mod s A ltac:(lia)) as Ds.
      pose proof (Z.mod_pos_bound s A HA) as Bs.
      split.
      * replace (s * two64 + l) with (s * B * A + l) by (rewrite <- E; ring).
        rewrite Z.div_add_l by lia.
        rewrite <- E. rewrite Ds at 3. ring.
      * unfold wf. cbn [lo hi]. split; [| apply u64_range]. nia.
Qed.

(** X12.  [r128Sar] is the arithmetic shift: it divides the signed value by
    [2^(amount mod 128)], rounding toward minus infinity.  A shift by 127
    leaves [R128_zero] for a non-negative value and all ones for a
    negative one. *)
Theorem r128Sar_value (v : R128) (k : Z) :
  wf v ->
  to_s128 (r128Sar v k) = to_s128 v / 2 ^ (k mod 128) /\
  wf (r128Sar v k) /\
  r128Sar v 127 =
    if r128IsNeg v then
      {| lo := 0xffffffffffffffff; hi := 0xffffffffffffffff |}
    else R128_zero.
Proof.
  intros Hv.
  destruct (r128Sar_value_wf v k Hv) as [V W].
  split; [exact V |]. split; [exact W |].
  destruct (r128Sar_value_wf v 127 Hv) as [V' W'].
  change (127 mod 128) with 127 in V'.
  rewrite r128IsNeg_spec by assumption.
  pose proof (to_s128_range v Hv) as R.
  assert (T : to_s128 v / 2 ^ 127 = if to_s128 v <? 0 then -1 else 0).
  { destruct (Z.ltb_spec (to_s128 v) 0); zarith127. }
  rewrite T in V'.
  apply to_u128_inj; [exact W' | |].
  - destruct (to_s128 v <? 0); unfold wf, R128_zero; cbn [lo hi]; consts; lia.
  - rewrite <- (to_s128_mod _ W'), V'.
    destruct (to_s128 v <? 0); reflexivity.
Qed.

Lemma r128Sar_value_witness :
  wf R128_min /\ to_s128 (r128Sar R128_min 3) = to_s128 R128_min / 2 ^ (3 mod 128).
Proof.
  split; [exact wf_min |].
  exact (proj1 (r128Sar_value R128_min 3 wf_min)).
Defined.

(** X13.  A left shift followed by a logical right shift by the same amount
    clears the top [amount mod 128] bits and keeps the rest. *)
Theorem r128Shr_Shl (v : R128) (k : Z) :
  wf v ->
  to_u128 (r128Shr (r128Shl v k) k) = to_u128 v mod 2 ^ (128 - k mod 128).
Proof.
  intros Hv.
  rewrite r128Shr_value by (apply r128Shl_wf; assumption).
  rewrite r128Shl_value by assumption.
  assert (Ha : 0 <= k mod 128 < 128) by (apply Z.mod_pos_bound; lia).
  set (a := k mod 128) in *.
  assert (HA : 0 < 2 ^ a) by (apply Z.pow_pos_nonneg; lia).
  assert (HB : 0 < 2 ^ (128 - a)) by (apply Z.pow_pos_nonneg; lia).
  replace two128 with (2 ^ (128 - a) * 2 ^ a).
  2:{ rewrite <- Z.pow_add_r by lia. unfold two128. f_equal. lia. }
  rewrite Z.mul_mod_distr_r by lia.
  apply Z.div_mul. lia.
Qed.

Lemma r128Shr_Shl_witness :
  wf R128_max /\
  to_u128 (r128Shr (r128Shl R128_max 100) 100)
    = to_u128 R128_max mod 2 ^ (128 - 100 mod 128).
Proof.
  split; [exact wf_max | exact (r128Shr_Shl R128_max 100 wf_max)].
Defined.

(** ** Multiplication *)

Lemma r128__umul_wf (a b : R128) : wf (r128__umul a b).
Proof. unfold r128__umul, wf. cbn [lo hi]. split; apply u64_range. Qed.

Lemma word_product (x y : Z) :
  0 <= x < two64 -> 0 <= y < two64 -> 0 <= x * y < two128.
Proof. intros Hx Hy. consts. nia. Qed.

(** The magnitude multiply: the 256-bit product of the 128-bit integers,
    plus a half, cut to bits 64 to 191. *)
Lemma r128__umul_to_u128 (a b : R128) :
  wf a -> wf b ->
  to_u128 (r128__umul a b)
    = ((to_u128 a * to_u128 b + two63) / two64) mod two128.
Proof.
  destruct a as [la ha], b as [lb hb].
  unfold wf, to_u128, r128__umul. cbn [lo hi]. intros [Hla Hha] [Hlb Hhb].
  pose proof (word_product la lb Hla Hlb) as B0.
  pose proof (word_product la hb Hla Hhb) as B1.
  pose proof (word_product ha lb Hha Hlb) as B2.
  pose proof (word_product ha hb Hha Hhb) as B3.
  rewrite (Z.mod_small (la * lb)), (Z.mod_small (la * hb)),
    (Z.mod_small (ha * lb)), (Z.mod_small (ha * hb)) by assumption.
  replace ((ha * two64 + la) * (hb * two64 + lb))
    with (ha * hb * two128 + (la * hb + ha * lb) * two64 + la * lb)
    by (unfold two128, two64; ring).
  rewrite Z.shiftl_mul_pow2, !Z.shiftr_div_pow2 by lia.
  set (p0 := la * lb) in *. set (p1 := la * hb) in *.
  set (p2 := ha * lb) in *. set (p3 := ha * hb) in *.
  clearbody p0 p1 p2 p3. unfold u64. zarith.
Qed.

Lemma r128__umul_comm (a b : R128) : r128__umul a b = r128__umul b a.
Proof.
  unfold r128__umul.
  rewrite (Z.mul_comm (lo b) (lo a)), (Z.mul_comm (lo b) (hi a)),
    (Z.mul_comm (hi b) (lo a)), (Z.mul_comm (hi b) (hi a)).
  set (p0 := (lo a * lo b) mod two128). set (p1 := (lo a * hi b) mod two128).
  set (p2 := (hi a * lo b) mod two128). set (p3 := (hi a * hi b) mod two128).
  replace (Z.shiftl p3 64 + p1 + p2 + Z.shiftr p0 64 + Z.shiftr (u64 p0) 63)
    with (Z.shiftl p3 64 + p2 + p1 + Z.shiftr p0 64 + Z.shiftr (u64 p0) 63)
    by ring.
  reflexivity.
Qed.

(** X14.  Multiplication is commutative, on every pair of values. *)
Theorem r128Mul_comm (a b : R128) : r128Mul a b = r128Mul b a.
Proof.
  unfold r128Mul. rewrite !r128Copy_id.
  destruct (r128IsNeg a), (r128IsNeg b); cbn [negb];
    rewrite (r128__umul_comm _ _); reflexivity.
Qed.

(** The magnitude of a value, as the operations take it: the value
    itself, or its negation when it is negative. *)
Lemma magnitude_to_u128 (v : R128) :
  wf v ->
  to_u128 (if r128IsNeg v then r128Neg v else v) = Z.abs (to_s128 v) /\
  wf (if r128IsNeg v then r128Neg v else v).
Proof.
  intros Hv. rewrite r128IsNeg_spec by assumption.
  pose proof (to_s128_range v Hv) as R.
  pose proof (to_u128_range v Hv) as U.
  pose proof (to_s128_to_u128 v Hv) as E.
  destruct (Z.ltb_spec (to_s128 v) 0) as [Hn | Hn].
  - split; [| apply r128Neg_wf].
    rewrite r128Neg_to_u128 by assumption.
    destruct (Z.ltb_spec (to_u128 v) (2 ^ 127)); [lia |].
    rewrite Z.abs_neq by lia. rewrite E.
    set (u := to_u128 v) in *. clearbody u. zarith127.
  - split; [| exact Hv].
    destruct (Z.ltb_spec (to_u128 v) (2 ^ 127)); [| consts; lia].
    rewrite Z.abs_eq by lia. lia.
Qed.

(** X15.  Multiplication of signed values: the magnitudes are multiplied and
    the product is rounded to the nearest multiple of [2^-64], a half
    going away from zero; the sign is the product of the signs.  This holds
    whenever the rounded magnitude is representable. *)
Theorem r128Mul_value (a b : R128) :
  wf a -> wf b ->
  (Z.abs (to_s128 a) * Z.abs (to_s128 b) + two63) / two64 < 2 ^ 127 ->
  to_s128 (r128Mul a b)
    = Z.sgn (to_s128 a) * Z.sgn (to_s128 b)
      * ((Z.abs (to_s128 a) * Z.abs (to_s128 b) + two63) / two64).
Proof.
  intros Ha Hb Hm. unfold r128Mul. rewrite !r128Copy_id.
  destruct (magnitude_to_u128 a Ha) as [Ma Wa].
  destruct (magnitude_to_u128 b Hb) as [Mb Wb].
  set (m := (Z.abs (to_s128 a) * Z.abs (to_s128 b) + two63) / two64) in *.
  assert (Hm0 : 0 <= m).
  { unfold m. apply Z.div_pos; [| consts; lia].
    pose proof (Z.abs_nonneg (to_s128 a)). pose proof (Z.abs_nonneg (to_s128 b)).
    consts. nia. }
  assert (U : forall ta tb,
             wf ta -> wf tb ->
             to_u128 ta = Z.abs (to_s128 a) -> to_u128 tb = Z.abs (to_s128 b) ->
             to_u128 (r128__umul ta tb) = m /\ wf (r128__umul ta tb)).
  { intros ta tb Wta Wtb Ea Eb. split; [| apply r128__umul_wf].
    rewrite r128__umul_to_u128, Ea, Eb by assumption. fold m.
    apply Z.mod_small. consts. lia. }
  assert (P : forall tc, wf tc -> to_u128 tc = m -> to_s128 tc = m).
  { intros tc Wc Ec. apply to_s128_of_residue; [exact Wc | | lia].
    rewrite Ec. symmetry. apply Z.mod_small. consts. lia. }
  assert (N : forall tc, wf tc -> to_u128 tc = m -> to_s128 (r128Neg tc) = - m).
  { intros tc Wc Ec. apply to_s128_of_residue; [apply r128Neg_wf | | lia].
    rewrite r128Neg_to_u128, Ec by assumption. reflexivity. }
  assert (Z0 : to_s128 a = 0 \/ to_s128 b = 0 -> m = 0).
  { intros [E | E]; unfold m; rewrite E; cbn [Z.abs];
      rewrite ?Z.mul_0_l, ?Z.mul_0_r; reflexivity. }
  pose proof (r128IsNeg_spec a Ha) as Sa. pose proof (r128IsNeg_spec b Hb) as Sb.
  destruct (r128IsNeg a), (r128IsNeg b); cbn [negb];
    destruct (U _ _ Wa Wb Ma Mb) as [Eu Wu];
    rewrite ?r128Copy_id;
    symmetry in Sa, Sb;
    first [apply Z.ltb_lt in Sa | apply Z.ltb_ge in Sa];
    first [apply Z.ltb_lt in Sb | apply Z.ltb_ge in Sb].
  - rewrite (P _ Wu Eu), !Z.sgn_neg by assumption. ring.
  - rewrite (N _ Wu Eu). rewrite (Z.sgn_neg (to_s128 a)) by assumption.
    destruct (Z.eq_dec (to_s128 b) 0) as [E | E].
    + rewrite (Z0 (or_intror E)). ring.
    + rewrite Z.sgn_pos by lia. ring.
  - rewrite (N _ Wu Eu). rewrite (Z.sgn_neg (to_s128 b)) by assumption.
    destruct (Z.eq_dec (to_s128 a) 0) as [E | E].
    + rewrite (Z0 (or_introl E)). ring.
    + rewrite Z.sgn_pos by lia. ring.
  - rewrite (P _ Wu Eu).
    destruct (Z.eq_dec (to_s128 a) 0) as [E | E];
      [rewrite (Z0 (or_introl E)); ring |].
    destruct (Z.eq_dec (to_s128 b) 0) as [E' | E'];
      [rewrite (Z0 (or_intror E')); ring |].
    rewrite !Z.sgn_pos by lia. ring.
Qed.

Lemma r128Mul_value_witness :
  wf (r128FromInt (-2)) /\ wf {| lo := two63; hi := 1 |} /\
  to_s128 (r128Mul (r128FromInt (-2)) {| lo := two63; hi := 1 |})
    = -3 * two64.
Proof.
  assert (Ha : wf (r128FromInt (-2)))
    by (unfold wf; cbn [lo hi r128FromInt]; split; [consts; lia | apply u64_range]).
  assert (Hb : wf {| lo := two63; hi := 1 |})
    by (unfold wf; cbn [lo hi]; consts; lia).
  split; [exact Ha |]. split; [exact Hb |].
  apply (r128Mul_value (r128FromInt (-2)) {| lo := two63; hi := 1 |} Ha Hb).
  vm_compute. reflexivity.
Defined.

(** ** Division: normalisation *)

Lemma r128__clz64_spec (x : Z) :
  0 < x < two64 ->
  0 <= r128__clz64 x <= 63 /\
  two63 <= x * 2 ^ r128__clz64 x /\
  (x + 1) * 2 ^ r128__clz64 x <= two64.
Proof.
  intros Hx. unfold r128__clz64.
  destruct (Z.eqb_spec x 0); [lia |].
  pose proof (Z.log2_spec x ltac:(lia)) as [L1 L2].
  pose proof (Z.log2_nonneg x) as L0.
  assert (L63 : Z.log2 x < 64) by (apply Z.log2_lt_pow2; [lia | exact (proj2 Hx)]).
  split; [lia |].
  assert (E1 : two63 = 2 ^ Z.log2 x * 2 ^ (63 - Z.log2 x)).
  { rewrite <- Z.pow_add_r by lia. unfold two63. f_equal. lia. }
  assert (E2 : two64 = 2 ^ Z.succ (Z.log2 x) * 2 ^ (63 - Z.log2 x)).
  { rewrite <- Z.pow_add_r by lia. unfold two64. f_equal. lia. }
  assert (HP : 0 < 2 ^ (63 - Z.log2 x)) by (apply Z.pow_pos_nonneg; lia).
  rewrite E1, E2. split; nia.
Qed.

Lemma R128_SET2_wf (v : R128) : wf v -> R128_SET2 (lo v) (hi v) = v.
Proof.
  destruct v as [l h]. unfold wf, R128_SET2. cbn [lo hi]. intros [Hl Hh].
  rewrite !u64_small by assumption. reflexivity.
Qed.

(** With a divisor of one or more, [r128__norm] shifts both operands
    left by the leading zeros of the divisor's [hi]; the bits shifted out
    of the dividend are [n2]. *)
Lemma r128__norm_hi (n d : R128) :
  wf n -> wf d -> hi d <> 0 ->
  r128__norm n d =
    NormOk (r128Shl n (r128__clz64 (hi d))) (r128Shl d (r128__clz64 (hi d)))
      (Z.shiftr (hi n) (64 - r128__clz64 (hi d))).
Proof.
  intros Hn Hd Hnz.
  destruct (r128__clz64_spec (hi d)) as (Hs & _); [destruct Hd; lia |].
  set (s := r128__clz64 (hi d)) in *.
  pose proof (r128Shl_wf n s Hn) as Wn. pose proof (r128Shl_wf d s Hd) as Wd.
  unfold r128__norm. fold s.
  destruct (Z.eqb_spec (hi d) 0); [contradiction |]. cbn [negb].
  destruct (Z.eqb_spec s 0) as [E | E]; cbn [negb].
  - rewrite E in *. rewrite !R128_SET2_wf by assumption.
    replace (r128Shl n 0) with n by (destruct n; reflexivity).
    replace (r128Shl d 0) with d by (destruct d; reflexivity).
    rewrite Z.shiftr_div_pow2 by lia.
    rewrite Z.div_small by (destruct Hn; assumption). reflexivity.
  - assert (Es : forall v, r128Shl v s =
               {| lo := u64 (Z.shiftl (lo v) s);
                  hi := Z.lor (u64 (Z.shiftl (hi v) s))
                          (Z.shiftr (lo v) (64 - s)) |}).
    { intros v. unfold r128Shl. rewrite land_127.
      rewrite (Z.mod_small s 128) by lia.
      destruct (Z.geb_spec s 64); [lia |].
      destruct (Z.eqb_spec s 0); [contradiction | reflexivity]. }
    rewrite (Es n) in Wn |- *. rewrite (Es d) in Wd |- *.
    pose proof (R128_SET2_wf _ Wn) as Rn. pose proof (R128_SET2_wf _ Wd) as Rd.
    cbn [lo hi] in Rn, Rd. rewrite Rn, Rd. reflexivity.
Qed.

Lemma r128__norm_hi_facts (n d : R128) :
  wf n -> wf d -> hi d <> 0 ->
  exists (s : Z) (n' d' : R128) (n3 : Z),
    r128__norm n d = NormOk n' d' n3 /\
    0 <= s < 64 /\
    wf n' /\ wf d' /\
    to_u128 d' = to_u128 d * 2 ^ s /\
    two63 <= hi d' /\
    lo d' = u64 (lo d * 2 ^ s) /\
    n3 * two128 + to_u128 n' = to_u128 n * 2 ^ s /\
    0 <= n3 < 2 ^ s.
Proof.
  intros Hn Hd Hnz.
  destruct (r128__clz64_spec (hi d)) as (Hs & Hlow & Hup); [destruct Hd; lia |].
  exists (r128__clz64 (hi d)), (r128Shl n (r128__clz64 (hi d))),
    (r128Shl d (r128__clz64 (hi d))),
    (Z.shiftr (hi n) (64 - r128__clz64 (hi d))).
  set (s := r128__clz64 (hi d)) in *.
  pose proof (r128Shl_wf n s Hn) as Wn. pose proof (r128Shl_wf d s Hd) as Wd.
  assert (HP : 0 < 2 ^ s) by (apply Z.pow_pos_nonneg; lia).
  assert (HQ : 0 < 2 ^ (64 - s)) by (apply Z.pow_pos_nonneg; lia).
  assert (E64 : two64 = 2 ^ s * 2 ^ (64 - s)).
  { rewrite <- Z.pow_add_r by lia. unfold two64. f_equal. lia. }
  assert (Vd : to_u128 (r128Shl d s) = to_u128 d * 2 ^ s).
  { rewrite r128Shl_value by assumption. rewrite (Z.mod_small s 128) by lia.
    apply Z.mod_small. destruct Hd as [Hdl Hdh]. unfold to_u128.
    assert (E128 : two128 = two64 * two64) by reflexivity.
    assert (0 < two64) by (consts; lia). nia. }
  split; [apply r128__norm_hi; assumption |].
  split; [lia |]. split; [exact Wn |]. split; [exact Wd |].
  split; [exact Vd |].
  split.
  { destruct Wd as [Wl Wh]. unfold to_u128 in Vd.
    destruct Hd as [Hdl Hdh].
    assert (two63 * two64 <= (hi d * two64 + lo d) * 2 ^ s)
      by (assert (0 < two64) by (consts; lia); nia).
    assert (0 < two64) by (consts; lia). nia. }
  split.
  { unfold r128Shl. rewrite land_127, (Z.mod_small s 128) by lia.
    destruct (Z.geb_spec s 64); [lia |].
    destruct (Z.eqb_spec s 0) as [E | E]; cbn [negb lo].
    - rewrite E, Z.pow_0_r, Z.mul_1_r. symmetry. apply u64_small.
      destruct Hd; assumption.
    - rewrite Z.shiftl_mul_pow2 by lia. reflexivity. }
  assert (N3 : Z.shiftr (hi n) (64 - s) = to_u128 n * 2 ^ s / two128).
  { rewrite Z.shiftr_div_pow2 by lia.
    replace two128 with (2 ^ (64 - s) * two64 * 2 ^ s).
    2:{ rewrite E64. unfold two128. rewrite <- !Z.pow_add_r by lia.
        f_equal. lia. }
    rewrite Z.div_mul_cancel_r by lia.
    rewrite (Z.mul_comm (2 ^ (64 - s))), <- Z.div_div by (consts; lia).
    unfold to_u128. rewrite Z.div_add_l by (consts; lia).
    rewrite (Z.div_small (lo n)) by (destruct Hn; assumption).
    rewrite Z.add_0_r. reflexivity. }
  split.
  - rewrite r128Shl_value by assumption. rewrite (Z.mod_small s 128) by lia.
    rewrite N3.
    pose proof (Z.div_mod (to_u128 n * 2 ^ s) two128 ltac:(consts; lia)).
    lia.
  - rewrite Z.shiftr_div_pow2 by lia. destruct Hn as [_ Hh]. split.
    + apply Z.div_pos; lia.
    + apply Z.div_lt_upper_bound; [lia |]. rewrite (Z.mul_comm _ (2 ^ s)), <- E64. lia.
Qed.

(** X16.  Normalisation for a divisor of one or more: both operands are
    scaled by the same power of two below [2^64], the scaled divisor has
    its top bit set, and the dividend's overflow limb is below that power
    of two. *)
Theorem r128__norm_scales (n d : R128) :
  wf n -> wf d -> hi d <> 0 ->
  exists (s : Z) (n' d' : R128) (n3 : Z),
    r128__norm n d = NormOk n' d' n3 /\
    0 <= s < 64 /\
    to_u128 d' = to_u128 d * 2 ^ s /\
    two63 <= hi d' < two64 /\
    n3 * two128 + to_u128 n' = to_u128 n * 2 ^ s /\
    0 <= n3 < 2 ^ s /\ n3 < hi d'.
Proof.
  intros Hn Hd Hnz.
  destruct (r128__norm_hi_facts n d Hn Hd Hnz)
    as (s & n' & d' & n3 & E & Hs & Wn & Wd & Vd & Hd1 & _ & Vn & Hn3).
  exists s, n', d', n3.
  assert (2 ^ s <= two63).
  { unfold two63. apply Z.pow_le_mono_r; lia. }
  destruct Wd as [_ Wh].
  repeat split; try assumption; lia.
Qed.

Lemma r128__norm_scales_witness :
  wf R128_max /\ wf {| lo := 5; hi := 3 |} /\
  exists (s : Z) (n' d' : R128) (n3 : Z),
    r128__norm R128_max {| lo := 5; hi := 3 |} = NormOk n' d' n3 /\
    0 <= s < 64 /\
    to_u128 d' = to_u128 {| lo := 5; hi := 3 |} * 2 ^ s /\
    two63 <= hi d' < two64 /\
    n3 * two128 + to_u128 n' = to_u128 R128_max * 2 ^ s /\
    0 <= n3 < 2 ^ s /\ n3 < hi d'.
Proof.
  assert (Hd : wf {| lo := 5; hi := 3 |})
    by (unfold wf; cbn [lo hi]; consts; lia).
  split; [exact wf_max |]. split; [exact Hd |].
  apply (r128__norm_scales R128_max {| lo := 5; hi := 3 |} wf_max Hd).
  cbn [hi]. discriminate.
Defined.

(** ** Division by an integer *)

(** With [d0 = 0] the refinement loop leaves the trial digit alone. *)
Lemma refine_d0_zero (n1 t0lo q r : Z) :
  0 <= t0lo -> refine 0 n1 t0lo q r = q.
Proof.
  intros Ht. rewrite refine_unfold. unfold refine_step, r128__umul128.
  rewrite Z.mul_0_r, Z.mod_0_l by (consts; lia).
  change (Z.shiftr 0 64) with 0. change (u64 0) with 0.
  rewrite r128__ucmp_spec. cbn [lo hi].
  destruct (0 =? r); [reflexivity |].
  destruct (Z.compare_spec 0 t0lo); try reflexivity. lia.
Qed.

Lemma udiv_digit_d0_zero (nlo nhi d1 n1 t0lo : Z) :
  0 <= t0lo -> 0 <= nhi < d1 ->
  udiv_digit nlo nhi d1 0 n1 t0lo = Some ((nhi * two64 + nlo) / d1).
Proof.
  intros Ht Hn. unfold udiv_digit, r128__udiv128.
  destruct (Z.ltb_spec nhi d1); [| lia]. cbn [negb].
  destruct (Z.eqb_spec d1 0); [lia |].
  destruct (Z.geb_spec nhi d1); [lia |]. cbn [orb].
  rewrite refine_d0_zero by assumption. reflexivity.
Qed.

(** The partial remainder after the first digit, for [d0 = 0]. *)
Lemma udiv_partial_remainder (n1 n2 n3 d1 : Z) :
  0 <= n1 < two64 -> 0 <= n2 < two64 -> 0 <= n3 < d1 -> d1 < two64 ->
  r128Sub {| lo := n1; hi := n2 |}
    (r128Add (r128__umul128 ((n3 * two64 + n2) / d1) 0)
       {| lo := 0;
          hi := lo (r128__umul128 ((n3 * two64 + n2) / d1) d1) |})
  = {| lo := n1; hi := (n3 * two64 + n2) mod d1 |}.
Proof.
  intros H1 H2 H3 Hd.
  pose proof (Z.div_mod (n3 * two64 + n2) d1 ltac:(lia)) as D.
  pose proof (Z.mod_pos_bound (n3 * two64 + n2) d1 ltac:(lia)) as B.
  set (q := (n3 * two64 + n2) / d1) in *.
  set (r := (n3 * two64 + n2) mod d1) in *.
  unfold r128__umul128. rewrite Z.mul_0_r, Z.mod_0_l by (consts; lia).
  change (Z.shiftr 0 64) with 0. change (u64 0) with 0.
  unfold r128Sub, r128Add, subborrow_u64, addcarry_u64. cbn [lo hi].
  change (0 + 0 + 0) with 0. change (u64 0) with 0. change (0 / two64) with 0.
  rewrite Z.sub_0_r.
  destruct (Z.ltb_spec (n1 - 0) 0); [lia |].
  rewrite Z.sub_0_r, (u64_small n1) by assumption.
  f_equal. rewrite (Z.mul_comm q d1).
  set (p := d1 * q) in *. clearbody p q r. unfold u64. zarith.
Qed.

Lemma long_division_step (X n1 d B : Z) :
  0 < d -> (X * B + n1) / d = X / d * B + (X mod d * B + n1) / d.
Proof.
  intros Hd. pose proof (Z.div_mod X d ltac:(lia)) as D.
  replace (X * B + n1) with (X / d * B * d + (X mod d * B + n1)).
  - apply Z.div_add_l. lia.
  - rewrite D at 3. ring.
Qed.

(** The unsigned kernel on a divisor without a fraction: no assertion
    fails, and the quotient is the 128-bit integer of the dividend divided
    by the divisor's integer part, rounded down. *)
Lemma r128__udiv_integer (n d : R128) :
  wf n -> wf d -> lo d = 0 -> hi d <> 0 ->
  exists q : R128,
    r128__udiv n d = Some q /\ wf q /\ to_u128 q = to_u128 n / hi d.
Proof.
  intros Hn Hd Hl Hh.
  destruct (r128__norm_hi_facts n d Hn Hd Hh)
    as (s & n' & d' & n3 & E & Hs & Wn & Wd & Vd & Hd1 & Ld & Vn & Hn3).
  rewrite Hl, Z.mul_0_l in Ld. change (u64 0) with 0 in Ld.
  assert (HP : 0 < 2 ^ s) by (apply Z.pow_pos_nonneg; lia).
  assert (P63 : 2 ^ s <= two63) by (unfold two63; apply Z.pow_le_mono_r; lia).
  assert (D1 : hi d' = hi d * 2 ^ s).
  { unfold to_u128 in Vd. rewrite Ld, Hl in Vd.
    assert (0 < two64) by (consts; lia). nia. }
  destruct Wn as [Wn1 Wn2]. destruct Wd as [_ Wd2].
  unfold r128__udiv.
  destruct (Z.eqb_spec (hi d) 0); [contradiction |]. cbn [andb].
  rewrite !r128Copy_id, E. rewrite Ld.
  rewrite udiv_digit_d0_zero by lia.
  rewrite udiv_partial_remainder by lia. cbn [lo hi].
  set (X := n3 * two64 + hi n') in *.
  pose proof (Z.mod_pos_bound X (hi d') ltac:(lia)) as BX.
  rewrite udiv_digit_d0_zero by lia.
  eexists. split; [reflexivity |].
  rewrite r128Copy_id.
  assert (H64 : 0 < two64) by (consts; lia).
  assert (QX : 0 <= X / hi d' < two64).
  { split; [apply Z.div_pos; unfold X; nia |].
    apply Z.div_lt_upper_bound; [lia |]. unfold X. nia. }
  assert (QY : 0 <= (X mod hi d' * two64 + lo n') / hi d' < two64).
  { split; [apply Z.div_pos; nia |].
    apply Z.div_lt_upper_bound; [lia |]. nia. }
  split; [unfold wf; cbn [lo hi]; split; assumption |].
  unfold to_u128 at 1. cbn [lo hi].
  rewrite <- long_division_step by lia.
  replace (X * two64 + lo n') with (to_u128 n * 2 ^ s).
  2:{ rewrite <- Vn. unfold X, to_u128, two128, two64. ring. }
  rewrite D1. apply Z.div_mul_cancel_r; lia.
Qed.

(** X17.  Division by a non-zero integer is exact: no assertion fails and the
    quotient is the signed value divided by the integer, truncated toward
    zero.  The one exception is [R128_min] divided by minus one, whose
    quotient is not representable. *)
Theorem r128Div_by_integer (a b : R128) :
  wf a -> wf b -> lo b = 0 -> hi b <> 0 ->
  ~ (a = R128_min /\ s64 (hi b) = -1) ->
  exists q : R128,
    r128Div a b = Some q /\ wf q /\
    to_s128 q = Z.quot (to_s128 a) (s64 (hi b)).
Proof.
  intros Ha Hb Hl Hh Hex.
  destruct (magnitude_to_u128 a Ha) as [Ma Wa].
  destruct (magnitude_to_u128 b Hb) as [Mb Wb].
  pose proof (r128IsNeg_spec a Ha) as Sa. pose proof (r128IsNeg_spec b Hb) as Sb.
  assert (Vb : to_s128 b = s64 (hi b) * two64) by (unfold to_s128; lia).
  pose proof (s64_range (hi b)) as Rb.
  assert (Nb : s64 (hi b) <> 0).
  { intros E. apply Hh. apply s64_inj; [destruct Hb; assumption | consts; lia |].
    rewrite E. reflexivity. }
  set (hb := s64 (hi b)) in *.
  set (tb := if r128IsNeg b then r128Neg b else b) in *.
  assert (Tb : lo tb = 0 /\ hi tb = Z.abs hb).
  { unfold to_u128 in Mb. rewrite Vb, Z.abs_mul in Mb.
    rewrite (Z.abs_eq two64) in Mb by (consts; lia).
    destruct Wb as [W1 W2].
    set (k := Z.abs hb) in *. clearbody k tb. consts. split; lia. }
  destruct Tb as [Tl Th].
  assert (Th0 : hi tb <> 0) by lia.
  destruct (r128__udiv_integer _ tb Wa Wb Tl Th0) as (q0 & E0 & W0 & V0).
  rewrite Ma, Th in V0.
  set (m := Z.abs (to_s128 a) / Z.abs hb) in *.
  pose proof (to_s128_range a Ha) as Ra.
  assert (Hm : 0 <= m <= 2 ^ 127).
  { unfold m. split; [apply Z.div_pos; lia |].
    apply Z.div_le_upper_bound; [lia |]. nia. }
  assert (Hmax : m = 2 ^ 127 -> to_s128 a = - 2 ^ 127 /\ Z.abs hb = 1).
  { unfold m. intros E.
    pose proof (Z.div_mod (Z.abs (to_s128 a)) (Z.abs hb) ltac:(lia)) as D.
    pose proof (Z.mod_pos_bound (Z.abs (to_s128 a)) (Z.abs hb) ltac:(lia)).
    rewrite E in D. split; nia. }
  assert (Q : Z.quot (to_s128 a) hb = Z.sgn (to_s128 a) * Z.sgn hb * m)
    by (apply Z.quot_div; exact Nb).
  assert (P : m < 2 ^ 127 -> to_s128 q0 = m).
  { intros Hlt. apply to_s128_of_residue; [exact W0 | | lia].
    rewrite V0. symmetry. apply Z.mod_small. consts. lia. }
  assert (N : to_s128 (r128Neg q0) = - m).
  { apply to_s128_of_residue; [apply r128Neg_wf | | lia].
    rewrite r128Neg_to_u128, V0 by assumption. reflexivity. }
  assert (Z0 : to_s128 a = 0 -> m = 0).
  { intros E. unfold m. rewrite E. reflexivity. }
  assert (Sb' : r128IsNeg b = (hb <? 0)).
  { rewrite Sb, Vb. destruct (Z.ltb_spec (hb * two64) 0);
      destruct (Z.ltb_spec hb 0); try reflexivity; consts; lia. }
  assert (Amin : to_s128 a = - 2 ^ 127 -> a = R128_min).
  { intros E. apply to_u128_inj; [assumption | exact wf_min |].
    rewrite <- (to_s128_mod a Ha), E. reflexivity. }
  unfold r128Div. rewrite !r128Copy_id.
  rewrite Hl. cbn [Z.eqb andb].
  destruct (Z.eqb_spec (hi b) 0); [contradiction |].
  unfold tb in E0.
  destruct (r128IsNeg a) eqn:Ia, (r128IsNeg b) eqn:Ib; cbn [negb];
    rewrite E0; rewrite ?r128Copy_id;
    symmetry in Sa; symmetry in Sb';
    first [apply Z.ltb_lt in Sa | apply Z.ltb_ge in Sa];
    first [apply Z.ltb_lt in Sb' | apply Z.ltb_ge in Sb'];
    eexists; (split; [reflexivity |]).
  - split; [exact W0 |]. rewrite Q, !Z.sgn_neg by assumption.
    rewrite P; [ring |].
    destruct (Z.eq_dec m (2 ^ 127)) as [Em | Em]; [| lia].
    exfalso. apply Hex. destruct (Hmax Em) as [A1 A2].
    split; [apply Amin, A1 | lia].
  - split; [apply r128Neg_wf |]. rewrite N, Q.
    rewrite (Z.sgn_neg (to_s128 a)), (Z.sgn_pos hb) by lia. ring.
  - split; [apply r128Neg_wf |]. rewrite N, Q.
    rewrite (Z.sgn_neg hb) by lia.
    destruct (Z.eq_dec (to_s128 a) 0) as [E | E].
    + rewrite (Z0 E). ring.
    + rewrite Z.sgn_pos by lia. ring.
  - split; [exact W0 |]. rewrite Q.
    rewrite (Z.sgn_pos hb) by lia.
    destruct (Z.eq_dec (to_s128 a) 0) as [E | E].
    + pose proof (Z0 E) as M0. rewrite P by lia. rewrite M0. ring.
    + rewrite Z.sgn_pos by lia. rewrite P; [ring |].
      destruct (Z.eq_dec m (2 ^ 127)) as [Em | Em]; [| lia].
      destruct (Hmax Em). lia.
Qed.

Lemma r128Div_by_integer_witness :
  wf (r128FromInt (-7)) /\ wf (r128FromInt 2) /\
  exists q : R128,
    r128Div (r128FromInt (-7)) (r128FromInt 2) = Some q /\ wf q /\
    to_s128 q = Z.quot (to_s128 (r128FromInt (-7))) (s64 (hi (r128FromInt 2))).
Proof.
  assert (W : forall k, wf (r128FromInt k)).
  { intros k. unfold wf, r128FromInt. cbn [lo hi].
    split; [consts; lia | apply u64_range]. }
  split; [apply W |]. split; [apply W |].
  apply (r128Div_by_integer (r128FromInt (-7)) (r128FromInt 2) (W _) (W _)).
  - reflexivity.
  - vm_compute. discriminate.
  - vm_compute. intros [H _]. discriminate H.
Defined.

(** ** Division by a value below one, and the modulo *)

Lemma r128__clz64_nonneg (x : Z) : 0 <= x < two64 -> 0 <= r128__clz64 x.
Proof.
  intros Hx. unfold r128__clz64. destruct (Z.eqb_spec x 0); [lia |].
  destruct (r128__clz64_spec x ltac:(lia)) as [H _].
  unfold r128__clz64 in H. destruct (Z.eqb_spec x 0); lia.
Qed.

Lemma r128__clz64_top (x : Z) : two63 <= x < two64 -> r128__clz64 x = 0.
Proof.
  intros Hx. unfold r128__clz64.
  destruct (Z.eqb_spec x 0); [consts; lia |].
  rewrite (Z.log2_unique x 63); [reflexivity | lia | exact Hx].
Qed.

(** X18.  The overflow guard for a divisor below one ([hi = 0]): when the
    integer part of the dividend's magnitude has at least as many leading
    zeros as the divisor's fraction, the quotient is reported as
    overflowing and the result is [R128_max], negated for a negative
    dividend.  This is the case for every dividend when the divisor is one
    half or more. *)
Theorem r128Div_fraction_saturates (a b : R128) :
  wf a -> wf b -> hi b = 0 -> lo b <> 0 ->
  (r128__clz64 (hi (if r128IsNeg a then r128Neg a else a))
     >= r128__clz64 (lo b) ->
   r128Div a b = Some (if r128IsNeg a then r128Neg R128_max else R128_max)) /\
  (two63 <= lo b ->
   r128Div a b = Some (if r128IsNeg a then r128Neg R128_max else R128_max)).
Proof.
  intros Ha Hb Hh Hl.
  assert (G : r128__clz64 (hi (if r128IsNeg a then r128Neg a else a))
              >= r128__clz64 (lo b) ->
              r128Div a b
              = Some (if r128IsNeg a then r128Neg R128_max else R128_max)).
  { intros Hc. unfold r128Div. rewrite !r128Copy_id.
    destruct (Z.eqb_spec (lo b) 0); [contradiction |]. cbn [andb].
    assert (Nb : r128IsNeg b = false) by (unfold r128IsNeg; rewrite Hh; reflexivity).
    rewrite Nb.
    assert (U : forall ta,
               r128__clz64 (hi ta) >= r128__clz64 (lo b) ->
               r128__udiv ta b = Some R128_max).
    { intros ta Ht. unfold r128__udiv. rewrite Hh.
      destruct (Z.eqb_spec (lo b) 0); [contradiction |]. cbn [Z.eqb andb].
      unfold r128__norm. rewrite !r128Copy_id, Hh. cbn [Z.eqb negb].
      destruct (Z.geb_spec (r128__clz64 (hi ta)) (r128__clz64 (lo b))); [| lia].
      reflexivity. }
    destruct (r128IsNeg a); rewrite (U _ Hc); reflexivity. }
  split; [exact G |].
  intros Htop. apply G.
  rewrite (r128__clz64_top (lo b)) by (destruct Hb; lia).
  destruct (magnitude_to_u128 a Ha) as [_ [_ W]].
  pose proof (r128__clz64_nonneg _ W). lia.
Qed.

Lemma r128Div_fraction_saturates_witness :
  wf R128_one /\ wf {| lo := two63; hi := 0 |} /\
  r128Div R128_one {| lo := two63; hi := 0 |} = Some R128_max.
Proof.
  assert (Hb : wf {| lo := two63; hi := 0 |})
    by (unfold wf; cbn [lo hi]; consts; lia).
  split; [exact wf_one |]. split; [exact Hb |].
  apply (proj2 (r128Div_fraction_saturates R128_one {| lo := two63; hi := 0 |}
                  wf_one Hb eq_refl ltac:(cbn [lo]; discriminate))).
  cbn [lo]. lia.
Defined.

(** X19.  The modulo of a non-negative value by a positive integer is the
    remainder of the 128-bit integers; the modulo by [R128_zero] is
    [R128_max], or [R128_min] for a negative first operand. *)
Theorem r128Mod_by_integer (a b : R128) :
  wf a -> wf b ->
  (hi a < two63 -> lo b = 0 -> 0 < hi b < two63 ->
   exists r : R128,
     r128Mod a b = Some r /\ to_u128 r = to_u128 a mod to_u128 b) /\
  r128Mod a R128_zero = Some (if r128IsNeg a then R128_min else R128_max).
Proof.
  intros Ha Hb. split.
  2:{ unfold r128Mod. rewrite !r128Copy_id.
      destruct (r128IsNeg a); reflexivity. }
  intros Hpos Hl Hh.
  assert (Hnz : hi b <> 0) by lia.
  destruct (r128__norm_hi_facts a b Ha Hb Hnz)
    as (s & n' & d' & n3 & E & Hs & Wn & Wd & Vd & Hd1 & Ld & Vn & Hn3).
  rewrite Hl, Z.mul_0_l in Ld. change (u64 0) with 0 in Ld.
  assert (HP : 0 < 2 ^ s) by (apply Z.pow_pos_nonneg; lia).
  assert (P63 : 2 ^ s <= two63) by (unfold two63; apply Z.pow_le_mono_r; lia).
  assert (H64 : 0 < two64) by (consts; lia).
  assert (D1 : hi d' = hi b * 2 ^ s).
  { unfold to_u128 in Vd. rewrite Ld, Hl in Vd. nia. }
  destruct Wn as [Wn1 Wn2]. destruct Wd as [_ Wd2].
  destruct Ha as [Ha1 Ha2].
  assert (Na : r128IsNeg a = false).
  { unfold r128IsNeg. rewrite s64_small by lia. apply Z.ltb_ge. lia. }
  assert (Nb : r128IsNeg b = false).
  { unfold r128IsNeg. rewrite s64_small by lia. apply Z.ltb_ge. lia. }
  set (A := to_u128 a) in *. set (B := to_u128 b) in *.
  assert (EB : B = hi b * two64) by (unfold B, to_u128; lia).
  assert (HA : 0 <= A < two63 * two64) by (unfold A, to_u128; nia).
  (* the integer part of the quotient *)
  set (X := n3 * two64 + hi n') in *.
  assert (QX : X / hi d' = A / B).
  { assert (EX : X = A * 2 ^ s / two64).
    { apply (Z.div_unique_pos _ _ _ (lo n')); [lia |].
      rewrite <- Vn. unfold X, to_u128, two128, two64. ring. }
    rewrite EX, D1, Z.div_div by lia.
    rewrite EB. replace (two64 * (hi b * 2 ^ s)) with (hi b * two64 * 2 ^ s) by ring.
    apply Z.div_mul_cancel_r; lia. }
  assert (HB : 0 < B) by lia.
  pose proof (Z.div_mod A B ltac:(lia)) as DA.
  pose proof (Z.mod_pos_bound A B HB) as BA.
  set (q := A / B) in *.
  assert (Hq : 0 <= q < two63).
  { split; [apply Z.div_pos; lia |].
    apply Z.div_lt_upper_bound; [lia |]. nia. }
  unfold r128Mod. rewrite !r128Copy_id, Na.
  rewrite Hl. cbn [Z.eqb andb].
  destruct (Z.eqb_spec (hi b) 0); [contradiction |]. rewrite Nb.
  unfold r128__umod. rewrite Hl.
  destruct (Z.eqb_spec (hi b) 0); [contradiction |]. cbn [andb].
  rewrite E, Ld, udiv_digit_d0_zero by lia. fold X. rewrite QX.
  eexists. split; [reflexivity |].
  set (tq := {| lo := 0; hi := q |}).
  assert (Wq : wf tq) by (unfold wf, tq; cbn [lo hi]; consts; lia).
  assert (Nq : r128IsNeg tq = false).
  { unfold r128IsNeg, tq. cbn [hi]. rewrite s64_small by lia.
    apply Z.ltb_ge. lia. }
  assert (M : to_u128 (r128Mul tq b) = q * B /\ wf (r128Mul tq b)).
  { unfold r128Mul. rewrite !r128Copy_id, Nq, Nb. rewrite !r128Copy_id.
    split; [| apply r128__umul_wf].
    rewrite r128__umul_to_u128 by assumption. fold B.
    replace (to_u128 tq) with (q * two64) by (unfold to_u128, tq; cbn [lo hi]; lia).
    replace (q * two64 * B + two63) with (q * B * two64 + two63) by ring.
    rewrite Z.div_add_l by lia.
    replace (two63 / two64) with 0 by reflexivity.
    rewrite Z.add_0_r. apply Z.mod_small. consts. nia. }
  destruct M as [M1 M2].
  rewrite r128Sub_to_u128, M1 by (assumption || (split; assumption)).
  fold A. replace (A - q * B) with (A mod B) by lia.
  apply Z.mod_small. consts. lia.
Qed.

Lemma r128Mod_by_integer_witness :
  wf {| lo := two63; hi := 7 |} /\ wf (r128FromInt 2) /\
  exists r : R128,
    r128Mod {| lo := two63; hi := 7 |} (r128FromInt 2) = Some r /\
    to_u128 r = to_u128 {| lo := two63; hi := 7 |} mod to_u128 (r128FromInt 2).
Proof.
  assert (Ha : wf {| lo := two63; hi := 7 |})
    by (unfold wf; cbn [lo hi]; consts; lia).
  assert (Hb : wf (r128FromInt 2))
    by (unfold wf, r128FromInt; cbn [lo hi]; split; [consts; lia | apply u64_range]).
  split; [exact Ha |]. split; [exact Hb |].
  apply (proj1 (r128Mod_by_integer {| lo := two63; hi := 7 |} (r128FromInt 2)
                  Ha Hb)).
  - cbn [hi]. consts. lia.
  - reflexivity.
  - vm_compute. split; reflexivity.
Defined.

(** ** Parser: numerals *)

Lemma base_digit_value (base : Z) (c : ascii) :
  base = 10 \/ base = 16 -> is_base_digit base c = true ->
  0 <= digit_value c < base.
Proof.
  intros Hb. unfold is_base_digit, digit_value, is_digit, is_lower_hex,
    is_upper_hex.
  change (ord "0"%char) with 48. change (ord "9"%char) with 57.
  change (ord "a"%char) with 97. change (ord "f"%char) with 102.
  change (ord "A"%char) with 65. change (ord "F"%char) with 70.
  destruct (Z.leb_spec 48 (ord c)); destruct (Z.leb_spec (ord c) 57);
    cbn [andb orb]; try lia;
    destruct (Z.eqb_spec base 16); cbn [andb]; try discriminate;
    destruct (Z.leb_spec 97 (ord c)); destruct (Z.leb_spec (ord c) 102);
    cbn [andb orb]; try lia;
    destruct (Z.leb_spec 65 (ord c)); destruct (Z.leb_spec (ord c) 70);
    cbn [andb orb]; try discriminate; lia.
Qed.

Lemma string_value_acc (base : Z) (s : string) :
  forall acc,
    string_value base acc s
      = acc * base ^ Z.of_nat (String.length s) + string_value base 0 s.
Proof.
  induction s as [| c s IH]; intros acc.
  - cbn [string_value String.length Z.of_nat]. rewrite Z.pow_0_r. ring.
  - cbn [string_value String.length].
    rewrite (IH (acc * base + digit_value c)), (IH (0 * base + digit_value c)).
    rewrite Nat2Z.inj_succ, Z.pow_succ_r by lia. ring.
Qed.

Lemma string_value_bound (base : Z) (s : string) :
  base = 10 \/ base = 16 -> all_base_digits base s = true ->
  0 <= string_value base 0 s < base ^ Z.of_nat (String.length s).
Proof.
  intros Hb. induction s as [| c s IH]; intros Hs.
  - cbn. lia.
  - cbn [all_base_digits] in Hs. apply andb_prop in Hs. destruct Hs as [Hc Hs].
    specialize (IH Hs). pose proof (base_digit_value base c Hb Hc) as Hd.
    cbn [string_value String.length]. rewrite string_value_acc.
    rewrite Nat2Z.inj_succ, Z.pow_succ_r by lia.
    assert (0 < base ^ Z.of_nat (String.length s))
      by (apply Z.pow_pos_nonneg; lia).
    nia.
Qed.

(** The fraction loop, run over the digits from last to first: from a
    partial result [floor (V * 2^64 / base^m)] it reaches the floor for the
    longer fraction, and the [divq] never faults. *)
Lemma parse_fraction_floor (base : Z) (rdigits : list ascii) :
  base = 10 \/ base = 16 ->
  forallb (is_base_digit base) rdigits = true ->
  forall (V m : Z),
    0 <= V -> 0 <= m ->
    parse_fraction base (V * two64 / base ^ m) rdigits
    = Some ((string_value base 0 (string_of_list_ascii (rev rdigits))
               * base ^ m + V) * two64
            / base ^ (m + Z.of_nat (List.length rdigits))).
Proof.
  intros Hb. induction rdigits as [| c rest IH]; intros Hd V m HV Hm.
  - cbn [parse_fraction rev string_of_list_ascii string_value List.length
           Z.of_nat].
    rewrite Z.mul_0_l, Z.add_0_l, Z.add_0_r. reflexivity.
  - cbn [forallb] in Hd. apply andb_prop in Hd. destruct Hd as [Hc Hr].
    pose proof (base_digit_value base c Hb Hc) as Dv.
    cbn [parse_fraction]. fold (digit_value c).
    unfold r128__udiv128.
    rewrite u64_small by (consts; lia).
    destruct (Z.eqb_spec base 0); [lia |].
    destruct (Z.geb_spec (digit_value c) base); [lia |]. cbn [orb].
    assert (HP : 0 < base ^ m) by (apply Z.pow_pos_nonneg; lia).
    assert (E : (digit_value c * two64 + V * two64 / base ^ m) / base
                = (digit_value c * base ^ m + V) * two64 / base ^ (m + 1)).
    { rewrite Z.pow_add_r, Z.pow_1_r by lia.
      rewrite <- Z.div_div by lia. f_equal.
      replace ((digit_value c * base ^ m + V) * two64)
        with (digit_value c * two64 * base ^ m + V * two64) by ring.
      rewrite Z.div_add_l by lia. reflexivity. }
    rewrite E, (IH Hr) by nia.
    f_equal. f_equal.
    + f_equal. cbn [rev].
      assert (A : forall l1 l2,
                 string_of_list_ascii (l1 ++ l2)
                 = (string_of_list_ascii l1 ++ string_of_list_ascii l2)%string).
      { induction l1 as [| x l1 IHl]; intros l2; cbn; [reflexivity |].
        rewrite IHl. reflexivity. }
      assert (S : forall s1 c1 acc,
                 string_value base acc (s1 ++ String c1 EmptyString)
                 = string_value base acc s1 * base + digit_value c1).
      { induction s1 as [| x s1 IHs]; intros c1 acc; cbn [append string_value];
          [reflexivity | apply IHs]. }
      rewrite A. cbn [string_of_list_ascii]. rewrite S.
      rewrite Z.pow_add_r, Z.pow_1_r by lia. ring.
    + cbn [List.length]. rewrite Nat2Z.inj_succ. f_equal. lia.
Qed.

Lemma scan_fraction_run (base : Z) (ds rest : string) :
  all_base_digits base ds = true ->
  is_base_digit base (peek rest) = false ->
  scan_fraction base (ds ++ rest) = (list_ascii_of_string ds, rest).
Proof.
  intros Hds Hrest.
  assert (T : forall c,
             (is_digit c || (base =? 16) && is_lower_hex c
              || (base =? 16) && is_upper_hex c)%bool
             = is_base_digit base c).
  { intros c. unfold is_base_digit.
    destruct (is_digit c), (base =? 16), (is_lower_hex c), (is_upper_hex c);
      reflexivity. }
  induction ds as [| c ds IH].
  - cbn [append list_ascii_of_string]. destruct rest as [| c rest];
      [reflexivity |].
    cbn [peek] in Hrest. cbn [scan_fraction]. rewrite T, Hrest. reflexivity.
  - cbn [all_base_digits] in Hds. apply andb_prop in Hds.
    destruct Hds as [Hc Hds].
    cbn [append scan_fraction list_ascii_of_string].
    rewrite T, Hc, (IH Hds). reflexivity.
Qed.

Lemma base_digit_ord (base : Z) (c : ascii) :
  is_base_digit base c = true ->
  (48 <= ord c <= 57 \/ 65 <= ord c <= 70 \/ 97 <= ord c <= 102) /\
  (base = 10 -> 48 <= ord c <= 57).
Proof.
  unfold is_base_digit, is_digit, is_lower_hex, is_upper_hex.
  change (ord "0"%char) with 48. change (ord "9"%char) with 57.
  change (ord "a"%char) with 97. change (ord "f"%char) with 102.
  change (ord "A"%char) with 65. change (ord "F"%char) with 70.
  destruct (Z.leb_spec 48 (ord c)); destruct (Z.leb_spec (ord c) 57);
    cbn [andb orb]; try (intros _; split; intros; lia);
    destruct (Z.eqb_spec base 16); cbn [andb]; try discriminate;
    destruct (Z.leb_spec 97 (ord c)); destruct (Z.leb_spec (ord c) 102);
    cbn [andb orb]; try (intros _; split; intros; lia);
    destruct (Z.leb_spec 65 (ord c)); destruct (Z.leb_spec (ord c) 70);
    cbn [andb orb]; try discriminate; intros _; split; intros; lia.
Qed.

Lemma skip_space_other (s : string) :
  is_space (peek s) = false -> skip_space s = s.
Proof.
  destruct s as [| c s]; [reflexivity |]. cbn [peek skip_space].
  unfold is_space. intros ->. reflexivity.
Qed.

Lemma is_space_false (c : ascii) :
  ord c <> 32 -> ord c <> 9 -> ord c <> 13 -> ord c <> 10 -> ord c <> 11 ->
  is_space c = false.
Proof.
  intros. unfold is_space. change (ord " "%char) with 32.
  repeat match goal with
         | |- context [ord c =? ?n] =>
             destruct (Z.eqb_spec (ord c) n); [lia |]
         end.
  reflexivity.
Qed.

(** A minus sign in front of a string that starts neither with white
    space nor with a sign negates what the string parses to. *)
Lemma r128FromString_minus (dec : ascii) (s : string) :
  is_space (peek s) = false ->
  ord (peek s) <> 45 -> ord (peek s) <> 43 ->
  r128FromString dec (String "-"%char s)
  = match r128FromString dec s with
    | Some (v, rest) => Some (r128Neg v, rest)
    | None => None
    end.
Proof.
  intros Hsp Hm Hp. unfold r128FromString.
  rewrite (skip_space_other s Hsp).
  rewrite (skip_space_other (String "-"%char s)) by reflexivity.
  cbn [peek advance].
  change (ord "-"%char) with 45. change (ord "+"%char) with 43.
  change (45 =? 45) with true. cbv iota.
  destruct (Z.eqb_spec (ord (peek s)) 45); [contradiction |].
  destruct (Z.eqb_spec (ord (peek s)) 43); [contradiction |].
  destruct (if (ord (peek s) =? ord "0"%char)
               && ((ord (peek (advance s)) =? ord "x"%char)
                   || (ord (peek (advance s)) =? ord "X"%char))
            then (16, advance (advance s)) else (10, s)) as [base s1].
  destruct (parse_whole base 0 s1) as [h s2].
  match goal with
  | |- context [if ord (peek s2) =? ord dec then ?a else ?b] =>
      destruct (if ord (peek s2) =? ord dec then a else b) as [[l s3] |]
  end; reflexivity.
Qed.

Lemma all_base_digits_forallb (base : Z) (s : string) :
  all_base_digits base s
  = forallb (is_base_digit base) (list_ascii_of_string s).
Proof.
  induction s as [| c s IH]; [reflexivity |].
  cbn [all_base_digits list_ascii_of_string forallb]. rewrite IH. reflexivity.
Qed.

Lemma forallb_rev {A : Type} (f : A -> bool) (l : list A) :
  forallb f (rev l) = forallb f l.
Proof.
  induction l as [| x l IH]; [reflexivity |].
  cbn [rev forallb]. rewrite forallb_app, IH. cbn [forallb].
  rewrite andb_true_r. apply andb_comm.
Qed.

Lemma list_ascii_length (s : string) :
  List.length (list_ascii_of_string s) = String.length s.
Proof. induction s as [| c s IH]; [reflexivity |]. cbn. rewrite IH. reflexivity. Qed.

(** The part of the parser after the sign and the base prefix, on a run
    of digits with an optional fraction. *)
Lemma r128FromString_numeral_unsigned (base : Z) (w : string)
    (frac : option string) (rest : string) :
  base = 10 \/ base = 16 ->
  all_base_digits base w = true -> w <> EmptyString ->
  match frac with
  | Some digits => all_base_digits base digits = true
  | None =>
      ord (peek rest) <> 46 /\ ord (peek rest) <> 120 /\ ord (peek rest) <> 88
  end ->
  is_base_digit base (peek rest) = false ->
  r128FromString "."%char (numeral false base w frac rest)
  = Some (numeral_value false base w frac, numeral_tail frac rest).
Proof.
  intros Hb Hw Hne Hf Hrest.
  destruct w as [| c w]; [contradiction |]. clear Hne.
  pose proof Hw as Hw0.
  cbn [all_base_digits] in Hw. apply andb_prop in Hw. destruct Hw as [Hc Hw].
  destruct (base_digit_ord base c Hc) as [Oc Oc10].
  unfold numeral_tail.
  set (tail := match frac with
               | Some digits => String "."%char (digits ++ rest)
               | None => rest
               end).
  assert (Htail : is_base_digit base (peek tail) = false).
  { unfold tail. destruct frac; [| exact Hrest].
    destruct Hb as [-> | ->]; reflexivity. }
  (* what follows the header *)
  assert (Body :
    forall hi0 : Z,
      hi0 = string_value base 0 (String c w) mod two64 ->
      (let '(h, s) := (hi0, tail) in
       match
         (if ord (peek s) =? ord "."%char
          then
            if ord (peek s) =? 0 then None
            else
              let '(run, _) := scan_fraction base (advance s) in
              match parse_fraction base 0 (rev run) with
              | Some l => Some (l, s)
              | None => None
              end
          else Some (0, s))
       with
       | Some (l, s0) => Some (R128_SET2 l h, s0)
       | None => None
       end)
      = Some (numeral_value false base (String c w) frac, tail)).
  { intros hi0 ->. cbv iota beta. unfold numeral_value, tail.
    change (ord "."%char) with 46.
    assert (U : u64 (string_value base 0 (String c w) mod two64)
                = string_value base 0 (String c w) mod two64).
    { unfold u64. apply Z.mod_mod. consts. lia. }
    destruct frac as [digits |].
    - cbn [peek advance]. change (ord "."%char) with 46.
      change (46 =? 46) with true. change (46 =? 0) with false. cbv iota.
      rewrite (scan_fraction_run base digits rest Hf Hrest).
      assert (F : forallb (is_base_digit base) (rev (list_ascii_of_string digits))
                  = true).
      { rewrite forallb_rev, <- all_base_digits_forallb. exact Hf. }
      pose proof (parse_fraction_floor base _ Hb F 0 0 ltac:(lia) ltac:(lia))
        as P.
      rewrite Z.mul_0_l, Z.pow_0_r, Z.div_1_r in P. rewrite P.
      rewrite rev_involutive, string_of_list_ascii_of_string.
      rewrite length_rev, list_ascii_length.
      rewrite Z.mul_1_r, Z.add_0_r, Z.add_0_l.
      unfold R128_SET2. rewrite U. do 3 f_equal.
      apply u64_small.
      pose proof (string_value_bound base digits Hb Hf) as B.
      assert (0 < base ^ Z.of_nat (String.length digits))
        by (apply Z.pow_pos_nonneg; lia).
      assert (0 < two64) by (consts; lia).
      split; [apply Z.div_pos; nia |].
      apply Z.div_lt_upper_bound; nia.
    - destruct Hf as (H46 & _).
      destruct (Z.eqb_spec (ord (peek rest)) 46); [contradiction |].
      unfold R128_SET2. rewrite U. reflexivity. }
  pose proof (parse_whole_run base (String c w) tail Hw0 Htail 0) as PW.
  change (u64 0) with 0 in PW. unfold u64 in PW.
  assert (Sp : is_space c = false) by (apply is_space_false; lia).
  unfold r128FromString, numeral. fold tail. cbn [append].
  destruct Hb as [-> | ->].
  - (* decimal *)
    change (10 =? 16) with false. cbn [append].
    rewrite (skip_space_other (String c (w ++ tail))) by exact Sp.
    cbn [peek advance].
    change (ord "-"%char) with 45. change (ord "+"%char) with 43.
    change (ord "0"%char) with 48.
    change (ord "x"%char) with 120. change (ord "X"%char) with 88.
    specialize (Oc10 eq_refl).
    destruct (Z.eqb_spec (ord c) 45); [lia |].
    destruct (Z.eqb_spec (ord c) 43); [lia |].
    assert (Nx : ord (peek (w ++ tail)) <> 120 /\ ord (peek (w ++ tail)) <> 88).
    { destruct w as [| c' w'].
      - cbn [append]. unfold tail. destruct frac; [cbn; lia |].
        destruct Hf as (_ & H1 & H2). split; assumption.
      - cbn [append peek]. cbn [all_base_digits] in Hw.
        apply andb_prop in Hw. destruct Hw as [Hc' _].
        destruct (base_digit_ord 10 c' Hc') as [_ O']. specialize (O' eq_refl).
        lia. }
    destruct Nx as [N1 N2]. cbn [peek advance].
    destruct (Z.eqb_spec (ord (peek (w ++ tail))) 120); [contradiction |].
    destruct (Z.eqb_spec (ord (peek (w ++ tail))) 88); [contradiction |].
    cbn [orb]. rewrite andb_false_r.
    cbn [append] in PW. rewrite PW.
    apply (Body _ eq_refl).
  - (* hexadecimal *)
    change (16 =? 16) with true. cbn [append].
    rewrite (skip_space_other (String "0"%char (String "x"%char _)))
      by reflexivity.
    cbn [peek advance].
    change (ord "-"%char) with 45. change (ord "+"%char) with 43.
    change (ord "0"%char) with 48.
    change (ord "x"%char) with 120. change (ord "X"%char) with 88.
    change (48 =? 45) with false. change (48 =? 43) with false.
    cbv iota. cbn [peek advance].
    change (ord "0"%char) with 48. change (ord "x"%char) with 120.
    change (48 =? 48) with true. change (120 =? 120) with true.
    cbn [andb orb]. cbv iota.
    cbn [append] in PW. rewrite PW.
    apply (Body _ eq_refl).
Qed.

(** A numeral without a sign starts with a digit. *)
Lemma numeral_first (base : Z) (w : string) (frac : option string)
    (rest : string) :
  base = 10 \/ base = 16 ->
  all_base_digits base w = true -> w <> EmptyString ->
  is_space (peek (numeral false base w frac rest)) = false
  /\ ord (peek (numeral false base w frac rest)) <> 45
  /\ ord (peek (numeral false base w frac rest)) <> 43.
Proof.
  intros Hb Hw Hne.
  assert (First : 48 <= ord (peek (numeral false base w frac rest)) <= 57
                  \/ 65 <= ord (peek (numeral false base w frac rest)) <= 70
                  \/ 97 <= ord (peek (numeral false base w frac rest)) <= 102).
  { unfold numeral. cbn [append].
    destruct Hb as [-> | ->];
      [change (10 =? 16) with false | change (16 =? 16) with true];
      cbn [append].
    - destruct w as [| c w]; [contradiction |].
      cbn [all_base_digits] in Hw. apply andb_prop in Hw.
      destruct Hw as [Hc _]. cbn [append peek].
      exact (proj1 (base_digit_ord 10 c Hc)).
    - cbn [peek]. change (ord "0"%char) with 48. lia. }
  split; [apply is_space_false; lia | lia].
Qed.

(** X20.  The parser on a numeral: an optional minus sign, ["0x"] for base
    16, one or more digits, and optionally ["."] and more digits, followed
    by text that does not continue the number.  The result is the
    numeral's value, the whole part modulo [2^64] and the fraction rounded
    down, negated after a minus sign.  The end pointer is at the text that
    follows when the numeral has no decimal point, and at the decimal
    point when it has one. *)
Theorem r128FromString_numeral (neg : bool) (base : Z) (w : string)
    (frac : option string) (rest : string) :
  base = 10 \/ base = 16 ->
  all_base_digits base w = true -> w <> EmptyString ->
  match frac with
  | Some digits => all_base_digits base digits = true
  | None =>
      ord (peek rest) <> 46 /\ ord (peek rest) <> 120 /\ ord (peek rest) <> 88
  end ->
  is_base_digit base (peek rest) = false ->
  r128FromString "."%char (numeral neg base w frac rest)
  = Some (numeral_value neg base w frac, numeral_tail frac rest).
Proof.
  intros Hb Hw Hne Hf Hrest.
  pose proof (r128FromString_numeral_unsigned base w frac rest
                Hb Hw Hne Hf Hrest) as U.
  destruct neg; [| exact U].
  destruct (numeral_first base w frac rest Hb Hw Hne) as (F1 & F2 & F3).
  change (numeral true base w frac rest)
    with (String "-"%char (numeral false base w frac rest)).
  rewrite (r128FromString_minus _ _ F1 F2 F3), U. reflexivity.
Qed.

Lemma r128FromString_numeral_witness :
  r128FromString "."%char "-12.75 apples"
  = Some (r128Neg {| lo := 0xc000000000000000; hi := 12 |},
          ".75 apples"%string).
Proof.
  apply (r128FromString_numeral true 10 "12" (Some "75"%string) " apples").
  - left. reflexivity.
  - reflexivity.
  - discriminate.
  - reflexivity.
  - reflexivity.
Defined.

(** ** Parser: every string *)

Lemma ends_with_refl (s : string) : ends_with s s.
Proof. exists EmptyString. reflexivity. Qed.

Lemma append_assoc (a b c : string) :
  ((a ++ b) ++ c)%string = (a ++ (b ++ c))%string.
Proof. induction a as [| x a IH]; [reflexivity |]. cbn. rewrite IH. reflexivity. Qed.

Lemma ends_with_trans (a b c : string) :
  ends_with a b -> ends_with b c -> ends_with a c.
Proof.
  intros [p ->] [q ->]. exists (p ++ q)%string. symmetry. apply append_assoc.
Qed.

Lemma ends_with_cons (c : ascii) (s rest : string) :
  ends_with s rest -> ends_with (String c s) rest.
Proof. intros [p ->]. exists (String c p). reflexivity. Qed.

Lemma advance_ends (s : string) : ends_with s (advance s).
Proof.
  destruct s as [| c s]; [apply ends_with_refl |].
  apply ends_with_cons, ends_with_refl.
Qed.

Lemma skip_space_ends (s : string) : ends_with s (skip_space s).
Proof.
  induction s as [| c s IH]; [apply ends_with_refl |]. cbn [skip_space].
  destruct ((ord c =? ord " "%char) || (ord c =? 9) || (ord c =? 13)
            || (ord c =? 10) || (ord c =? 11)).
  - apply ends_with_cons, IH.
  - apply ends_with_refl.
Qed.

Lemma parse_whole_ends (base : Z) (s : string) :
  forall acc : Z, ends_with s (snd (parse_whole base acc s)).
Proof.
  induction s as [| c s IH]; intros acc; [apply ends_with_refl |].
  cbn [parse_whole].
  destruct (is_digit c); [apply ends_with_cons, IH |].
  destruct ((base =? 16) && is_lower_hex c); [apply ends_with_cons, IH |].
  destruct ((base =? 16) && is_upper_hex c); [apply ends_with_cons, IH |].
  apply ends_with_refl.
Qed.

Lemma scan_fraction_digits (base : Z) (s : string) :
  forallb (is_base_digit base) (fst (scan_fraction base s)) = true
  /\ ends_with s (snd (scan_fraction base s)).
Proof.
  induction s as [| c s [IH1 IH2]]; [split; [reflexivity | apply ends_with_refl] |].
  cbn [scan_fraction].
  destruct (is_digit c || (base =? 16) && is_lower_hex c
            || (base =? 16) && is_upper_hex c) eqn:D.
  - destruct (scan_fraction base s) as [run rest]. cbn [fst snd] in *.
    split; [| apply ends_with_cons, IH2].
    cbn [forallb]. rewrite IH1, andb_true_r.
    unfold is_base_digit.
    destruct (is_digit c), (base =? 16), (is_lower_hex c), (is_upper_hex c);
      cbn in *; congruence.
  - split; [reflexivity | apply ends_with_refl].
Qed.

Lemma R128_SET2_is_wf (l h : Z) : wf (R128_SET2 l h).
Proof. unfold R128_SET2, wf. cbn [lo hi]. split; apply u64_range. Qed.

Lemma append_empty_r (s : string) : (s ++ EmptyString)%string = s.
Proof. induction s as [| c s IH]; [reflexivity |]. cbn. rewrite IH. reflexivity. Qed.

(** With the NUL character for [R128_decimal], a string of decimal
    digits takes the parser to the terminator, which it reads as the
    decimal point and steps over. *)
Lemma r128FromString_nul_decimal (dec : ascii) (ds : string) :
  ord dec = 0 -> all_base_digits 10 ds = true ->
  r128FromString dec ds = None.
Proof.
  intros Hdec Hds. unfold r128FromString.
  assert (Hpeek : forall t, all_base_digits 10 t = true ->
                    ord (peek t) = 0 \/ 48 <= ord (peek t) <= 57).
  { intros [| c t] Ht; [left; reflexivity | right].
    cbn [all_base_digits] in Ht. apply andb_prop in Ht.
    destruct Ht as [Hc _]. cbn [peek].
    exact (proj2 (base_digit_ord 10 c Hc) eq_refl). }
  assert (Hadv : all_base_digits 10 (advance ds) = true).
  { destruct ds as [| c t]; [reflexivity |].
    cbn [all_base_digits] in Hds. apply andb_prop in Hds.
    destruct Hds as [_ Ht]. exact Ht. }
  pose proof (Hpeek ds Hds) as P1. pose proof (Hpeek (advance ds) Hadv) as P2.
  rewrite (skip_space_other ds) by (apply is_space_false; lia).
  change (ord "-"%char) with 45. change (ord "+"%char) with 43.
  change (ord "x"%char) with 120. change (ord "X"%char) with 88.
  destruct (Z.eqb_spec (ord (peek ds)) 45); [lia |].
  destruct (Z.eqb_spec (ord (peek ds)) 43); [lia |].
  destruct (Z.eqb_spec (ord (peek (advance ds))) 120); [lia |].
  destruct (Z.eqb_spec (ord (peek (advance ds))) 88); [lia |].
  rewrite andb_false_r.
  pose proof (parse_whole_run 10 ds EmptyString Hds eq_refl 0) as P.
  rewrite append_empty_r in P. change (u64 0) with 0 in P. rewrite P.
  cbn [peek]. change (ord zero) with 0. rewrite Hdec. reflexivity.
Qed.

(** X21.  The parser accepts every string when [R128_decimal] is not the
    NUL character: the division of the fraction loop never faults, the
    value is a pair of 64-bit words, and the end pointer lies in the
    string.  With NUL for [R128_decimal] it reads past the end of every
    string of decimal digits. *)
Theorem r128FromString_total (dec : ascii) (s : string) :
  (ord dec <> 0 ->
   exists (v : R128) (rest : string),
     r128FromString dec s = Some (v, rest) /\ wf v /\ ends_with s rest)
  /\ (ord dec = 0 -> all_base_digits 10 s = true ->
      r128FromString dec s = None).
Proof.
  split; [| apply r128FromString_nul_decimal].
  intros Hdec.
  unfold r128FromString.
  pose proof (skip_space_ends s) as E0.
  set (s0 := skip_space s) in *. clearbody s0.
  assert (S1 : exists (sign : bool) (s1 : string),
             (if ord (peek s0) =? ord "-"%char then (true, advance s0)
              else if ord (peek s0) =? ord "+"%char then (false, advance s0)
              else (false, s0)) = (sign, s1) /\ ends_with s0 s1).
  { destruct (ord (peek s0) =? ord "-"%char);
      [exists true, (advance s0); split; [reflexivity | apply advance_ends] |].
    destruct (ord (peek s0) =? ord "+"%char);
      [exists false, (advance s0); split; [reflexivity | apply advance_ends] |].
    exists false, s0. split; [reflexivity | apply ends_with_refl]. }
  destruct S1 as (sign & s1 & -> & E1).
  assert (S2 : exists (base : Z) (s2 : string),
             (if (ord (peek s1) =? ord "0"%char)
                 && ((ord (peek (advance s1)) =? ord "x"%char)
                     || (ord (peek (advance s1)) =? ord "X"%char))
              then (16, advance (advance s1)) else (10, s1)) = (base, s2)
             /\ (base = 10 \/ base = 16) /\ ends_with s1 s2).
  { destruct ((ord (peek s1) =? ord "0"%char)
              && ((ord (peek (advance s1)) =? ord "x"%char)
                  || (ord (peek (advance s1)) =? ord "X"%char))).
    - exists 16, (advance (advance s1)). split; [reflexivity |].
      split; [right; reflexivity |].
      apply (ends_with_trans _ (advance s1)); apply advance_ends.
    - exists 10, s1. split; [reflexivity |].
      split; [left; reflexivity | apply ends_with_refl]. }
  destruct S2 as (base & s2 & -> & Hb & E2).
  pose proof (parse_whole_ends base s2 0) as E3.
  destruct (parse_whole base 0 s2) as [h s3]. cbn [snd] in E3.
  assert (In_s : ends_with s s3).
  { apply (ends_with_trans _ s0); [exact E0 |].
    apply (ends_with_trans _ s1); [exact E1 |].
    apply (ends_with_trans _ s2); [exact E2 | exact E3]. }
  assert (Wf : forall l : Z,
             wf (if sign then r128Neg (R128_SET2 l h) else R128_SET2 l h)).
  { intros l. destruct sign; [apply r128Neg_wf | apply R128_SET2_is_wf]. }
  destruct (Z.eqb_spec (ord (peek s3)) (ord dec)) as [Ed | Nd].
  - destruct (Z.eqb_spec (ord (peek s3)) 0) as [E0' | N0]; [lia |].
    destruct (scan_fraction_digits base (advance s3)) as [D _].
    destruct (scan_fraction base (advance s3)) as [run rest].
    cbn [fst] in D.
    assert (F : forallb (is_base_digit base) (rev run) = true)
      by (rewrite forallb_rev; exact D).
    pose proof (parse_fraction_floor base _ Hb F 0 0 ltac:(lia) ltac:(lia))
      as P.
    rewrite Z.mul_0_l, Z.pow_0_r, Z.div_1_r in P. rewrite P.
    eexists _, _. split; [reflexivity |]. split; [apply Wf | exact In_s].
  - eexists _, _. split; [reflexivity |]. split; [apply Wf | exact In_s].
Qed.

Lemma r128FromString_total_witness :
  exists (v : R128) (rest : string),
    r128FromString "."%char " -0x1F.8 and more" = Some (v, rest)
    /\ wf v /\ ends_with " -0x1F.8 and more" rest.
Proof.
  apply (r128FromString_total "."%char " -0x1F.8 and more").
  discriminate.
Defined.

Lemma skip_space_spaces (ws s : string) :
  all_spaces ws = true -> skip_space (ws ++ s) = skip_space s.
Proof.
  unfold all_spaces. induction ws as [| c ws IH]; [reflexivity |].
  cbn [list_ascii_of_string forallb append skip_space].
  intros H. apply andb_prop in H. destruct H as [Hc Hws].
  unfold is_space in Hc. rewrite Hc. apply IH, Hws.
Qed.

(** X22.  What the parser skips and what it does without a number: leading
    white space is ignored; a plus sign in front of text that starts
    neither with white space nor with a sign is ignored; and text that
    starts with none of white space, a sign, a digit and the decimal point
    (the empty string too) gives zero with the end pointer at the start. *)
Theorem r128FromString_lexical (dec : ascii) (s : string) :
  (forall ws : string,
      all_spaces ws = true ->
      r128FromString dec (ws ++ s) = r128FromString dec s)
  /\ (is_space (peek s) = false ->
      ord (peek s) <> 45 -> ord (peek s) <> 43 ->
      r128FromString dec (String "+"%char s) = r128FromString dec s)
  /\ (is_space (peek s) = false ->
      ord (peek s) <> 45 -> ord (peek s) <> 43 ->
      is_digit (peek s) = false -> ord (peek s) <> ord dec ->
      r128FromString dec s = Some (R128_zero, s)).
Proof.
  split; [| split].
  - intros ws Hws. unfold r128FromString.
    rewrite (skip_space_spaces ws s Hws). reflexivity.
  - intros Hsp Hm Hp. unfold r128FromString.
    rewrite (skip_space_other s Hsp).
    rewrite (skip_space_other (String "+"%char s)) by reflexivity.
    cbn [peek advance].
    change (ord "-"%char) with 45. change (ord "+"%char) with 43.
    change (43 =? 45) with false. change (43 =? 43) with true. cbv iota.
    destruct (Z.eqb_spec (ord (peek s)) 45); [contradiction |].
    destruct (Z.eqb_spec (ord (peek s)) 43); [contradiction |].
    reflexivity.
  - intros Hsp Hm Hp Hd Hdec. unfold r128FromString.
    rewrite (skip_space_other s Hsp).
    change (ord "-"%char) with 45. change (ord "+"%char) with 43.
    destruct (Z.eqb_spec (ord (peek s)) 45); [contradiction |].
    destruct (Z.eqb_spec (ord (peek s)) 43); [contradiction |].
    assert (N0 : (ord (peek s) =? ord "0"%char) = false).
    { unfold is_digit in Hd.
      destruct (Z.eqb_spec (ord (peek s)) (ord "0"%char)) as [E |];
        [| reflexivity].
      rewrite E in Hd. discriminate Hd. }
    rewrite N0. cbn [andb].
    assert (PW : parse_whole 10 0 s = (0, s)).
    { destruct s as [| c s']; [reflexivity |]. cbn [peek] in Hd.
      cbn [parse_whole]. rewrite Hd. reflexivity. }
    rewrite PW.
    destruct (Z.eqb_spec (ord (peek s)) (ord dec)); [contradiction |].
    reflexivity.
Qed.

Lemma r128FromString_lexical_witness :
  r128FromString "."%char ("  " ++ "x1") = r128FromString "."%char "x1"
  /\ r128FromString "."%char "+x1" = r128FromString "."%char "x1"
  /\ r128FromString "."%char "x1" = Some (R128_zero, "x1"%string).
Proof.
  destruct (r128FromString_lexical "."%char "x1") as (A & B & C).
  split; [apply A; reflexivity |].
  split; [apply B; [reflexivity | discriminate | discriminate] |].
  apply C; [reflexivity | discriminate | discriminate | reflexivity
           | discriminate].
Defined.

(** ** Formatter: the size of the text *)

Lemma format_digits_bound (dec : ascii) (v : R128)
    (format : R128ToStringFormat) :
  forall buf ix sgn wd trail,
    format_digits dec v format = (buf, ix, sgn, wd, trail) ->
    Z.of_nat (List.length buf)
      <= (if precision format <? 0 then 20
          else Z.min (precision format) 107) + 21
    /\ trail = Z.max 0 (precision format - 107)
    /\ wd = Z.max 0 (width format).
Proof.
  intros buf ix sgn wd trail. unfold format_digits.
  rewrite r128Copy_id.
  pose proof (whole_loop_length 20) as W.
  set (wl := whole_loop 20) in *. clearbody wl.
  destruct (if r128IsNeg v then (r128Neg v, true) else (v, false))
    as [tmp s].
  assert (Wd : (if width format <? 0 then 0
                else width format)
               = Z.max 0 (width format)).
  { destruct (Z.ltb_spec (width format) 0); lia. }
  rewrite Wd.
  assert (P : exists full p t,
             (if precision format <? 0 then (false, 20, 0)
              else if precision format >? 128 - 21 then
                (true, precision format - (precision format - (128 - 21)),
                 precision format - (128 - 21))
              else (true, precision format, 0)) = (full, p, t)
             /\ 0 <= p
             /\ p = (if precision format <? 0 then 20
                     else Z.min (precision format) 107)
             /\ t = Z.max 0 (precision format - 107)).
  { destruct (Z.ltb_spec (precision format) 0).
    - exists false, 20, 0. split; [reflexivity | lia].
    - destruct (Z.gtb_spec (precision format) (128 - 21)).
      + eexists _, _, _. split; [reflexivity | lia].
      + eexists _, _, _. split; [reflexivity | lia]. }
  destruct P as (full & p & t & -> & Hp & Ep & Et). rewrite <- Ep.
  destruct (negb (lo tmp =? 0) || negb (decimal format =? 0)).
  - pose proof (frac_loop_length (Z.to_nat p) full p (lo tmp) [] (hi tmp))
      as L.
    destruct (frac_loop (Z.to_nat p) full p (lo tmp) [] (hi tmp))
      as [fb w]. cbn [fst List.length] in L.
    destruct (negb (decimal format =? 0) || negb (p =? 0)).
    + intros E. injection E as <- _ _ <- <-.
      specialize (W w (fb ++ [dec])).
      rewrite length_app in W. cbn [List.length] in W. lia.
    + intros E. injection E as <- _ _ <- <-.
      specialize (W w fb). lia.
  - intros E. injection E as <- _ _ <- <-.
    specialize (W (hi tmp) []).
    cbn [List.length] in W. lia.
Qed.

Lemma format_text_length (format : R128ToStringFormat) (buf : list ascii)
    (ix : nat) (sgn : bool) (width trail : Z) :
  0 <= trail ->
  Z.of_nat (List.length (format_text format buf ix sgn width trail))
    <= Z.max width (Z.of_nat (List.length buf) + 1) + trail.
Proof.
  intros Ht. unfold format_text, sign_pad.
  assert (D : List.length (rev (skipn ix buf) ++ firstn ix buf)
              = List.length buf).
  { rewrite length_app, length_rev, length_skipn, length_firstn. lia. }
  set (digits := rev (skipn ix buf) ++ firstn ix buf) in *. clearbody digits.
  assert (S : sign_chars sgn format = []
              \/ exists c, sign_chars sgn format = [c]).
  { unfold sign_chars. destruct sgn; [right; eexists; reflexivity |].
    destruct (sign format);
      [left; reflexivity | right; eexists; reflexivity
       | right; eexists; reflexivity]. }
  destruct (negb (leftAlign format =? 0));
    [| destruct (negb (zeroPad format =? 0))];
    destruct S as [-> | [c ->]];
    rewrite ?length_app, ?repeat_length, ?D; cbn [List.length]; lia.
Qed.

(** With a destination larger than [text_bound] the whole text is
    stored. *)
Lemma r128__format_whole_text (dec : ascii) (size : Z) (v : R128)
    (format : R128ToStringFormat) :
  text_bound format < size < two64 ->
  forall buf ix sgn width trail,
    format_digits dec v format = (buf, ix, sgn, width, trail) ->
    Z.of_nat (List.length (format_text format buf ix sgn width trail))
      <= text_bound format
    /\ r128__format dec size v format
       = (format_text format buf ix sgn width trail ++ [zero],
          s32 (Z.of_nat
                 (List.length (format_text format buf ix sgn width trail)))).
Proof.
  intros Hs buf ix sgn width trail E.
  destruct (format_digits_bound dec v format _ _ _ _ _ E) as (Hb & Ht & Hw).
  assert (L : Z.of_nat (List.length
                          (format_text format buf ix sgn width trail))
              <= text_bound format).
  { etransitivity; [apply format_text_length; lia |].
    unfold text_bound. cbv zeta. lia. }
  split; [exact L |].
  assert (T0 : 0 <= text_bound format).
  { unfold text_bound. cbv zeta.
    destruct (precision format <? 0); lia. }
  destruct (r128__format_prefix dec size v format ltac:(lia))
    as (text & Ht' & ->).
  rewrite (Ht' _ _ _ _ _ E).
  rewrite firstn_all2 by lia. reflexivity.
Qed.

(** X23.  A destination of more than [text_bound] bytes is never too small:
    any larger one receives the same bytes, the text and its NUL are at
    most [text_bound + 1] bytes, and the value returned is the length of
    the text when the bound is below [2^31]. *)
Theorem r128ToStringOpt_fits (dec : ascii) (size size' : Z) (v : R128)
    (format : R128ToStringFormat) :
  text_bound format < size -> size <= size' < two64 ->
  r128ToStringOpt dec size' v format = r128ToStringOpt dec size v format
  /\ Z.of_nat (List.length (fst (r128ToStringOpt dec size v format)))
     <= text_bound format + 1
  /\ (text_bound format < 2 ^ 31 ->
      snd (r128ToStringOpt dec size v format)
      = Z.of_nat (List.length (fst (r128ToStringOpt dec size v format))) - 1).
Proof.
  intros H1 H2. unfold r128ToStringOpt.
  destruct (format_digits dec v format) as [[[[buf ix] sgn] width] trail]
    eqn:E.
  destruct (r128__format_whole_text dec size v format ltac:(lia) _ _ _ _ _ E)
    as [L ->].
  destruct (r128__format_whole_text dec size' v format ltac:(lia) _ _ _ _ _ E)
    as [_ ->].
  split; [reflexivity |]. cbn [fst snd].
  rewrite length_app. cbn [List.length].
  split; [lia |].
  intros B. rewrite s32_small by lia. lia.
Qed.

Lemma r128ToStringOpt_fits_witness :
  r128ToStringOpt "."%char 64 R128_one (mkFormat R128ToStringSign_Plus 8 3 0 0 0)
  = r128ToStringOpt "."%char 26 R128_one (mkFormat R128ToStringSign_Plus 8 3 0 0 0).
Proof.
  apply (r128ToStringOpt_fits "."%char 26 64 R128_one
           (mkFormat R128ToStringSign_Plus 8 3 0 0 0)).
  - reflexivity.
  - split; [discriminate | reflexivity].
Defined.

(** X24.  [r128ToString] needs at most 43 bytes: every destination of 43
    bytes or more receives the same text, of 1 to 42 characters, and the
    value returned is its length. *)
Theorem r128ToString_43_bytes (dec : ascii) (size : Z) (v : R128) :
  43 <= size < two64 ->
  r128ToString dec size v = r128ToString dec 43 v
  /\ snd (r128ToString dec size v)
     = Z.of_nat (List.length (fst (r128ToString dec size v))) - 1
  /\ snd (r128ToString dec size v) <= 42.
Proof.
  intros Hs. unfold r128ToString.
  destruct (format_digits dec v R128__defaultFormat)
    as [[[[buf ix] sgn] width] trail] eqn:E.
  assert (B : text_bound R128__defaultFormat = 42) by reflexivity.
  destruct (r128__format_whole_text dec size v R128__defaultFormat
              ltac:(rewrite B; lia) _ _ _ _ _ E) as [L ->].
  destruct (r128__format_whole_text dec 43 v R128__defaultFormat
              ltac:(rewrite B; consts; lia) _ _ _ _ _ E) as [_ ->].
  rewrite B in L.
  split; [reflexivity |]. cbn [fst snd].
  rewrite length_app. cbn [List.length].
  rewrite s32_small by lia. lia.
Qed.

Lemma r128ToString_43_bytes_witness :
  r128ToString "."%char 100 R128_min = r128ToString "."%char 43 R128_min.
Proof.
  apply (r128ToString_43_bytes "."%char 100 R128_min).
  split; [discriminate | reflexivity].
Defined.

(** X25.  Truncation only cuts the text short: the characters a destination
    receives are the first [size - 1] of the characters a larger
    destination receives, with no further rounding. *)
Theorem r128ToStringOpt_truncates (dec : ascii) (size size' : Z) (v : R128)
    (format : R128ToStringFormat) :
  1 <= size -> size <= size' < two64 ->
  removelast (fst (r128ToStringOpt dec size v format))
  = firstn (Z.to_nat (size - 1))
      (removelast (fst (r128ToStringOpt dec size' v format))).
Proof.
  intros H1 H2. unfold r128ToStringOpt.
  destruct (format_digits dec v format) as [[[[buf ix] sgn] wd] trail] eqn:E.
  destruct (r128__format_prefix dec size v format ltac:(lia))
    as (text & Ht & ->).
  destruct (r128__format_prefix dec size' v format ltac:(lia))
    as (text' & Ht' & ->).
  rewrite (Ht _ _ _ _ _ E), (Ht' _ _ _ _ _ E). cbn [fst].
  rewrite !removelast_last, firstn_firstn.
  f_equal. lia.
Qed.

Lemma r128ToStringOpt_truncates_witness :
  removelast (fst (r128ToStringOpt "."%char 4 R128_min R128__defaultFormat))
  = firstn (Z.to_nat (4 - 1))
      (removelast (fst (r128ToStringOpt "."%char 43 R128_min
                          R128__defaultFormat))).
Proof.
  apply (r128ToStringOpt_truncates "."%char 4 43 R128_min R128__defaultFormat).
  - discriminate.
  - split; [discriminate | reflexivity].
Defined.

(** ** Formatting, then parsing: values with a short fraction *)

Lemma ord_chr (z : Z) : ord (chr z) = z mod 256.
Proof.
  unfold ord, chr.
  assert (R : 0 <= z mod 256 < 256) by (apply Z.mod_pos_bound; lia).
  rewrite N_ascii_embedding by lia.
  apply Z2N.id. lia.
Qed.

(** The character of a decimal digit. *)
Lemma digit_char (d : Z) :
  0 <= d <= 9 ->
  ord (chr (d + ord "0"%char)) = d + 48
  /\ is_base_digit 10 (chr (d + ord "0"%char)) = true
  /\ digit_value (chr (d + ord "0"%char)) = d.
Proof.
  intros Hd. change (ord "0"%char) with 48.
  assert (O : ord (chr (d + 48)) = d + 48).
  { rewrite ord_chr. apply Z.mod_small. lia. }
  assert (D : is_digit (chr (d + 48)) = true).
  { unfold is_digit. rewrite O.
    change (ord "0"%char) with 48. change (ord "9"%char) with 57.
    apply andb_true_intro. split; apply Z.leb_le; lia. }
  split; [exact O |]. split.
  - unfold is_base_digit. rewrite D. reflexivity.
  - unfold digit_value. rewrite D, O. change (ord "0"%char) with 48. lia.
Qed.

Lemma list_ascii_app (a b : string) :
  list_ascii_of_string (a ++ b)
  = list_ascii_of_string a ++ list_ascii_of_string b.
Proof.
  induction a as [| c a IH]; [reflexivity |].
  cbn [append list_ascii_of_string app]. rewrite IH. reflexivity.
Qed.

Lemma string_value_app (base : Z) (a b : string) :
  forall acc,
    string_value base acc (a ++ b)
    = string_value base (string_value base acc a) b.
Proof.
  induction a as [| c a IH]; intros acc; [reflexivity |].
  cbn [append string_value]. apply IH.
Qed.

Lemma all_base_digits_app (base : Z) (a b : string) :
  all_base_digits base (a ++ b)
  = all_base_digits base a && all_base_digits base b.
Proof.
  induction a as [| c a IH]; [reflexivity |].
  cbn [append all_base_digits]. rewrite IH. apply andb_assoc.
Qed.

Lemma string_length_app (a b : string) :
  String.length (a ++ b) = (String.length a + String.length b)%nat.
Proof.
  induction a as [| c a IH]; [reflexivity |].
  cbn [append String.length]. rewrite IH. reflexivity.
Qed.

(** [r128__umul128] by ten on a 64-bit word: the digit and the rest. *)
Lemma umul128_ten (t : Z) :
  0 <= t < two64 ->
  lo (r128__umul128 t 10) = (t * 10) mod two64
  /\ hi (r128__umul128 t 10) = t * 10 / two64
  /\ 0 <= t * 10 / two64 <= 9.
Proof.
  intros Ht. unfold r128__umul128. cbn [lo hi].
  rewrite (Z.mod_small (t * 10) two128) by (consts; lia).
  rewrite Z.shiftr_div_pow2 by lia. fold two64.
  unfold u64.
  assert (0 <= t * 10 / two64 <= 9) by zarith.
  split; [reflexivity |]. split; [| assumption].
  apply Z.mod_small. consts. lia.
Qed.

(** The fraction loop of the default format on a fraction that ends
    within the digits allowed: the loop writes the digits of the
    fraction, all of them, and leaves [whole] alone. *)
Lemma frac_loop_exact (k : nat) :
  forall (tlo : Z) (buf : list ascii) (whole : Z),
    0 <= tlo < two64 ->
    (tlo * 10 ^ Z.of_nat k) mod two64 = 0 ->
    exists digits : string,
      frac_loop k false 20 tlo buf whole
        = (buf ++ list_ascii_of_string digits, whole)
      /\ all_base_digits 10 digits = true
      /\ string_value 10 0 digits * two64
         = tlo * 10 ^ Z.of_nat (String.length digits)
      /\ (tlo <> 0 -> digits <> EmptyString).
Proof.
  induction k as [| k IH]; intros tlo buf whole Ht Hz.
  - assert (tlo = 0).
    { cbn [Z.of_nat] in Hz. rewrite Z.pow_0_r, Z.mul_1_r in Hz.
      rewrite Z.mod_small in Hz by lia. exact Hz. }
    subst tlo. exists EmptyString. cbn. rewrite app_nil_r.
    split; [reflexivity |]. split; [reflexivity |].
    split; [reflexivity | intros C; contradiction].
  - cbn [frac_loop andb orb]. rewrite orb_false_r.
    destruct (Z.eqb_spec tlo 0) as [-> | Hn]; cbn [negb].
    + exists EmptyString. cbn. rewrite app_nil_r.
      split; [reflexivity |]. split; [reflexivity |].
      split; [reflexivity | intros C; contradiction].
    + destruct (umul128_ten tlo Ht) as (El & Eh & Hd).
      rewrite El, Eh.
      assert (Ht' : 0 <= (tlo * 10) mod two64 < two64)
        by (apply Z.mod_pos_bound; consts; lia).
      assert (Hz' : ((tlo * 10) mod two64 * 10 ^ Z.of_nat k) mod two64 = 0).
      { rewrite Z.mul_mod_idemp_l by (consts; lia).
        rewrite <- Z.mul_assoc, <- Z.pow_succ_r, <- Nat2Z.inj_succ by lia.
        exact Hz. }
      destruct (IH ((tlo * 10) mod two64)
                  (buf ++ [chr (tlo * 10 / two64 + ord "0"%char)]) whole
                  Ht' Hz') as (ds & E & A & V & _).
      destruct (digit_char (tlo * 10 / two64) Hd) as (_ & Dg & Dv).
      exists (String (chr (tlo * 10 / two64 + ord "0"%char)) ds).
      split; [| split; [| split]].
      * rewrite E, <- app_assoc. reflexivity.
      * cbn [all_base_digits]. rewrite Dg, A. reflexivity.
      * cbn [string_value String.length].
        rewrite string_value_acc, Dv, Z.mul_0_l, Z.add_0_l.
        rewrite Nat2Z.inj_succ, Z.pow_succ_r by lia.
        rewrite Z.mul_add_distr_r, V.
        pose proof (Z.div_mod (tlo * 10) two64 ltac:(consts; lia)) as DM.
        set (q := tlo * 10 / two64) in *.
        set (r := (tlo * 10) mod two64) in *.
        set (P := 10 ^ Z.of_nat (String.length ds)).
        replace (tlo * (10 * P)) with (tlo * 10 * P) by ring.
        rewrite DM. ring.
      * intros _. discriminate.
Qed.

(** The loop of the whole part writes the decimal digits of [whole],
    last digit first. *)
Lemma whole_loop_digits (fuel : nat) :
  forall (w : Z) (buf : list ascii),
    0 <= w < 10 ^ Z.of_nat (S fuel) ->
    exists digits : string,
      whole_loop (S fuel) w buf
        = buf ++ rev (list_ascii_of_string digits)
      /\ digits <> EmptyString
      /\ all_base_digits 10 digits = true
      /\ string_value 10 0 digits = w.
Proof.
  induction fuel as [| fuel IH]; intros w buf Hw.
  - change (10 ^ Z.of_nat 1) with 10 in Hw. cbn [whole_loop].
    replace (w / 10) with 0 by (symmetry; apply Z.div_small; lia).
    cbn [Z.eqb negb].
    rewrite (Z.mod_small w 10) by lia.
    destruct (digit_char w ltac:(lia)) as (_ & Dg & Dv).
    exists (String (chr (w + ord "0"%char)) EmptyString).
    split; [reflexivity |]. split; [discriminate |].
    split; [cbn [all_base_digits]; rewrite Dg; reflexivity |].
    cbn [string_value]. rewrite Dv. lia.
  - remember (S fuel) as n eqn:En. cbn [whole_loop].
    assert (Hm : 0 <= w mod 10 <= 9)
      by (pose proof (Z.mod_pos_bound w 10 ltac:(lia)); lia).
    destruct (digit_char (w mod 10) Hm) as (_ & Dg & Dv).
    set (c := chr (w mod 10 + ord "0"%char)) in *.
    destruct (Z.eqb_spec (w / 10) 0) as [E0 | N0]; cbn [negb].
    + exists (String c EmptyString).
      split; [reflexivity |]. split; [discriminate |].
      split; [cbn [all_base_digits]; rewrite Dg; reflexivity |].
      cbn [string_value]. rewrite Dv.
      pose proof (Z.div_mod w 10 ltac:(lia)). lia.
    + assert (Hw' : 0 <= w / 10 < 10 ^ Z.of_nat n).
      { rewrite Nat2Z.inj_succ, Z.pow_succ_r in Hw by lia.
        split; [apply Z.div_pos; lia |].
        apply Z.div_lt_upper_bound; lia. }
      subst n.
      destruct (IH (w / 10) (buf ++ [c]) Hw') as (ds & E & _ & A & V).
      exists (ds ++ String c EmptyString)%string.
      split; [| split; [| split]].
      * rewrite E, list_ascii_app, rev_app_distr, <- app_assoc. reflexivity.
      * destruct ds; discriminate.
      * rewrite all_base_digits_app, A. cbn [all_base_digits].
        rewrite Dg. reflexivity.
      * rewrite string_value_app, V. cbn [string_value]. rewrite Dv.
        pose proof (Z.div_mod w 10 ltac:(lia)). lia.
Qed.

Lemma format_digits_default (dec : ascii) (v : R128) :
  format_digits dec v R128__defaultFormat
  = (let '(tmp, sgn) :=
       if r128IsNeg v then (r128Neg v, true) else (v, false) in
     let '(buf, ix, whole) :=
       if negb (lo tmp =? 0) then
         let '(buf, whole) :=
           frac_loop 20 false 20 (lo tmp) [] (hi tmp) in
         (buf ++ [dec], List.length buf, whole)
       else ([], O, hi tmp) in
     (whole_loop 20 whole buf, ix, sgn, 0, 0)).
Proof.
  unfold format_digits. rewrite r128Copy_id.
  destruct (r128IsNeg v).
  - set (tmp := r128Neg v). clearbody tmp.
    cbn [R128__defaultFormat width precision decimal Z.ltb Z.compare
         Z.eqb negb orb].
    rewrite orb_false_r. change (Z.to_nat 20) with 20%nat.
    destruct (negb (lo tmp =? 0)); [| reflexivity].
    set (fl := frac_loop 20 false 20 (lo tmp) [] (hi tmp)). clearbody fl.
    destruct fl as [fb w]. reflexivity.
  - cbn [R128__defaultFormat width precision decimal Z.ltb Z.compare
         Z.eqb negb orb].
    rewrite orb_false_r. change (Z.to_nat 20) with 20%nat.
    destruct (negb (lo v =? 0)); [| reflexivity].
    set (fl := frac_loop 20 false 20 (lo v) [] (hi v)). clearbody fl.
    destruct fl as [fb w]. reflexivity.
Qed.

Lemma skipn_length_app {A : Type} (l r : list A) :
  skipn (List.length l) (l ++ r) = r.
Proof. induction l as [| x l IH]; [reflexivity | exact IH]. Qed.

Lemma firstn_length_app {A : Type} (l r : list A) :
  firstn (List.length l) (l ++ r) = l.
Proof.
  induction l as [| x l IH]; [reflexivity |].
  cbn [List.length app firstn]. rewrite IH. reflexivity.
Qed.

Lemma short_fraction_ends (l : Z) :
  l mod 2 ^ 44 = 0 -> (l * 10 ^ Z.of_nat 20) mod two64 = 0.
Proof.
  intros H. apply Z.mod_divide in H; [| lia]. destruct H as [q ->].
  change (10 ^ Z.of_nat 20) with (2 ^ 20 * 95367431640625).
  replace (q * 2 ^ 44 * (2 ^ 20 * 95367431640625))
    with (q * 95367431640625 * two64)
    by (unfold two64; change (2 ^ 64) with (2 ^ 44 * 2 ^ 20); ring).
  apply Z.mod_mul. consts. lia.
Qed.

(** The text of the default format for a magnitude [tmp] whose
    fraction is a multiple of [2^-20]: a numeral that denotes [tmp]. *)
Lemma default_text_numeral (tmp : R128) (sgn : bool) :
  wf tmp -> lo tmp mod 2 ^ 44 = 0 ->
  exists (w : string) (frac : option string),
    all_base_digits 10 w = true /\ w <> EmptyString
    /\ match frac with
       | Some digits => all_base_digits 10 digits = true
       | None => True
       end
    /\ numeral_value false 10 w frac = tmp
    /\ (frac = None <-> lo tmp = 0)
    /\ (let '(buf, ix, whole) :=
          if negb (lo tmp =? 0) then
            let '(buf, whole) :=
              frac_loop 20 false 20 (lo tmp) [] (hi tmp) in
            (buf ++ ["."%char], List.length buf, whole)
          else ([], O, hi tmp) in
        format_text R128__defaultFormat (whole_loop 20 whole buf) ix sgn 0 0)
       = list_ascii_of_string (numeral sgn 10 w frac EmptyString).
Proof.
  intros [Hl Hh] Hm. destruct tmp as [l h]. cbn [lo hi] in *.
  assert (Hh20 : 0 <= h < 10 ^ Z.of_nat 20).
  { change (10 ^ Z.of_nat 20) with 100000000000000000000. consts. lia. }
  assert (Text : forall (buf : list ascii) (ix : nat),
             format_text R128__defaultFormat buf ix sgn 0 0
             = (if sgn then ["-"%char] else [])
                 ++ rev (skipn ix buf) ++ firstn ix buf).
  { intros buf ix. unfold format_text, sign_chars.
    cbn [R128__defaultFormat leftAlign zeroPad sign Z.eqb negb].
    replace (Z.to_nat (0 - Z.of_nat (List.length buf) - 1)) with O by lia.
    change (Z.to_nat 0) with O. cbn [repeat app].
    rewrite app_nil_r. reflexivity. }
  assert (Sign : forall s : string,
             list_ascii_of_string ((if sgn then "-" else "") ++ s)
             = (if sgn then ["-"%char] else []) ++ list_ascii_of_string s).
  { intros s. destruct sgn; reflexivity. }
  destruct (Z.eqb_spec l 0) as [-> | Hn]; cbn [negb].
  - destruct (whole_loop_digits 19 h [] Hh20) as (w & E & Wn & Wd & Wv).
    exists w, None. split; [exact Wd |]. split; [exact Wn |].
    split; [exact I |]. split; [| split; [split; reflexivity |]].
    + unfold numeral_value. rewrite Wv, Z.mod_small by lia. reflexivity.
    + rewrite Text, E. cbn [app skipn firstn].
      rewrite rev_involutive, app_nil_r.
      unfold numeral. change (10 =? 16) with false. cbv iota.
      rewrite Sign. cbn [append]. rewrite append_empty_r. reflexivity.
  - destruct (frac_loop_exact 20 l [] h Hl (short_fraction_ends l Hm))
      as (ds & E & Dd & Dv & Dn).
    rewrite E. cbn [app].
    destruct (whole_loop_digits 19 h (list_ascii_of_string ds ++ ["."%char])
                Hh20) as (w & Ew & Wn & Wd & Wv).
    exists w, (Some ds). split; [exact Wd |]. split; [exact Wn |].
    split; [exact Dd |].
    split; [| split; [split; [discriminate | contradiction] |]].
    + unfold numeral_value. rewrite Wv, Z.mod_small by lia.
      rewrite Dv, Z.div_mul; [reflexivity |].
      apply Z.pow_nonzero; lia.
    + rewrite Text, Ew, <- app_assoc.
      rewrite skipn_length_app, firstn_length_app.
      cbn [app rev]. rewrite rev_involutive.
      unfold numeral. change (10 =? 16) with false. cbv iota.
      rewrite Sign. cbn [append]. rewrite list_ascii_app.
      cbn [list_ascii_of_string]. rewrite append_empty_r, <- app_assoc.
      reflexivity.
Qed.

Lemma c_string_text (s : string) :
  Forall (fun c => ord c <> 0) (list_ascii_of_string s) ->
  c_string (list_ascii_of_string s ++ [zero]) = s.
Proof.
  induction s as [| c s IH]; intros F; [reflexivity |].
  cbn [list_ascii_of_string app c_string].
  inversion F as [| x l Hc Hs]; subst.
  destruct (Z.eqb_spec (ord c) 0); [contradiction |].
  rewrite IH by exact Hs. reflexivity.
Qed.

Lemma digits_not_nul (base : Z) (s : string) :
  all_base_digits base s = true ->
  Forall (fun c => ord c <> 0) (list_ascii_of_string s).
Proof.
  induction s as [| c s IH]; intros H; [constructor |].
  cbn [all_base_digits] in H. apply andb_prop in H. destruct H as [Hc Hs].
  cbn [list_ascii_of_string]. constructor; [| apply IH, Hs].
  destruct (base_digit_ord base c Hc) as [O _]. lia.
Qed.

Lemma numeral_not_nul (neg : bool) (base : Z) (w : string)
    (frac : option string) :
  all_base_digits base w = true ->
  match frac with
  | Some digits => all_base_digits base digits = true
  | None => True
  end ->
  Forall (fun c => ord c <> 0)
    (list_ascii_of_string (numeral neg base w frac EmptyString)).
Proof.
  intros Hw Hf. unfold numeral. rewrite !list_ascii_app.
  apply Forall_app. split.
  { destruct neg; [| constructor].
    constructor; [discriminate | constructor]. }
  apply Forall_app. split.
  { destruct (base =? 16); [| constructor].
    constructor; [discriminate |]. constructor; [discriminate | constructor]. }
  apply Forall_app. split.
  { apply (digits_not_nul base), Hw. }
  destruct frac as [ds |]; [| constructor].
  cbn [list_ascii_of_string]. constructor; [discriminate |].
  rewrite list_ascii_app. apply Forall_app. split; [| constructor].
  apply (digits_not_nul base), Hf.
Qed.

Lemma r128Neg_lo (v : R128) :
  wf v -> lo (r128Neg v) = (- lo v) mod two64.
Proof.
  destruct v as [l h]. intros [Hl _]. cbn [lo hi] in *.
  unfold r128Neg, addcarry_u64, not64, u64, Z.lnot. cbn [lo].
  rewrite Z.add_0_r, Z.add_mod_idemp_l by (consts; lia).
  f_equal. lia.
Qed.

(** X26.  A value whose fraction is a multiple of [2^-20] (every integer is
    one) survives the round trip: formatted by [r128ToString] into 43
    bytes and parsed back, it is the value again.  The end pointer is at
    the end of the string for an integer, and at the decimal point of the
    string, with the fraction digits still ahead, for any other value. *)
Theorem round_trip_short_fraction (v : R128) :
  wf v -> lo v mod 2 ^ 44 = 0 ->
  exists rest : string,
    round_trip "."%char v = Some (v, rest)
    /\ (lo v = 0 -> rest = EmptyString)
    /\ (lo v <> 0 ->
        exists digits : string,
          rest = String "."%char digits
          /\ all_base_digits 10 digits = true).
Proof.
  intros Hv Hm. unfold round_trip, r128ToString.
  destruct (format_digits "."%char v R128__defaultFormat)
    as [[[[buf ix] sgn] wd] trail] eqn:E.
  destruct (r128__format_whole_text "."%char 43 v R128__defaultFormat
              ltac:(split; reflexivity) _ _ _ _ _ E) as [_ ->].
  cbn [fst].
  rewrite format_digits_default in E.
  set (tmp := if r128IsNeg v then r128Neg v else v).
  assert (Ht : wf tmp /\ lo tmp mod 2 ^ 44 = 0
               /\ (if r128IsNeg v then r128Neg tmp else tmp) = v
               /\ (lo tmp = 0 <-> lo v = 0)).
  { unfold tmp. destruct (r128IsNeg v).
    - split; [apply r128Neg_wf |].
      rewrite (r128Neg_lo v Hv).
      destruct Hv as [Hl Hh].
      split; [| split;
                [apply r128Neg_involutive; split; assumption |]].
      + apply Z.mod_divide in Hm; [| lia]. destruct Hm as [q ->].
        apply Z.mod_divide; [lia |].
        exists ((- q) mod 2 ^ 20).
        replace (- (q * 2 ^ 44)) with (- q * 2 ^ 44) by ring.
        unfold two64. change (2 ^ 64) with (2 ^ 20 * 2 ^ 44).
        rewrite Z.mul_mod_distr_r by lia. reflexivity.
      + split; intros Z0.
        * revert Z0. zarith.
        * rewrite Z0. reflexivity.
    - split; [exact Hv |]. split; [exact Hm |].
      split; [reflexivity | split; intros; assumption]. }
  destruct Ht as (Wt & Mt & Back & Zero).
  destruct (default_text_numeral tmp (r128IsNeg v) Wt Mt)
    as (w & frac & Wd & Wn & Fd & Val & Fz & Txt).
  assert (Et : format_text R128__defaultFormat buf ix sgn wd trail
               = list_ascii_of_string
                   (numeral (r128IsNeg v) 10 w frac EmptyString)).
  { rewrite <- Txt. unfold tmp. revert E.
    set (wl := whole_loop 20). clearbody wl.
    destruct (r128IsNeg v); cbv beta iota;
      match goal with
      | |- context [if negb (lo ?t =? 0) then ?a else ?b] =>
          destruct (if negb (lo t =? 0) then a else b) as [[b0 i0] wh]
      end;
      intros E; injection E as <- <- <- <- <-; reflexivity. }
  rewrite Et, c_string_text by (apply numeral_not_nul; assumption).
  assert (U : r128FromString "."%char (numeral false 10 w frac EmptyString)
              = Some (tmp, numeral_tail frac EmptyString)).
  { rewrite <- Val.
    apply (r128FromString_numeral_unsigned 10 w frac EmptyString).
    - left. reflexivity.
    - exact Wd.
    - exact Wn.
    - destruct frac; [exact Fd |]. cbn. lia.
    - reflexivity. }
  exists (numeral_tail frac EmptyString).
  split; [| split].
  - destruct (r128IsNeg v); [| rewrite U, Back; reflexivity].
    destruct (numeral_first 10 w frac EmptyString (or_introl eq_refl) Wd Wn)
      as (F1 & F2 & F3).
    change (numeral true 10 w frac EmptyString)
      with (String "-"%char (numeral false 10 w frac EmptyString)).
    rewrite (r128FromString_minus _ _ F1 F2 F3), U, Back. reflexivity.
  - intros Z0. apply Zero, Fz in Z0. rewrite Z0. reflexivity.
  - intros N0. destruct frac as [ds |].
    + exists (ds ++ EmptyString)%string. split; [reflexivity |].
      rewrite append_empty_r. exact Fd.
    + exfalso. apply N0, Zero, Fz. reflexivity.
Qed.

Lemma round_trip_short_fraction_witness :
  exists rest : string,
    round_trip "."%char {| lo := 3 * 2 ^ 44; hi := two64 - 7 |}
    = Some ({| lo := 3 * 2 ^ 44; hi := two64 - 7 |}, rest)
    /\ (3 * 2 ^ 44 = 0 -> rest = EmptyString)
    /\ (3 * 2 ^ 44 <> 0 ->
        exists digits : string,
          rest = String "."%char digits
          /\ all_base_digits 10 digits = true).
Proof.
  apply (round_trip_short_fraction {| lo := 3 * 2 ^ 44; hi := two64 - 7 |}).
  - unfold wf. cbn [lo hi]. consts. lia.
  - reflexivity.
Defined.

(** ** Formatter: the field width *)

Lemma whole_loop_grows (n : nat) :
  forall (w : Z) (buf : list ascii),
    (List.length buf + 1 <= List.length (whole_loop (S n) w buf))%nat.
Proof.
  induction n as [| n IH]; intros w buf.
  - cbn [whole_loop]. destruct (negb (w / 10 =? 0));
      rewrite length_app; cbn [List.length]; lia.
  - remember (S n) as m eqn:Em. cbn [whole_loop]. subst m.
    destruct (negb (w / 10 =? 0)).
    + etransitivity; [| apply IH]. rewrite length_app. cbn [List.length]. lia.
    + rewrite length_app. cbn [List.length]. lia.
Qed.

(** The width takes no part in the generation of the digits. *)
Lemma format_digits_width (dec : ascii) (v : R128)
    (format : R128ToStringFormat) (w : Z) :
  exists buf ix trail,
    format_digits dec v format
      = (buf, ix, r128IsNeg v, Z.max 0 (width format), trail)
    /\ format_digits dec v (with_width w format)
       = (buf, ix, r128IsNeg v, Z.max 0 w, trail)
    /\ trail = Z.max 0 (precision format - 107)
    /\ (1 <= List.length buf)%nat.
Proof.
  unfold format_digits, with_width. cbn [width precision decimal].
  rewrite r128Copy_id.
  assert (Wl : forall wh b, (1 <= List.length (whole_loop 20 wh b))%nat).
  { intros wh b. pose proof (whole_loop_grows 19 wh b). lia. }
  set (wl := whole_loop 20) in *. clearbody wl.
  assert (Wd : forall x, (if x <? 0 then 0 else x) = Z.max 0 x).
  { intros x. destruct (Z.ltb_spec x 0); lia. }
  rewrite !Wd.
  assert (S : (if r128IsNeg v then (r128Neg v, true) else (v, false))
              = ((if r128IsNeg v then r128Neg v else v), r128IsNeg v)).
  { destruct (r128IsNeg v); reflexivity. }
  rewrite S. set (tmp := if r128IsNeg v then r128Neg v else v). clearbody tmp.
  assert (P : exists full p t,
             (if precision format <? 0 then (false, 20, 0)
              else if precision format >? 128 - 21 then
                (true, precision format - (precision format - (128 - 21)),
                 precision format - (128 - 21))
              else (true, precision format, 0)) = (full, p, t)
             /\ t = Z.max 0 (precision format - 107)).
  { destruct (Z.ltb_spec (precision format) 0).
    - exists false, 20, 0. split; [reflexivity | lia].
    - destruct (Z.gtb_spec (precision format) (128 - 21)).
      + eexists _, _, _. split; [reflexivity | lia].
      + eexists _, _, _. split; [reflexivity | lia]. }
  destruct P as (full & p & t & -> & Et).
  destruct (if negb (lo tmp =? 0) || negb (decimal format =? 0)
            then
              let '(buf, whole) :=
                frac_loop (Z.to_nat p) full p (lo tmp) [] (hi tmp) in
              if negb (decimal format =? 0) || negb (p =? 0)
              then (buf ++ [dec], List.length buf, whole)
              else (buf, O, whole)
            else ([], O, hi tmp)) as [[b i] wh].
  exists (wl wh b), i, t.
  split; [reflexivity |]. split; [reflexivity |].
  split; [exact Et | apply Wl].
Qed.

Lemma format_text_length_exact (format : R128ToStringFormat)
    (buf : list ascii) (ix : nat) (sgn : bool) (width trail : Z) :
  0 <= trail ->
  Z.of_nat (List.length (format_text format buf ix sgn width trail))
  = Z.max (Z.of_nat (List.length (sign_chars sgn format))
           + Z.of_nat (List.length buf))
      (width
       - (if (leftAlign format =? 0) && (zeroPad format =? 0)
             && (List.length (sign_chars sgn format) =? 0)%nat
          then 1 else 0))
    + trail.
Proof.
  intros Ht. unfold format_text, sign_pad.
  assert (D : List.length (rev (skipn ix buf) ++ firstn ix buf)
              = List.length buf).
  { rewrite length_app, length_rev, length_skipn, length_firstn. lia. }
  set (digits := rev (skipn ix buf) ++ firstn ix buf) in *. clearbody digits.
  assert (S : sign_chars sgn format = []
              \/ exists c, sign_chars sgn format = [c]).
  { unfold sign_chars. destruct sgn; [right; eexists; reflexivity |].
    destruct (sign format);
      [left; reflexivity | right; eexists; reflexivity
       | right; eexists; reflexivity]. }
  destruct (leftAlign format =? 0); destruct (zeroPad format =? 0);
    cbn [negb andb];
    destruct S as [-> | [c ->]];
    rewrite ?length_app, ?repeat_length, ?D; cbn [List.length Nat.eqb];
    lia.
Qed.

(** X27.  The field width.  With a destination that is large enough, the
    text is as long as with width zero, or as long as the width when that
    is more; but a number printed right-aligned and padded with spaces,
    without a sign character, is padded to one character less than the
    width.  The zeros appended for a precision above 107 come on top. *)
Theorem r128ToStringOpt_width (dec : ascii) (size : Z) (v : R128)
    (format : R128ToStringFormat) :
  text_bound format < size < two64 -> text_bound format < 2 ^ 31 ->
  let natural := snd (r128ToStringOpt dec size v (with_width 0 format)) in
  let zeros := Z.max 0 (precision format - 107) in
  let short :=
    if (leftAlign format =? 0) && (zeroPad format =? 0)
       && negb (r128IsNeg v)
       && match sign format with
          | R128ToStringSign_Default => true
          | _ => false
          end
    then 1 else 0 in
  snd (r128ToStringOpt dec size v format)
  = Z.max (natural - zeros) (width format - short) + zeros.
Proof.
  intros Hs Hb. cbv zeta. unfold r128ToStringOpt.
  destruct (format_digits_width dec v format 0)
    as (buf & ix & trail & E & E0 & Et & Hl).
  assert (B0 : text_bound (with_width 0 format) <= text_bound format).
  { unfold text_bound, with_width. cbn [width precision]. cbv zeta.
    destruct (Z.ltb_spec (precision format) 0); lia. }
  destruct (r128__format_whole_text dec size v format Hs _ _ _ _ _ E)
    as [L ->].
  destruct (r128__format_whole_text dec size v (with_width 0 format)
              ltac:(lia) _ _ _ _ _ E0) as [L0 ->].
  cbn [snd]. rewrite !s32_small by lia.
  assert (T0 : 0 <= trail) by lia.
  rewrite (format_text_length_exact format buf ix _ _ trail T0).
  rewrite (format_text_length_exact (with_width 0 format) buf ix _ _ trail T0).
  assert (Sc : sign_chars (r128IsNeg v) (with_width 0 format)
               = sign_chars (r128IsNeg v) format) by reflexivity.
  rewrite Sc. cbn [with_width leftAlign zeroPad].
  rewrite <- Et.
  assert (Sh : (List.length (sign_chars (r128IsNeg v) format) =? 0)%nat
               = negb (r128IsNeg v)
                 && match sign format with
                    | R128ToStringSign_Default => true
                    | _ => false
                    end).
  { unfold sign_chars. destruct (r128IsNeg v); [reflexivity |].
    destruct (sign format); reflexivity. }
  rewrite Sh, <- !andb_assoc.
  set (sc := Z.of_nat (List.length (sign_chars (r128IsNeg v) format))).
  assert (0 <= sc) by lia.
  clearbody sc.
  destruct ((leftAlign format =? 0)
            && ((zeroPad format =? 0)
                && (negb (r128IsNeg v)
                    && match sign format with
                       | R128ToStringSign_Default => true
                       | _ => false
                       end))); lia.
Qed.

Lemma r128ToStringOpt_width_witness :
  snd (r128ToStringOpt "."%char 64 R128_one
         (mkFormat R128ToStringSign_Default 8 3 0 0 0))
  = Z.max (snd (r128ToStringOpt "."%char 64 R128_one
                  (with_width 0 (mkFormat R128ToStringSign_Default 8 3 0 0 0)))
           - Z.max 0 (3 - 107))
      (8 - 1)
    + Z.max 0 (3 - 107).
Proof.
  apply (r128ToStringOpt_width "."%char 64 R128_one
           (mkFormat R128ToStringSign_Default 8 3 0 0 0)).
  - split; reflexivity.
  - reflexivity.
Defined.

(** ** The printf-style front end *)

Ltac ord_consts :=
  change (ord " "%char) with 32 in *; change (ord "+"%char) with 43 in *;
  change (ord "0"%char) with 48 in *; change (ord "9"%char) with 57 in *;
  change (ord "-"%char) with 45 in *; change (ord "#"%char) with 35 in *;
  change (ord "%"%char) with 37 in *; change (ord "."%char) with 46 in *.

Lemma flags_field_stop (s : string) (opts : R128ToStringFormat) :
  ord (peek s) <> 32 -> ord (peek s) <> 43 -> ord (peek s) <> 48 ->
  ord (peek s) <> 45 -> ord (peek s) <> 35 ->
  flags_field s opts = (opts, s).
Proof.
  destruct s as [| c s]; [reflexivity |]. cbn [peek flags_field].
  ord_consts. intros.
  repeat match goal with
         | |- context [ord c =? ?n] =>
             destruct (Z.eqb_spec (ord c) n); [lia |]
         end.
  reflexivity.
Qed.

Lemma string_value_grows (s : string) (acc : Z) :
  all_base_digits 10 s = true -> 0 <= acc ->
  acc <= string_value 10 acc s.
Proof.
  intros Hs Ha. rewrite string_value_acc.
  pose proof (string_value_bound 10 s (or_introl eq_refl) Hs).
  assert (1 <= 10 ^ Z.of_nat (String.length s))
    by (pose proof (Z.pow_pos_nonneg 10 (Z.of_nat (String.length s))); lia).
  nia.
Qed.

(** The width and precision loops on a run of digits whose value, and
    the intermediate sums with it, fit an [int]. *)
Lemma int_field_run (w rest : string) :
  all_base_digits 10 w = true -> is_digit (peek rest) = false ->
  forall acc : Z,
    0 <= acc -> string_value 10 acc w + 48 < 2 ^ 31 ->
    int_field (w ++ rest) acc = Some (string_value 10 acc w, rest).
Proof.
  intros Hw Hrest. induction w as [| c w IH]; intros acc Ha Hv.
  - cbn [append string_value]. destruct rest as [| c rest]; [reflexivity |].
    cbn [peek] in Hrest. cbn [int_field]. unfold is_digit in Hrest.
    rewrite Hrest. reflexivity.
  - cbn [all_base_digits] in Hw. apply andb_prop in Hw. destruct Hw as [Hc Hw].
    destruct (base_digit_ord 10 c Hc) as [_ O]. specialize (O eq_refl).
    cbn [append int_field string_value] in *.
    assert (Dv : digit_value c = ord c - 48).
    { unfold digit_value, is_digit. ord_consts.
      destruct (Z.leb_spec 48 (ord c)); [| lia].
      destruct (Z.leb_spec (ord c) 57); [| lia]. reflexivity. }
    rewrite Dv in *.
    pose proof (string_value_grows w (acc * 10 + (ord c - 48)) Hw
                  ltac:(lia)) as G.
    ord_consts.
    destruct (Z.leb_spec 48 (ord c)); [| lia].
    destruct (Z.leb_spec (ord c) 57); [| lia]. cbn [andb].
    unfold int_ok.
    repeat match goal with
           | |- context [?a <=? ?b] =>
               destruct (Z.leb_spec a b); [| lia]
           | |- context [?a <? ?b] =>
               destruct (Z.ltb_spec a b); [| lia]
           end.
    cbn [andb].
    replace (acc * 10 + ord c - 48) with (acc * 10 + (ord c - 48)) by lia.
    apply (IH Hw); lia.
Qed.

Lemma flags_field_directive (sg : R128ToStringSign) (zero left alt : bool)
    (s : string) :
  ord (peek s) <> 32 -> ord (peek s) <> 43 -> ord (peek s) <> 48 ->
  ord (peek s) <> 45 -> ord (peek s) <> 35 ->
  flags_field
    (match sg with
     | R128ToStringSign_Default => ""
     | R128ToStringSign_Space => " "
     | R128ToStringSign_Plus => "+"
     end
     ++ (if zero then "0" else "") ++ (if left then "-" else "")
     ++ (if alt then "#" else "") ++ s)%string
    R128__defaultFormat
  = (mkFormat sg 0 (-1) (if zero then 1 else 0) (if alt then 1 else 0)
       (if left then 1 else 0), s).
Proof.
  intros H1 H2 H3 H4 H5.
  destruct sg, zero, left, alt; cbn [append flags_field]; ord_consts;
    cbn [Z.eqb Pos.eqb andb sign width precision zeroPad decimal leftAlign
         R128__defaultFormat];
    apply flags_field_stop; assumption.
Qed.

(** X28.  The printf-style front end on a directive: the flags, the width
    and the precision are read as written, and the formatter is called
    with them.  What follows the directive, the conversion character
    included, is not examined.  The width does not start with a zero,
    which would be read as the flag. *)
Theorem r128ToStringf_directive (dec : ascii) (size : Z) (v : R128)
    (sg : R128ToStringSign) (zero left alt : bool) (w : string)
    (p : option string) (rest : string) :
  all_base_digits 10 w = true -> ord (peek w) <> 48 ->
  string_value 10 0 w + 48 < 2 ^ 31 ->
  match p with
  | Some digits =>
      all_base_digits 10 digits = true
      /\ string_value 10 0 digits + 48 < 2 ^ 31
  | None => ord (peek rest) <> 46
  end ->
  is_digit (peek rest) = false ->
  ord (peek rest) <> 32 -> ord (peek rest) <> 43 ->
  ord (peek rest) <> 45 -> ord (peek rest) <> 35 ->
  r128ToStringf dec size (directive sg zero left alt w p rest) v
  = Some (r128ToStringOpt dec size v
            (directive_format sg zero left alt w p)).
Proof.
  intros Hw Hw0 Hwv Hp Hd H32 H43 H45 H35.
  set (tail := match p with
               | Some digits => String "."%char (digits ++ rest)
               | None => rest
               end).
  assert (Hd48 : ord (peek rest) <> 48).
  { unfold is_digit in Hd. ord_consts. intros E. rewrite E in Hd.
    discriminate Hd. }
  assert (Td : is_digit (peek tail) = false).
  { unfold tail. destruct p; [reflexivity | exact Hd]. }
  assert (Tf : ord (peek (w ++ tail)) <> 32 /\ ord (peek (w ++ tail)) <> 43
               /\ ord (peek (w ++ tail)) <> 48
               /\ ord (peek (w ++ tail)) <> 45
               /\ ord (peek (w ++ tail)) <> 35).
  { destruct w as [| c w'].
    - cbn [append]. unfold tail. destruct p; [cbn; lia |]. lia.
    - cbn [append peek] in *. cbn [all_base_digits] in Hw.
      apply andb_prop in Hw. destruct Hw as [Hc _].
      destruct (base_digit_ord 10 c Hc) as [_ O]. specialize (O eq_refl).
      lia. }
  destruct Tf as (T1 & T2 & T3 & T4 & T5).
  unfold r128ToStringf, directive. fold tail.
  cbn [append peek advance]. ord_consts.
  change (37 =? 37) with true. cbv iota.
  rewrite (flags_field_directive sg zero left alt (w ++ tail) T1 T2 T3 T4 T5).
  rewrite (int_field_run w tail Hw Td 0 ltac:(lia) Hwv).
  cbn [sign width precision zeroPad decimal leftAlign].
  unfold r128ToStringOpt, directive_format, tail.
  destruct p as [digits |].
  - destruct Hp as [Hpd Hpv]. cbn [peek advance].
    change (46 =? 46) with true. cbv iota.
    rewrite (int_field_run digits rest Hpd Hd 0 ltac:(lia) Hpv).
    reflexivity.
  - destruct (Z.eqb_spec (ord (peek rest)) 46); [contradiction |].
    reflexivity.
Qed.

Lemma r128ToStringf_directive_witness :
  r128ToStringf "."%char 64
    (directive R128ToStringSign_Plus true false false "12"
       (Some "3"%string) "f") R128_one
  = Some (r128ToStringOpt "."%char 64 R128_one
            (directive_format R128ToStringSign_Plus true false false "12"
               (Some "3"%string))).
Proof.
  apply (r128ToStringf_directive "."%char 64 R128_one R128ToStringSign_Plus
           true false false "12" (Some "3"%string) "f").
  - reflexivity.
  - discriminate.
  - reflexivity.
  - split; reflexivity.
  - reflexivity.
  - discriminate.
  - discriminate.
  - discriminate.
  - discriminate.
Defined.

(** ** Shifts: composition *)

Lemma r128Shr_wf (v : R128) (k : Z) : wf v -> wf (r128Shr v k).
Proof.
  destruct v as [l h]. unfold wf, r128Shr. cbn [lo hi].
  intros [Hl Hh]. rewrite land_127.
  assert (Ha : 0 <= k mod 128 < 128) by (apply Z.mod_pos_bound; lia).
  set (a := k mod 128) in *.
  assert (H64 : 0 < two64) by (consts; lia).
  assert (Sr : forall x n, 0 <= x < two64 -> 0 <= n ->
                 0 <= Z.shiftr x n < two64).
  { intros x n Hx Hn. rewrite Z.shiftr_div_pow2 by lia.
    assert (0 < 2 ^ n) by (apply Z.pow_pos_nonneg; lia).
    split; [apply Z.div_pos; lia |].
    apply Z.le_lt_trans with x; [| lia].
    apply Z.div_le_upper_bound; nia. }
  destruct (Z.geb_spec a 64) as [Hge | Hlt]; cbn [lo hi].
  - split; [apply Sr; lia | lia].
  - destruct (Z.eqb_spec a 0) as [H0 | Hn0]; cbn [negb lo hi].
    + split; assumption.
    + split; [| apply Sr; lia].
      assert (H : 0 < a < 64) by lia.
      assert (H' : 0 < 64 - a < 64) by lia.
      destruct (pow2_split a H) as (E & HA & HB).
      rewrite u64_shiftl by assumption.
      replace (64 - (64 - a)) with a by lia.
      rewrite Z.shiftr_div_pow2 by lia.
      assert (Hlq : 0 <= l / 2 ^ a < 2 ^ (64 - a)).
      { split; [apply Z.div_pos; lia |].
        apply Z.div_lt_upper_bound; lia. }
      rewrite Z.lor_comm, lor_disjoint by lia.
      pose proof (Z.mod_pos_bound h (2 ^ a) HA) as Hm.
      rewrite <- E. nia.
Qed.

(** X29.  How the shifts compose.  Two left shifts, or two logical right
    shifts, by amounts whose sum is below 128 are one shift by the sum; a
    left shift that pushes no set bit out is undone by the logical right
    shift; and on a non-negative value the arithmetic right shift is the
    logical one. *)
Theorem r128_shift_laws (v : R128) (a b : Z) :
  wf v -> 0 <= a -> 0 <= b -> a + b < 128 ->
  r128Shl (r128Shl v a) b = r128Shl v (a + b) /\
  r128Shr (r128Shr v a) b = r128Shr v (a + b) /\
  (to_u128 v * 2 ^ a < two128 -> r128Shr (r128Shl v a) a = v) /\
  (hi v < two63 -> r128Sar v a = r128Shr v a).
Proof.
  intros Hv Ha Hb Hab.
  assert (Ma : a mod 128 = a) by (apply Z.mod_small; lia).
  assert (Mb : b mod 128 = b) by (apply Z.mod_small; lia).
  assert (Mab : (a + b) mod 128 = a + b) by (apply Z.mod_small; lia).
  assert (Pa : 0 < 2 ^ a) by (apply Z.pow_pos_nonneg; lia).
  assert (Pb : 0 < 2 ^ b) by (apply Z.pow_pos_nonneg; lia).
  assert (T : 0 < two128) by (consts; lia).
  pose proof (to_u128_range v Hv) as Rv.
  split; [| split; [| split]].
  - apply to_u128_inj;
      [apply r128Shl_wf, r128Shl_wf, Hv | apply r128Shl_wf, Hv |].
    rewrite !r128Shl_value by (try apply r128Shl_wf; exact Hv).
    rewrite Ma, Mb, Mab, Z.mul_mod_idemp_l by lia.
    rewrite Z.pow_add_r by lia. f_equal. ring.
  - apply to_u128_inj;
      [apply r128Shr_wf, r128Shr_wf, Hv | apply r128Shr_wf, Hv |].
    rewrite !r128Shr_value by (try apply r128Shr_wf; exact Hv).
    rewrite Ma, Mb, Mab, Z.pow_add_r by lia.
    apply Z.div_div; lia.
  - intros Hfit.
    apply to_u128_inj;
      [apply r128Shr_wf, r128Shl_wf, Hv | exact Hv |].
    rewrite r128Shr_value by (apply r128Shl_wf, Hv).
    rewrite r128Shl_value by exact Hv.
    rewrite Ma, Z.mod_small by nia.
    apply Z.div_mul. lia.
  - intros Hpos.
    destruct (r128Sar_value_wf v a Hv) as [Sv Sw].
    apply to_u128_inj; [exact Sw | apply r128Shr_wf, Hv |].
    rewrite r128Shr_value by exact Hv.
    rewrite Ma in *.
    assert (Ev : to_s128 v = to_u128 v).
    { unfold to_s128, to_u128. rewrite s64_small; [reflexivity |].
      destruct Hv as [_ Hh]. lia. }
    rewrite Ev in Sv.
    assert (Q : 0 <= to_u128 v / 2 ^ a) by (apply Z.div_pos; lia).
    rewrite (to_s128_to_u128 _ Sw) in Sv.
    pose proof (to_u128_range _ Sw) as Rs.
    destruct (Z.ltb_spec (to_u128 (r128Sar v a)) (2 ^ 127)); lia.
Qed.

Lemma r128_shift_laws_witness :
  r128Shl (r128Shl R128_one 3) 60 = r128Shl R128_one (3 + 60).
Proof.
  apply (r128_shift_laws R128_one 3 60 wf_one); lia.
Defined.
